(** * pNodes: the caching, discovery and metric-derivation pipeline

    A shallow embedding of the server core of the pNode dashboard
    ([src/server/utils/format.ts], [src/server/services/pnode.service.ts],
    [src/server/services/redis.service.ts], the analytics service, the
    stats-enrichment service, [src/server/services/map.service.ts] and the
    route handlers under [src/app/api]) together with the properties stated
    about it.

    Conventions of the embedding.
    - Numbers are read in two ways.  In the records that the services pass
      around a JavaScript [number] is the exact rational it denotes ([Q],
      compared with [==]), and the arithmetic on them is exact: this is
      the reading of the properties about data flow, caching, counting and
      order, which do not depend on how a result is rounded.  Where a
      property does depend on it (the metric formulas, the health
      thresholds, the shares in percent) the functions are read again over
      the values of an IEEE 754 double, in [Module Double]: NaN, the
      infinities and the finite values, every operation rounding its exact
      result to the nearest double.
    - A field that may be absent ([undefined]) is an [option].
    - [Date.now()] is an explicit argument (milliseconds, [Z]).
    - A function that can throw returns a [result].
    - Module-level mutable state ([redisAvailable], the caches, [isRunning])
      is threaded explicitly.
    - Within one request the clock and the answers of the gossip network
      do not change; the promises combined with [Promise.all] all run, in
      the order of the array.
    - [Array.prototype.sort] is the stable sort by the comparator. *)

From Stdlib Require Import ZArith QArith Qround Qminmax Qpower Lia Lqa Ascii String
  List Bool Sorted Permutation.
From Stdlib Require Floats.
From stdpp Require Import base gmap strings list fin_maps.

Local Open Scope Q_scope.

(** ** JavaScript primitives used by the sources *)

Module Js.

(** Outcome of a computation that may throw. *)
Inductive result (A : Type) : Type :=
| Ok (a : A)
| Throw (msg : string).
Arguments Ok {A} a.
Arguments Throw {A} msg.

Definition is_ok {A} (r : result A) : bool :=
  match r with Ok _ => true | Throw _ => false end.

(** [Math.round]: the nearest integer, ties towards +infinity. *)
Definition Math_round (x : Q) : Q := inject_Z (Qfloor (x + (1 # 2))).

(** [Math.min(a, b)] and [Math.max(a, b)]. *)
Definition Math_min (a b : Q) : Q := if Qle_bool a b then a else b.
Definition Math_max (a b : Q) : Q := if Qle_bool b a then a else b.

(** [a < b], [a <= b], [a >= b] on numbers, as booleans. *)
Definition ltb (a b : Q) : bool := negb (Qle_bool b a).
Definition leb (a b : Q) : bool := Qle_bool a b.
Definition geb (a b : Q) : bool := Qle_bool b a.
Definition gtb (a b : Q) : bool := negb (Qle_bool a b).

(** Truthiness of an optional number: [undefined] and [0] are falsy. *)
Definition truthy_num (o : option Q) : bool :=
  match o with
  | Some q => negb (Qeq_bool q 0)
  | None => false
  end.

(** [o || d] for an optional number. *)
Definition num_or (o : option Q) (d : Q) : Q :=
  match o with
  | Some q => if Qeq_bool q 0 then d else q
  | None => d
  end.

(** Truthiness of a string: the empty string is falsy. *)
Definition truthy_str (s : string) : bool :=
  match s with
  | EmptyString => false
  | String _ _ => true
  end.

(** [o || d] for an optional string. *)
Definition str_or (o : option string) (d : string) : string :=
  match o with
  | Some s => if truthy_str s then s else d
  | None => d
  end.

(** The largest time value of a [Date], in milliseconds: 8.64e15. *)
Definition MAX_TIME_VALUE : Z := 8640000000000000%Z.

(** [new Date(ms).toISOString()]: throws a [RangeError] on an invalid
    date.  The rendering itself is an injective function of the time
    value, which is what the result carries. *)
Definition Date_toISOString (ms : Z) : result Z :=
  if ((- MAX_TIME_VALUE <=? ms) && (ms <=? MAX_TIME_VALUE))%Z
  then Ok ms
  else Throw "RangeError: Invalid time value".

End Js.
Export Js.

(** ** Data model (server/types/pnode.ts and the gossip client's [Pod]) *)

Inductive PNodeStatus : Type := online | offline.

Inductive NetworkHealth : Type := healthy | degraded | unstable.

Inductive NodeTier : Type := Excellent | Good | Poor.

Definition PNodeStatus_eqb (a b : PNodeStatus) : bool :=
  match a, b with
  | online, online | offline, offline => true
  | _, _ => false
  end.

(** The raw telemetry record of the gossip client. *)
Module Pod.
Record t : Type := mk {
  address : option string;
  is_public : option bool;
  last_seen_timestamp : Z;
  pubkey : option string;
  rpc_port : option Z;
  storage_committed : option Q;
  storage_usage_percent : option Q;
  storage_used : option Q;
  uptime : option Q;
  version : option string
}.
End Pod.

Module PNode.
Record t : Type := mk {
  pubkey : string;
  status : PNodeStatus;
  version : string;
  storageUsed : Q;
  storageTotal : Q;
  uptime : Q;
  ip : string;
  lastSeen : Z;
  address : option string;
  isPublic : option bool;
  rpcPort : option Z;
  storageCommitted : option Q;
  storageUsagePercent : option Q;
  lastSeenTimestamp : option Z;
  ramUsed : option Q;
  ramTotal : option Q
}.
End PNode.

Module NodeMetrics.
Record t : Type := mk {
  pubkey : string;
  healthScore : Q;
  uptime24h : Q;
  storageUtilization : Q;
  tier : NodeTier
}.
End NodeMetrics.

(** ** server/utils/format.ts *)

(** [Number(process.env.ONLINE_THRESHOLD_SECONDS) || 300]: the variable is
    given as the number it parses to, [None] when unset or not a number. *)
Definition ONLINE_THRESHOLD_SECONDS_of (env : option Z) : Z :=
  match env with
  | Some v => if (v =? 0)%Z then 300%Z else v
  | None => 300%Z
  end.

Section Format.

(** The configured threshold and the clock. *)
Variable ONLINE_THRESHOLD_SECONDS : Z.
Variable now_ms : Z.

Definition thresholdTime : Z := (now_ms / 1000 - ONLINE_THRESHOLD_SECONDS)%Z.

Definition isOnline (pod : Pod.t) : bool :=
  (thresholdTime <=? Pod.last_seen_timestamp pod)%Z.

(** The value of [storageTotal] after lines 10-17. *)
Definition storageTotal (pod : Pod.t) : Q :=
  if truthy_num (Pod.storage_committed pod) then
    num_or (Pod.storage_committed pod) 0
  else if truthy_num (Pod.storage_used pod)
          && truthy_num (Pod.storage_usage_percent pod) then
    let used := num_or (Pod.storage_used pod) 0 in
    let pct := num_or (Pod.storage_usage_percent pod) 0 in
    if Js.gtb pct 0 && Js.leb pct 100
    then Math_round ((used * 100) / pct)
    else 0
  else 0.

(** The value of [uptime30dNormalized] after lines 22-29. *)
Definition uptime30dNormalized (pod : Pod.t) : Q :=
  let rawUptime := num_or (Pod.uptime pod) 0 in
  if Js.gtb rawUptime 100 then
    let thirtyDaysInSeconds := inject_Z (30 * 24 * 60 * 60) in
    Math_min 100 ((rawUptime / thirtyDaysInSeconds) * 100)
  else if Js.ltb rawUptime 0 then 0
  else rawUptime.

Definition normalizePNode (pod : Pod.t) : result PNode.t :=
  match Date_toISOString (Pod.last_seen_timestamp pod * 1000) with
  | Throw e => Throw e
  | Ok lastSeen =>
      Ok {| PNode.pubkey := str_or (Pod.pubkey pod) "";
            PNode.status := if isOnline pod then online else offline;
            PNode.version := str_or (Pod.version pod) "unknown";
            PNode.storageUsed := num_or (Pod.storage_used pod) 0;
            PNode.storageTotal := storageTotal pod;
            PNode.uptime := uptime30dNormalized pod;
            PNode.ip := str_or (Pod.address pod) "";
            PNode.lastSeen := lastSeen;
            PNode.address := Pod.address pod;
            PNode.isPublic := Pod.is_public pod;
            PNode.rpcPort := Pod.rpc_port pod;
            PNode.storageCommitted := Pod.storage_committed pod;
            PNode.storageUsagePercent := Pod.storage_usage_percent pod;
            PNode.lastSeenTimestamp := Some (Pod.last_seen_timestamp pod);
            PNode.ramUsed := None;
            PNode.ramTotal := None |}
  end.

End Format.

(** The metric functions with exact arithmetic; [Double.calculateUtilization]
    and its neighbours are the same functions over doubles. *)
Definition calculateUtilization (storageUsed storageTotal : Q) : Q :=
  if Qeq_bool storageTotal 0 then 0
  else Math_round ((storageUsed / storageTotal) * 100 * 100) / 100.

Definition calculateUptime24h (uptimeSeconds : Q) : Q :=
  if Js.ltb uptimeSeconds 0 then 0
  else
    let secondsIn24h := 86400 in
    let percentage := (uptimeSeconds / secondsIn24h) * 100 in
    Math_min 100 (Math_max 0 percentage).

Definition calculateHealthScore
    (uptime24h storageUtilization : Q) (isOnline : bool) : Q :=
  let uptimeScore := uptime24h * (1 # 2) in
  let clampedUtilization := Math_min 100 (Math_max 0 storageUtilization) in
  let storageScore := (100 - clampedUtilization) * (3 # 10) in
  let onlineScore := if isOnline then 100 else 0 in
  let onlineScoreWeighted := onlineScore * (1 # 5) in
  let totalScore := uptimeScore + storageScore + onlineScoreWeighted in
  Math_round (Math_min 100 (Math_max 0 totalScore) * 100) / 100.

Definition getNodeTier (healthScore : Q) : NodeTier :=
  if Js.geb healthScore 90 then Excellent
  else if Js.geb healthScore 75 then Good
  else Poor.

(** ** The analytics service: per-node metrics *)

Definition calculateNetworkHealth (onlinePercentage : Q) : NetworkHealth :=
  if Js.geb onlinePercentage 95 then healthy
  else if Js.geb onlinePercentage 85 then degraded
  else unstable.

(** One iteration of the loop of [computeNodeMetricsFromData]: [None] is
    [continue], [Some m] is [metrics.push(m)]. *)
Definition nodeMetricsOf (nodes : list PNode.t) (pod : Pod.t)
  : option NodeMetrics.t :=
  match Pod.pubkey pod with
  | None => None
  | Some pk =>
      match List.find (fun n => String.eqb (PNode.pubkey n) pk) nodes with
      | None => None
      | Some node =>
          if negb (truthy_str pk) then None
          else
            let uptimeSeconds := num_or (Pod.uptime pod) 0 in
            let uptime24h := calculateUptime24h uptimeSeconds in
            let storageCommitted := num_or (Pod.storage_committed pod) 0 in
            let storageUsed := num_or (Pod.storage_used pod) 0 in
            let storageUtilization :=
              if Js.gtb storageCommitted 0
              then Math_round ((storageUsed / storageCommitted) * 100 * 100) / 100
              else 0 in
            let healthScore :=
              calculateHealthScore uptime24h storageUtilization
                (PNodeStatus_eqb (PNode.status node) online) in
            let tier := getNodeTier healthScore in
            Some {| NodeMetrics.pubkey := pk;
                    NodeMetrics.healthScore := healthScore;
                    NodeMetrics.uptime24h := uptime24h;
                    NodeMetrics.storageUtilization := storageUtilization;
                    NodeMetrics.tier := tier |}
      end
  end.

Definition computeNodeMetricsFromData
    (pods : list Pod.t) (nodes : list PNode.t) : list NodeMetrics.t :=
  omap (nodeMetricsOf nodes) pods.

(** ** server/services/redis.service.ts: the two-tier cache *)

Module Cache.
Section Tiered.

(** The cached values and their JavaScript truthiness. *)
Variable V : Type.
Variable truthy : V -> bool.

(** *** The in-process tier ([cacheService], from ./cache.service) *)

(** An entry of either tier: a value and the time (milliseconds) at which
    it expires. *)
Record Entry : Type := mkEntry { value : V; expiry : Z }.

(** The value under [key], unless its entry has expired. *)
Definition live (es : gmap string Entry) (now : Z) (key : string) : option V :=
  match es !! key with
  | Some e => if (expiry e <? now)%Z then None else Some (value e)
  | None => None
  end.

(** Modelled from the spec: [cacheService.get] of ./cache.service, the local
    tier that redis.service.ts imports and whose source is not at hand.  By
    the specification an entry is [(key, value, expiry)] and a read is an
    explicit check of the expiry timestamp, with no eviction sweep; absence
    is "not found", not an error. *)
Definition cacheService_get
    (es : gmap string Entry) (now : Z) (key : string) : option V :=
  live es now key.

(** Modelled from the spec: [cacheService.set] of ./cache.service; the
    write records the expiry timestamp [now + ttl] and always succeeds. *)
Definition cacheService_set
    (es : gmap string Entry) (now : Z) (key : string) (v : V) (ttlMs : Z)
  : gmap string Entry :=
  <[key := mkEntry v (now + ttlMs)]> es.

(** Modelled from the spec: [cacheService.delete] of ./cache.service, the
    unconditional local deletion. *)
Definition cacheService_delete
    (es : gmap string Entry) (key : string) : gmap string Entry :=
  delete key es.

(** *** The remote tier *)

(** The Redis server as the client sees it: when it is not [reachable]
    every command of the client rejects.  A stored value is the JSON text
    of the cached value, which [JSON.parse] gives back unchanged; Redis
    drops it at [expiry]. *)
Record Server : Type := mkServer {
  reachable : bool;
  stored : gmap string Entry
}.

(** Module state: [redisClient] (non-null or null), [redisAvailable], the
    server behind the client, and the entries of the local tier. *)
Record State : Type := mkState {
  redisClient : bool;
  redisAvailable : bool;
  server : Server;
  entries : gmap string Entry
}.

(** [redisClient.get(key)]. *)
Definition redisClient_get (srv : Server) (now : Z) (key : string)
  : result (option V) :=
  if reachable srv then Ok (live (stored srv) now key)
  else Throw "Connection is closed.".

(** [redisClient.setex(key, ttlSeconds, text)]; Redis rejects a
    non-positive expire time. *)
Definition redisClient_setex
    (srv : Server) (now : Z) (key : string) (ttlSeconds : Z) (v : V)
  : result Server :=
  if reachable srv then
    if (0 <? ttlSeconds)%Z
    then Ok (mkServer (reachable srv)
               (<[key := mkEntry v (now + ttlSeconds * 1000)]> (stored srv)))
    else Throw "ERR invalid expire time in 'setex' command"
  else Throw "Connection is closed.".

(** [redisClient.del(key)]. *)
Definition redisClient_del (srv : Server) (key : string) : result Server :=
  if reachable srv
  then Ok (mkServer (reachable srv) (delete key (stored srv)))
  else Throw "Connection is closed.".

Definition getFromRedis (st : State) (now : Z) (key : string) : option V :=
  if negb (redisAvailable st) || negb (redisClient st) then None
  else
    match redisClient_get (server st) now key with
    | Ok (Some v) => Some v
    | Ok None => None
    | Throw _ => None
    end.

Definition setInRedis
    (st : State) (now : Z) (key : string) (v : V) (ttlSeconds : Z) : State :=
  if negb (redisAvailable st) || negb (redisClient st) then st
  else
    match redisClient_setex (server st) now key ttlSeconds v with
    | Ok srv => mkState (redisClient st) (redisAvailable st) srv (entries st)
    | Throw _ => st
    end.

(** *** [class RedisCacheService] *)

Section Service.

Variable keyPrefix : string.

Definition get (st : State) (now : Z) (key : string) : option V :=
  let redisKey := (keyPrefix ++ key)%string in
  match getFromRedis st now redisKey with
  | Some redisValue =>
      if truthy redisValue then Some redisValue
      else cacheService_get (entries st) now key
  | None => cacheService_get (entries st) now key
  end.

Definition set (st : State) (now : Z) (key : string) (v : V) (ttlMs : Z)
  : State :=
  let redisKey := (keyPrefix ++ key)%string in
  let ttlSeconds := (ttlMs / 1000)%Z in
  let st1 := setInRedis st now redisKey v ttlSeconds in
  mkState (redisClient st1) (redisAvailable st1) (server st1)
    (cacheService_set (entries st1) now key v ttlMs).

Definition delete (st : State) (key : string) : State :=
  let redisKey := (keyPrefix ++ key)%string in
  let st1 :=
    if redisAvailable st && redisClient st then
      match redisClient_del (server st) redisKey with
      | Ok srv => mkState (redisClient st) (redisAvailable st) srv (entries st)
      | Throw _ => st
      end
    else st in
  mkState (redisClient st1) (redisAvailable st1) (server st1)
    (cacheService_delete (entries st1) key).

Definition isRedisAvailable (st : State) : bool := redisAvailable st.

End Service.

End Tiered.

Arguments mkEntry {V} _ _.
Arguments value {V} _.
Arguments expiry {V} _.
Arguments mkServer {V} _ _.
Arguments reachable {V} _.
Arguments stored {V} _.
Arguments mkState {V} _ _ _ _.
Arguments redisClient {V} _.
Arguments redisAvailable {V} _.
Arguments server {V} _.
Arguments entries {V} _.
Arguments live {V} _ _ _.
Arguments cacheService_get {V} _ _ _.
Arguments cacheService_set {V} _ _ _ _ _.
Arguments cacheService_delete {V} _ _.
Arguments getFromRedis {V} _ _ _.
Arguments setInRedis {V} _ _ _ _ _.
Arguments get {V} _ _ _ _ _.
Arguments set {V} _ _ _ _ _ _.
Arguments delete {V} _ _ _.

Definition REDIS_KEY_PREFIX_GEO : string := "xandeum:geo:".
Definition REDIS_KEY_PREFIX_NODES : string := "xandeum:nodes:".
Definition REDIS_KEY_PREFIX_STATS : string := "xandeum:stats:".
Definition REDIS_KEY_PREFIX_ANALYTICS : string := "xandeum:analytics:".

End Cache.

(** ** The gossip client and the state of the service layer *)

(** The statistics a node reports about itself; of the record returned by
    [getStats()] the core reads only the two RAM fields. *)
Module NodeStats.
Record t : Type := mk {
  ram_used : option Q;
  ram_total : option Q
}.
End NodeStats.

(** What the caches hold: node lists, raw pod lists, computed metrics and
    per-node statistics.  All of them are objects or arrays, hence truthy. *)
Inductive CacheValue : Type :=
| VNodes (nodes : list PNode.t)
| VPods (pods : list Pod.t)
| VMetrics (metrics : list NodeMetrics.t)
| VStats (stats : NodeStats.t).

Definition CacheValue_truthy (v : CacheValue) : bool := true.

(** The unchecked casts [get<T>]. *)
Definition as_nodes (v : CacheValue) : option (list PNode.t) :=
  match v with VNodes l => Some l | _ => None end.
Definition as_pods (v : CacheValue) : option (list Pod.t) :=
  match v with VPods l => Some l | _ => None end.
Definition as_metrics (v : CacheValue) : option (list NodeMetrics.t) :=
  match v with VMetrics l => Some l | _ => None end.
Definition as_stats (v : CacheValue) : option NodeStats.t :=
  match v with VStats s => Some s | _ => None end.

(** The answer of [getPods()] and [getPodsWithStats()]. *)
Record Response : Type := mkResponse { pods : option (list Pod.t) }.

(** The gossip network as seen through [PrpcClient]: the two operations of
    the primary client, [getPods()] of a client built for a seed address,
    and [getStats()] of a client built for a node's own address. *)
Record Prpc : Type := mkPrpc {
  getPodsWithStats : result Response;
  getPods : result Response;
  seed_getPods : string -> result Response;
  node_getStats : string -> result (option NodeStats.t)
}.

Record World : Type := mkWorld {
  cache : Cache.State CacheValue;
  now : Z;
  prpc : Prpc
}.

Definition with_cache (w : World) (c : Cache.State CacheValue) : World :=
  mkWorld c (now w) (prpc w).

(** *** Asynchronous computations: state and exceptions *)

Definition M (A : Type) : Type := World -> result A * World.

Definition ret {A} (a : A) : M A := fun w => (Ok a, w).

Definition throw {A} (msg : string) : M A := fun w => (Throw msg, w).

Definition bind {A B} (m : M A) (k : A -> M B) : M B :=
  fun w =>
    match m w with
    | (Ok a, w') => k a w'
    | (Throw e, w') => (Throw e, w')
    end.

(** [try { m } catch (e) { h e }]. *)
Definition try_catch {A} (m : M A) (h : string -> M A) : M A :=
  fun w =>
    match m w with
    | (Ok a, w') => (Ok a, w')
    | (Throw e, w') => h e w'
    end.

(** [Promise.all([a, b])]: both computations are started and both run to
    their end, the steps of [a] before those of [b]; the result is the pair
    of their values, or the first rejection.  A rejection of [a] does not
    stop [b]: what [b] writes is part of the world that is left. *)
Definition Promise_all2 {A B} (a : M A) (b : M B) : M (A * B) :=
  fun w =>
    match a w with
    | (Ok x, w1) =>
        match b w1 with
        | (Ok y, w2) => (Ok (x, y), w2)
        | (Throw e, w2) => (Throw e, w2)
        end
    | (Throw e, w1) => (Throw e, snd (b w1))
    end.

Declare Scope js_scope.
Delimit Scope js_scope with js.
Notation "x <- m ;; k" := (bind m (fun x => k))
  (at level 100, m at next level, right associativity) : js_scope.
Notation "m ;;; k" := (bind m (fun _ => k))
  (at level 100, right associativity) : js_scope.
Local Open Scope js_scope.

(** An external call: its outcome is read off the world. *)
Definition call {A} (f : Prpc -> result A) : M A := fun w => (f (prpc w), w).

(** [for (const pod of response.pods)] needs an iterable. *)
Definition iterable (r : Response) : M (list Pod.t) :=
  match pods r with
  | Some l => ret l
  | None => throw "TypeError: response.pods is not iterable"
  end.

(** The three cache services of redis.service.ts. *)
Section CacheServices.

Variable keyPrefix : string.

Definition service_get {T} (cast : CacheValue -> option T) (key : string)
  : M (option T) :=
  fun w =>
    (Ok (match Cache.get CacheValue_truthy keyPrefix (cache w) (now w) key with
         | Some v => cast v
         | None => None
         end), w).

Definition service_set (key : string) (v : CacheValue) (ttlMs : Z) : M unit :=
  fun w => (Ok tt, with_cache w (Cache.set keyPrefix (cache w) (now w) key v ttlMs)).

Definition service_delete (key : string) : M unit :=
  fun w => (Ok tt, with_cache w (Cache.delete keyPrefix (cache w) key)).

End CacheServices.

Module nodeCacheService.
Definition get {T} := @service_get Cache.REDIS_KEY_PREFIX_NODES T.
Definition set := service_set Cache.REDIS_KEY_PREFIX_NODES.
Definition delete := service_delete Cache.REDIS_KEY_PREFIX_NODES.
End nodeCacheService.

Module statsCacheService.
Definition get {T} := @service_get Cache.REDIS_KEY_PREFIX_STATS T.
Definition set := service_set Cache.REDIS_KEY_PREFIX_STATS.
Definition delete := service_delete Cache.REDIS_KEY_PREFIX_STATS.
End statsCacheService.

Module analyticsCacheService.
Definition get {T} := @service_get Cache.REDIS_KEY_PREFIX_ANALYTICS T.
Definition set := service_set Cache.REDIS_KEY_PREFIX_ANALYTICS.
Definition delete := service_delete Cache.REDIS_KEY_PREFIX_ANALYTICS.
End analyticsCacheService.

(** ** server/config/prpc.ts *)

Definition SEED_IPS : list string :=
  [ "173.212.220.65"; "161.97.97.41"; "192.190.136.36"; "192.190.136.38";
    "207.244.255.1"; "192.190.136.28"; "192.190.136.29"; "173.212.203.145" ]%string.

(** ** server/services/stats-enrichment.service.ts: read-through enrichment *)

Definition node_stats_key (pubkey : string) : string :=
  ("node_stats_" ++ pubkey)%string.

(** [{ ...node, ramUsed, ramTotal }]. *)
Definition with_ram (node : PNode.t) (ramUsed ramTotal : Q) : PNode.t :=
  {| PNode.pubkey := PNode.pubkey node;
     PNode.status := PNode.status node;
     PNode.version := PNode.version node;
     PNode.storageUsed := PNode.storageUsed node;
     PNode.storageTotal := PNode.storageTotal node;
     PNode.uptime := PNode.uptime node;
     PNode.ip := PNode.ip node;
     PNode.lastSeen := PNode.lastSeen node;
     PNode.address := PNode.address node;
     PNode.isPublic := PNode.isPublic node;
     PNode.rpcPort := PNode.rpcPort node;
     PNode.storageCommitted := PNode.storageCommitted node;
     PNode.storageUsagePercent := PNode.storageUsagePercent node;
     PNode.lastSeenTimestamp := PNode.lastSeenTimestamp node;
     PNode.ramUsed := Some ramUsed;
     PNode.ramTotal := Some ramTotal |}.

Definition enrichNodeWithStats (node : PNode.t) : M PNode.t :=
  cachedStats <- statsCacheService.get as_stats (node_stats_key (PNode.pubkey node)) ;;
  match cachedStats with
  | Some stats =>
      match NodeStats.ram_used stats, NodeStats.ram_total stats with
      | Some used, Some total => ret (with_ram node used total)
      | _, _ => ret node
      end
  | None => ret node
  end.

(** [Promise.all(nodes.map(enrichNodeWithStats))]; the throttled log line
    of the source has no effect on the result. *)
Fixpoint enrichNodesWithCachedStats (nodes : list PNode.t) : M (list PNode.t) :=
  match nodes with
  | [] => ret []
  | node :: rest =>
      enriched <- enrichNodeWithStats node ;;
      others <- enrichNodesWithCachedStats rest ;;
      ret (enriched :: others)
  end.

(** ** server/services/pnode.service.ts *)

Section PNodeService.

Variable ONLINE_THRESHOLD_SECONDS : Z.

Definition CACHE_KEY : string := "pnodes".
Definition CACHE_TTL_MS : Z := (30 * 1000)%Z.

(** The body of [for (const pod of response.pods)]: a record whose
    normalization throws is skipped, and so is one with an empty pubkey. *)
Definition pushNormalized (now_ms : Z)
    (discoveredNodes : list PNode.t) (pod : Pod.t) : list PNode.t :=
  match normalizePNode ONLINE_THRESHOLD_SECONDS now_ms pod with
  | Ok normalized =>
      if truthy_str (PNode.pubkey normalized)
      then discoveredNodes ++ [normalized]
      else discoveredNodes
  | Throw _ => discoveredNodes
  end.

Definition pushAll (discoveredNodes : list PNode.t) (l : list Pod.t)
  : M (list PNode.t) :=
  fun w => (Ok (fold_left (pushNormalized (now w)) l discoveredNodes), w).

(** The loop over [SEED_IPS[1..]]; it runs while nothing was discovered. *)
Fixpoint trySeeds (seeds : list string) (discoveredNodes : list PNode.t)
  : M (list PNode.t) :=
  match seeds with
  | [] => ret discoveredNodes
  | ip :: rest =>
      if (length discoveredNodes =? 0)%nat then
        found <- try_catch
                   (response <- call (fun p => seed_getPods p ip) ;;
                    l <- iterable response ;;
                    pushAll discoveredNodes l)
                   (fun _ => ret discoveredNodes) ;;
        if (0 <? length found)%nat then ret found
        else trySeeds rest found
      else ret discoveredNodes
  end.

Definition discoverPNodesViaGossip : M (list PNode.t) :=
  discoveredNodes <-
    try_catch
      (response <- try_catch (call getPodsWithStats) (fun _ => call getPods) ;;
       l <- iterable response ;;
       pushAll [] l)
      (fun _ => ret []) ;;
  if (0 <? length discoveredNodes)%nat then ret discoveredNodes
  else trySeeds (drop 1 SEED_IPS) discoveredNodes.

(** The deduplication loop of [getAllPNodes]: [seen] is the [Map] of the
    source, [uniqueNodes] the array it fills. *)
Definition dedupStep (acc : gmap string PNode.t * list PNode.t) (node : PNode.t)
  : gmap string PNode.t * list PNode.t :=
  let '(seen, uniqueNodes) := acc in
  if negb (truthy_str (PNode.pubkey node)) then acc
  else
    match seen !! PNode.pubkey node with
    | None => (<[PNode.pubkey node := node]> seen, uniqueNodes ++ [node])
    | Some _ => acc
    end.

Definition dedupByPubkey (nodes : list PNode.t) : list PNode.t :=
  snd (fold_left dedupStep nodes (∅, [])).

Definition getAllPNodes : M (list PNode.t) :=
  cached <- nodeCacheService.get as_nodes CACHE_KEY ;;
  match cached with
  | Some l => enrichNodesWithCachedStats l
  | None =>
      nodes <- discoverPNodesViaGossip ;;
      let uniqueNodes := dedupByPubkey nodes in
      nodeCacheService.set CACHE_KEY (VNodes uniqueNodes) CACHE_TTL_MS ;;;
      enrichNodesWithCachedStats uniqueNodes
  end.

Definition getPNodeByPubkey (pubkey : string) : M (option PNode.t) :=
  nodes <- getAllPNodes ;;
  ret (List.find (fun node => String.eqb (PNode.pubkey node) pubkey) nodes).

Definition refreshPNodes : M (list PNode.t) :=
  nodeCacheService.delete CACHE_KEY ;;;
  getAllPNodes.

(** [s.split(":")[0]]. *)
Fixpoint before_colon (s : string) : string :=
  match s with
  | EmptyString => EmptyString
  | String c rest =>
      if Ascii.eqb c ":"%char then EmptyString else String c (before_colon rest)
  end.

Definition getNodeStatsByPubkey (pubkey : string) : M (option NodeStats.t) :=
  let CACHE_KEY := node_stats_key pubkey in
  let CACHE_TTL_MS := (120 * 1000)%Z in
  cached <- statsCacheService.get as_stats CACHE_KEY ;;
  match cached with
  | Some stats => ret (Some stats)
  | None =>
      try_catch
        (node <- getPNodeByPubkey pubkey ;;
         match node with
         | None => ret None
         | Some node =>
             if negb (PNodeStatus_eqb (PNode.status node) online) then ret None
             else
               let nodeAddress :=
                 str_or (PNode.address node) (PNode.ip node) in
               if negb (truthy_str nodeAddress) then ret None
               else
                 let nodeIp := before_colon nodeAddress in
                 stats <- call (fun p => node_getStats p nodeIp) ;;
                 match stats with
                 | Some s =>
                     statsCacheService.set CACHE_KEY (VStats s) CACHE_TTL_MS ;;;
                     ret (Some s)
                 | None => ret None
                 end
         end)
        (fun _ => ret None)
  end.

Definition pods_or_empty (r : Response) : list Pod.t :=
  match pods r with Some l => l | None => [] end.

Definition getRawPodsForAnalytics : M (list Pod.t) :=
  let CACHE_KEY_ANALYTICS : string := "pods_raw_analytics" in
  let CACHE_TTL_MS_ANALYTICS := (60 * 1000)%Z in
  cached <- analyticsCacheService.get as_pods CACHE_KEY_ANALYTICS ;;
  match cached with
  | Some l => ret l
  | None =>
      try_catch
        (response <- call getPodsWithStats ;;
         let l := pods_or_empty response in
         analyticsCacheService.set CACHE_KEY_ANALYTICS (VPods l)
           CACHE_TTL_MS_ANALYTICS ;;;
         ret l)
        (fun _ =>
           response <- call getPods ;;
           let l := pods_or_empty response in
           analyticsCacheService.set CACHE_KEY_ANALYTICS (VPods l)
             CACHE_TTL_MS_ANALYTICS ;;;
           ret l)
  end.

Definition getAllPNodesForMap : M (list PNode.t) :=
  let CACHE_KEY_MAP : string := "pnodes_map_all" in
  let CACHE_TTL_MS_MAP := (30 * 1000)%Z in
  cached <- nodeCacheService.get as_nodes CACHE_KEY_MAP ;;
  match cached with
  | Some l => enrichNodesWithCachedStats l
  | None =>
      discoveredNodes <-
        try_catch
          (response <- try_catch (call getPodsWithStats) (fun _ => call getPods) ;;
           l <- iterable response ;;
           pushAll [] l)
          (fun _ => trySeeds (drop 1 SEED_IPS) []) ;;
      nodeCacheService.set CACHE_KEY_MAP (VNodes discoveredNodes)
        CACHE_TTL_MS_MAP ;;;
      enrichNodesWithCachedStats discoveredNodes
  end.

End PNodeService.

(** ** The analytics service: cached metrics and the summary *)

Module AnalyticsSummary.
Record t : Type := mk {
  totalPNodes : nat;
  onlinePNodes : nat;
  onlinePercentage : Q;
  totalPods : nat;
  activePods : nat;
  averageUptime : Q;
  totalStorageUsed : Q;
  totalStorageCapacity : Q;
  totalStorageUsedTB : Q;
  totalStorageCapacityTB : Q;
  networkHealth : NetworkHealth;
  consensusVersion : string
}.
End AnalyticsSummary.

(** A JavaScript [Map<string, number>]: iteration follows insertion order,
    and [set] on a present key keeps its position. *)
Module JsMap.
Definition t : Type := list (string * nat).

Definition get (m : t) (k : string) : option nat :=
  option_map snd (List.find (fun e => String.eqb (fst e) k) m).

Fixpoint set (m : t) (k : string) (v : nat) : t :=
  match m with
  | [] => [(k, v)]
  | (k', v') :: rest =>
      if String.eqb k' k then (k, v) :: rest else (k', v') :: set rest k v
  end.
End JsMap.

Definition count (n : nat) : Q := inject_Z (Z.of_nat n).

Definition Date_now : M Z := fun w => (Ok (now w), w).

Section AnalyticsService.

Variable ONLINE_THRESHOLD_SECONDS : Z.

Definition NODE_METRICS_CACHE_KEY : string := "computed_node_metrics".
Definition NODE_METRICS_CACHE_TTL_MS : Z := (60 * 1000)%Z.

Definition getCachedNodeMetrics : M (list NodeMetrics.t) :=
  cached <- analyticsCacheService.get as_metrics NODE_METRICS_CACHE_KEY ;;
  match cached with
  | Some l => ret l
  | None =>
      both <- Promise_all2 getRawPodsForAnalytics
                (getAllPNodes ONLINE_THRESHOLD_SECONDS) ;;
      let pods := fst both in
      let nodes := snd both in
      let metrics := computeNodeMetricsFromData pods nodes in
      analyticsCacheService.set NODE_METRICS_CACHE_KEY (VMetrics metrics)
        NODE_METRICS_CACHE_TTL_MS ;;;
      ret metrics
  end.

Definition versionCounts (nodes : list PNode.t) : JsMap.t :=
  fold_left
    (fun versionMap node =>
       let version := str_or (Some (PNode.version node)) "unknown" in
       JsMap.set versionMap version
         (match JsMap.get versionMap version with
          | Some c => if (c =? 0)%nat then 0%nat else c
          | None => 0%nat
          end + 1)%nat)
    nodes [].

Definition mostFrequent (versionMap : JsMap.t) : string :=
  fst (fold_left
         (fun '(consensusVersion, maxCount) '(version, c) =>
            if (maxCount <? c)%nat then (version, c)
            else (consensusVersion, maxCount))
         versionMap ("unknown"%string, 0%nat)).

Definition summarize (now_ms : Z) (nodes : list PNode.t) (rawPods : list Pod.t)
  : AnalyticsSummary.t :=
  let thresholdTime := (now_ms / 1000 - ONLINE_THRESHOLD_SECONDS)%Z in
  let activePods :=
    length (List.filter
              (fun pod => (thresholdTime <=? Pod.last_seen_timestamp pod)%Z)
              rawPods) in
  let totalPods := length rawPods in
  let totalPNodes := length nodes in
  let onlineNodes :=
    List.filter (fun n => PNodeStatus_eqb (PNode.status n) online) nodes in
  let onlinePNodes := length onlineNodes in
  let onlinePercentage :=
    if (0 <? totalPNodes)%nat
    then Math_round ((count onlinePNodes / count totalPNodes) * 100 * 100) / 100
    else 0 in
  let uptimes :=
    List.filter (fun u => Js.gtb u 0) (List.map PNode.uptime onlineNodes) in
  let averageUptime :=
    if (0 <? length uptimes)%nat
    then Math_round
           ((fold_left (fun sum u => sum + u) uptimes 0 / count (length uptimes))
            * 100) / 100
    else 0 in
  let totalStorageUsed :=
    fold_left (fun sum n => sum + num_or (Some (PNode.storageUsed n)) 0)
      nodes 0 in
  let totalStorageCapacity :=
    fold_left
      (fun sum pod =>
         if truthy_num (Pod.storage_committed pod)
            && Js.gtb (num_or (Pod.storage_committed pod) 0) 0
         then sum + num_or (Pod.storage_committed pod) 0
         else sum)
      rawPods 0 in
  let totalStorageUsedTB := totalStorageUsed / inject_Z (1024 ^ 4) in
  let totalStorageCapacityTB := totalStorageCapacity / inject_Z (1024 ^ 4) in
  let consensusVersion := mostFrequent (versionCounts nodes) in
  let networkHealth := calculateNetworkHealth onlinePercentage in
  {| AnalyticsSummary.totalPNodes := totalPNodes;
     AnalyticsSummary.onlinePNodes := onlinePNodes;
     AnalyticsSummary.onlinePercentage := onlinePercentage;
     AnalyticsSummary.totalPods := totalPods;
     AnalyticsSummary.activePods := activePods;
     AnalyticsSummary.averageUptime := averageUptime;
     AnalyticsSummary.totalStorageUsed := totalStorageUsed;
     AnalyticsSummary.totalStorageCapacity := totalStorageCapacity;
     AnalyticsSummary.totalStorageUsedTB := totalStorageUsedTB;
     AnalyticsSummary.totalStorageCapacityTB := totalStorageCapacityTB;
     AnalyticsSummary.networkHealth := networkHealth;
     AnalyticsSummary.consensusVersion := consensusVersion |}.

Definition getAnalyticsSummary : M AnalyticsSummary.t :=
  nodes <- getAllPNodes ONLINE_THRESHOLD_SECONDS ;;
  rawPods <- getRawPodsForAnalytics ;;
  now_ms <- Date_now ;;
  ret (summarize now_ms nodes rawPods).

End AnalyticsService.

(** ** The stats-enrichment job *)

Module Enrichment.

Definition BATCH_SIZE : nat := 15.

(** What one promise of a batch resolves to. *)
Inductive Outcome : Type := FromCache | Fetched | Failed.

(** An invocation of [preFetchAllNodeStats] that has set the flag, at one
    of its suspension points: waiting for [getAllPNodes()], or in the batch
    loop with the online nodes still to be processed. *)
Inductive Activation : Type :=
| AwaitNodes
| InBatches (pending : list PNode.t).

(** The state of the process: the module variable [isRunning], the
    invocations in flight, the rest of the world, and the pubkeys for which
    a batch promise was started. *)
Record Job : Type := mkJob {
  isRunning : bool;
  inFlight : list Activation;
  world : World;
  started : list string
}.

Section Body.

(** The two services the job calls; any computation, throwing or not. *)
Variable getAllPNodes : M (list PNode.t).
Variable getNodeStatsByPubkey : string -> M (option NodeStats.t).

(** The promise made for one node of a batch. *)
Definition prefetchNode (node : PNode.t) : M Outcome :=
  try_catch
    (cached <- statsCacheService.get as_stats
                 (node_stats_key (PNode.pubkey node)) ;;
     match cached with
     | Some _ => ret FromCache
     | None =>
         stats <- getNodeStatsByPubkey (PNode.pubkey node) ;;
         match stats with
         | Some _ => ret Fetched
         | None => ret Failed
         end
     end)
    (fun _ => ret Failed).

(** [await Promise.allSettled(batch.map(...))]. *)
Fixpoint runBatch (batch : list PNode.t) (w : World) : World :=
  match batch with
  | [] => w
  | node :: rest => runBatch rest (snd (prefetchNode node w))
  end.

(** A call of [preFetchAllNodeStats()], up to its first [await]. *)
Definition preFetchAllNodeStats (j : Job) : Job :=
  if isRunning j then j
  else mkJob true (AwaitNodes :: inFlight j) (world j) (started j).

(** The [finally] block, reached from every exit of the [try]. *)
Definition finally_ (rest : list Activation) (w : World) (tr : list string)
  : Job :=
  mkJob false rest w tr.

(** The activation [a] runs from its suspension point to the next one or
    to its end; [rest] are the other activations. *)
Definition continue (j : Job) (a : Activation) (rest : list Activation)
  : Job :=
  match a with
  | AwaitNodes =>
      match getAllPNodes (world j) with
      | (Ok nodes, w') =>
          let onlineNodes :=
            List.filter (fun node => PNodeStatus_eqb (PNode.status node) online)
              nodes in
          if (length onlineNodes =? 0)%nat
          then finally_ rest w' (started j)
          else mkJob (isRunning j) (InBatches onlineNodes :: rest) w'
                 (started j)
      | (Throw _, w') => finally_ rest w' (started j)
      end
  | InBatches pending =>
      let batch := take BATCH_SIZE pending in
      let w' := runBatch batch (world j) in
      let tr := (started j ++ List.map PNode.pubkey batch)%list in
      match drop BATCH_SIZE pending with
      | [] => finally_ rest w' tr
      | later => mkJob (isRunning j) (InBatches later :: rest) w' tr
      end
  end.

(** The event loop resumes the [i]-th activation in flight. *)
Definition resume (i : nat) (j : Job) : Job :=
  match inFlight j !! i with
  | Some a => continue j a (take i (inFlight j) ++ drop (S i) (inFlight j))
  | None => j
  end.

(** What can happen in the process: a call of the job (by the timer or
    at start-up), the resumption of an activation, and anything else
    that changes the world but not the job's flag. *)
Inductive step : Job -> Job -> Prop :=
| step_invoke j : step j (preFetchAllNodeStats j)
| step_resume i j : step j (resume i j)
| step_world j w :
    step j (mkJob (isRunning j) (inFlight j) w (started j)).

Inductive reachable : Job -> Prop :=
| reachable_init w : reachable (mkJob false [] w [])
| reachable_step j j' : reachable j -> step j j' -> reachable j'.

(** Resuming the single activation until it ends. *)
Fixpoint drain (fuel : nat) (j : Job) : Job :=
  match fuel with
  | O => j
  | S fuel' =>
      match inFlight j with
      | [] => j
      | _ :: _ => drain fuel' (resume 0 j)
      end
  end.

End Body.

End Enrichment.

(** ** The service layer as a transition system *)

Section Requests.

Variable ONLINE_THRESHOLD_SECONDS : Z.

(** The calls the routes and the background job make into the services. *)
Inductive Request : Type :=
| GetAllPNodes
| GetAllPNodesForMap
| RefreshPNodes
| GetPNodeByPubkey (pubkey : string)
| GetNodeStatsByPubkey (pubkey : string)
| GetRawPodsForAnalytics
| GetCachedNodeMetrics
| GetAnalyticsSummary.

(** The world after a request was served. *)
Definition serve (r : Request) (w : World) : World :=
  match r with
  | GetAllPNodes => snd (getAllPNodes ONLINE_THRESHOLD_SECONDS w)
  | GetAllPNodesForMap => snd (getAllPNodesForMap ONLINE_THRESHOLD_SECONDS w)
  | RefreshPNodes => snd (refreshPNodes ONLINE_THRESHOLD_SECONDS w)
  | GetPNodeByPubkey pk => snd (getPNodeByPubkey ONLINE_THRESHOLD_SECONDS pk w)
  | GetNodeStatsByPubkey pk =>
      snd (getNodeStatsByPubkey ONLINE_THRESHOLD_SECONDS pk w)
  | GetRawPodsForAnalytics => snd (getRawPodsForAnalytics w)
  | GetCachedNodeMetrics => snd (getCachedNodeMetrics ONLINE_THRESHOLD_SECONDS w)
  | GetAnalyticsSummary => snd (getAnalyticsSummary ONLINE_THRESHOLD_SECONDS w)
  end.

(** Between requests the clock, the gossip network and the connection to
    Redis may change in any way; the entries of the two tiers stay. *)
Definition same_entries (w w' : World) : Prop :=
  Cache.entries (cache w') = Cache.entries (cache w)
  /\ Cache.stored (Cache.server (cache w'))
     = Cache.stored (Cache.server (cache w)).

(** The worlds a process gets into, from start-up with empty caches. *)
Inductive reachable : World -> Prop :=
| reachable_start c t p :
    Cache.entries c = ∅ -> Cache.stored (Cache.server c) = ∅ ->
    reachable (mkWorld c t p)
| reachable_serve r w : reachable w -> reachable (serve r w)
| reachable_env w w' : reachable w -> same_entries w w' -> reachable w'.

End Requests.

(** ** Statements about lists of nodes *)

(** No two entries share a pubkey and no pubkey is empty. *)
Definition unique_pubkeys (l : list PNode.t) : Prop :=
  NoDup (List.map PNode.pubkey l)
  /\ Forall (fun n => PNode.pubkey n <> ""%string) l.

(** "Keep the first occurrence of each pubkey, in order": the nodes whose
    pubkey is non-empty and is neither in [seen] nor carried by an earlier
    node of the list. *)
Fixpoint firstOccurrences (seen : list string) (nodes : list PNode.t)
  : list PNode.t :=
  match nodes with
  | [] => []
  | node :: rest =>
      if negb (truthy_str (PNode.pubkey node))
         || existsb (String.eqb (PNode.pubkey node)) seen
      then firstOccurrences seen rest
      else node :: firstOccurrences (PNode.pubkey node :: seen) rest
  end.

(** A node and its enriched copy differ at most in the RAM fields. *)
Definition enriched_from (node enriched : PNode.t) : Prop :=
  enriched = node \/ exists used total, enriched = with_ram node used total.

(** What the node cache holds under the key of the deduplicated list, in
    either tier. *)
Definition nodes_entry_ok (e : Cache.Entry CacheValue) : Prop :=
  exists l, Cache.value e = VNodes l /\ unique_pubkeys l.

Definition cache_inv (c : Cache.State CacheValue) : Prop :=
  (forall e, Cache.entries c !! CACHE_KEY = Some e -> nodes_entry_ok e)
  /\ (forall e,
         Cache.stored (Cache.server c)
           !! (Cache.REDIS_KEY_PREFIX_NODES ++ CACHE_KEY)%string = Some e ->
         nodes_entry_ok e).

(** ** A program logic for the computations *)

(** From a world satisfying [P], the computation [m] ends with a result and
    a world satisfying [Q]. *)
Definition hoare {A} (P : World -> Prop) (m : M A)
    (Q : result A -> World -> Prop) : Prop :=
  forall w, P w -> Q (fst (m w)) (snd (m w)).

(** [m] returns normally with a value satisfying [Q]. *)
Definition returns {A} (Q : A -> World -> Prop) : result A -> World -> Prop :=
  fun r w => match r with Ok a => Q a w | Throw _ => False end.

(** A record of gossip data, used in the scenarios. *)
Definition gossip_pod (pubkey address : string) (seen : Z) : Pod.t :=
  {| Pod.address := Some address; Pod.is_public := Some true;
     Pod.last_seen_timestamp := seen;
     Pod.pubkey := Some pubkey; Pod.rpc_port := Some 6000%Z;
     Pod.storage_committed := Some 1000;
     Pod.storage_usage_percent := None;
     Pod.storage_used := Some 10;
     Pod.uptime := Some 3600; Pod.version := Some "0.8.0"%string |}.

Definition empty_cache : Cache.State CacheValue :=
  Cache.mkState false false (Cache.mkServer false ∅) ∅.

Definition failure {A} : result A := Throw "ECONNREFUSED".

(** Every gossip endpoint fails. *)
Definition all_fail : Prpc :=
  mkPrpc failure failure (fun _ => failure) (fun _ => failure).

(** The primary endpoint answers with the given pods. *)
Definition primary_answers (l : list Pod.t) : Prpc :=
  mkPrpc (Ok (mkResponse (Some l))) (Ok (mkResponse (Some l)))
    (fun _ => failure) (fun _ => failure).

(** Every call to the gossip network rejects: the primary endpoint and
    every seed. *)
Definition upstream_down (p : Prpc) : Prop :=
  is_ok (getPodsWithStats p) = false
  /\ is_ok (getPods p) = false
  /\ forall ip, is_ok (seed_getPods p ip) = false.

Definition nonempty_pubkey (n : PNode.t) : Prop := PNode.pubkey n <> ""%string.

(** The computation [m] keeps the invariant of the node cache, whatever it
    returns or throws. *)
Definition keeps_inv {A} (m : M A) : Prop :=
  hoare (fun w => cache_inv (cache w)) m (fun _ w => cache_inv (cache w)).

(** What [nodeCacheService.get<PNode[]>(key)] finds in a world. *)
Definition cachedNodes (key : string) (w : World) : option (list PNode.t) :=
  match Cache.get CacheValue_truthy Cache.REDIS_KEY_PREFIX_NODES (cache w) (now w) key with
  | Some v => as_nodes v
  | None => None
  end.

(** The scenario of two records that share the pubkey "x" at two addresses:
    a process with empty caches whose primary endpoint answers. *)
Definition two_addresses : list Pod.t :=
  [ gossip_pod "x" "10.0.0.1:9001" 1699999999;
    gossip_pod "x" "10.0.0.2:9001" 1699999999 ].

Definition two_addresses_world : World :=
  mkWorld empty_cache 1700000000000 (primary_answers two_addresses).

(** A process with empty caches while every gossip endpoint fails. *)
Definition all_fail_world : World := mkWorld empty_cache 1700000000000 all_fail.

(** What [analyticsCacheService.get<Pod[]>("pods_raw_analytics")] finds. *)
Definition cachedPods (w : World) : option (list Pod.t) :=
  match Cache.get CacheValue_truthy Cache.REDIS_KEY_PREFIX_ANALYTICS (cache w)
          (now w) "pods_raw_analytics" with
  | Some v => as_pods v
  | None => None
  end.

(** ** Predicates and scenarios used in the statements *)

(** The time values a [Date] can hold, in seconds. *)
Definition valid_timestamp (pod : Pod.t) : Prop :=
  (- 8640000000000 <= Pod.last_seen_timestamp pod <= 8640000000000)%Z.

(** A record whose committed storage is negative. *)
Definition negative_committed_pod : Pod.t :=
  {| Pod.address := None; Pod.is_public := None;
     Pod.last_seen_timestamp := 0;
     Pod.pubkey := Some "abc"%string; Pod.rpc_port := None;
     Pod.storage_committed := Some (-5);
     Pod.storage_usage_percent := Some 50;
     Pod.storage_used := Some 50;
     Pod.uptime := None; Pod.version := None |}.

(** The record of the scenario, last seen at [seen]. *)
Definition scenario_pod (seen : Z) : Pod.t :=
  {| Pod.address := None; Pod.is_public := None;
     Pod.last_seen_timestamp := seen;
     Pod.pubkey := Some "abc"%string; Pod.rpc_port := None;
     Pod.storage_committed := Some 1000000000000;
     Pod.storage_usage_percent := None;
     Pod.storage_used := Some 500000000000;
     Pod.uptime := Some 43200; Pod.version := None |}.

(** The remote tier is down: the module knows it ([redisAvailable] is
    false or there is no client), or it does not know yet and every
    command rejects. *)
Definition remote_down {V} (st : Cache.State V) : Prop :=
  Cache.redisAvailable st = false
  \/ Cache.redisClient st = false
  \/ Cache.reachable (Cache.server st) = false.

(** A cache whose server stopped answering while the module still holds it
    for available. *)
Definition unreachable_cache : Cache.State nat :=
  Cache.mkState true true (Cache.mkServer false ∅) ∅.

(** ** Further scenarios for the tiered cache *)

(** A healthy remote tier that holds [old] under the remote key of
    ["k"] in the node namespace, live until [expiry]. *)
Definition stale_cache (old : nat) (expiry : Z) : Cache.State nat :=
  Cache.mkState true true
    (Cache.mkServer true
       {[ (Cache.REDIS_KEY_PREFIX_NODES ++ "k")%string := Cache.mkEntry old expiry ]})
    ∅.

(** The key prefixes of the four cache services. *)
Definition service_prefixes : list string :=
  [ Cache.REDIS_KEY_PREFIX_GEO; Cache.REDIS_KEY_PREFIX_NODES;
    Cache.REDIS_KEY_PREFIX_STATS; Cache.REDIS_KEY_PREFIX_ANALYTICS ].

(** The state after the ["connect"] handler of the client ran: the
    connection is back and [redisAvailable] is set. *)
Definition reconnected {V} (st : Cache.State V) : Cache.State V :=
  Cache.mkState true true
    (Cache.mkServer true (Cache.stored (Cache.server st)))
    (Cache.entries st).

(** The remote tier is up: there is a client, the module holds it for
    available, and the server answers. *)
Definition remote_up {V} (st : Cache.State V) : Prop :=
  Cache.redisAvailable st = true
  /\ Cache.redisClient st = true
  /\ Cache.reachable (Cache.server st) = true.

(** Two states with the same contents in both tiers.  The connection (the
    client, [redisAvailable], whether the server answers) may differ: the
    handlers of the client's ["connect"] and ["error"] events change it at
    any time. *)
Definition same_contents {V} (a b : Cache.State V) : Prop :=
  Cache.entries a = Cache.entries b
  /\ Cache.stored (Cache.server a) = Cache.stored (Cache.server b).

(** A cache whose module flag says unavailable while the server still holds
    [old] under the remote key of ["k"] in the node namespace. *)
Definition flagged_down_cache (old : nat) (expiry : Z) : Cache.State nat :=
  Cache.mkState true false
    (Cache.mkServer true
       {[ (Cache.REDIS_KEY_PREFIX_NODES ++ "k")%string := Cache.mkEntry old expiry ]})
    ∅.

(** ** What discovery computes *)

Section DiscoverySpec.

Variable ONLINE_THRESHOLD_SECONDS : Z.

(** The node a record contributes, if any: it must normalize without
    throwing and carry a pubkey. *)
Definition usableNode (t : Z) (pod : Pod.t) : option PNode.t :=
  match normalizePNode ONLINE_THRESHOLD_SECONDS t pod with
  | Ok n => if truthy_str (PNode.pubkey n) then Some n else None
  | Throw _ => None
  end.

(** The nodes an answer contributes: none when the call rejected or the
    answer has no list of pods. *)
Definition usable (t : Z) (r : result Response) : list PNode.t :=
  match r with
  | Ok (mkResponse (Some l)) => omap (usableNode t) l
  | _ => []
  end.

(** The answer of the primary endpoint: [getPods()] is asked only when
    [getPodsWithStats()] rejects. *)
Definition primaryResponse (p : Prpc) : result Response :=
  match getPodsWithStats p with
  | Ok r => Ok r
  | Throw _ => getPods p
  end.

(** The first list that is not empty. *)
Fixpoint firstNonEmpty {A} (ls : list (list A)) : list A :=
  match ls with
  | [] => []
  | [] :: rest => firstNonEmpty rest
  | l :: _ => l
  end.

Definition seedAnswers (t : Z) (p : Prpc) : list (list PNode.t) :=
  List.map (fun ip => usable t (seed_getPods p ip)) (drop 1 SEED_IPS).

(** Discovery for the deduplicated accessor: the primary endpoint, then the
    seeds after the first, in order, until one contributes a node. *)
Definition discovered (t : Z) (p : Prpc) : list PNode.t :=
  firstNonEmpty (usable t (primaryResponse p) :: seedAnswers t p).

(** Discovery for the map accessor: the seeds are asked only when the
    primary endpoint gave no list at all. *)
Definition discoveredForMap (t : Z) (p : Prpc) : list PNode.t :=
  match primaryResponse p with
  | Ok (mkResponse (Some l)) => omap (usableNode t) l
  | _ => firstNonEmpty (seedAnswers t p)
  end.

End DiscoverySpec.

(** The primary endpoint answers with records that carry no pubkey while the
    first fallback seed knows a node. *)
Definition anonymous_pod : Pod.t :=
  {| Pod.address := Some "10.0.0.9:9001"%string; Pod.is_public := None;
     Pod.last_seen_timestamp := 1699999999;
     Pod.pubkey := None; Pod.rpc_port := None;
     Pod.storage_committed := None; Pod.storage_usage_percent := None;
     Pod.storage_used := None; Pod.uptime := None; Pod.version := None |}.

Definition seed_knows_world : World :=
  mkWorld empty_cache 1700000000000
    (mkPrpc (Ok (mkResponse (Some [anonymous_pod]))) failure
       (fun ip =>
          if String.eqb ip "161.97.97.41"
          then Ok (mkResponse (Some [gossip_pod "x" "10.0.0.1:9001" 1699999999]))
          else failure)
       (fun _ => failure)).

(** What [statsCacheService.get<NodeStats>("node_stats_" + pubkey)] finds. *)
Definition cachedStats (pubkey : string) (w : World) : option NodeStats.t :=
  match Cache.get CacheValue_truthy Cache.REDIS_KEY_PREFIX_STATS (cache w)
          (now w) (node_stats_key pubkey) with
  | Some v => as_stats v
  | None => None
  end.

(** A later moment of the same process: the caches as they are, another
    time and another state of the gossip network. *)
Definition later_world (w : World) (t : Z) (p : Prpc) : World :=
  mkWorld (cache w) t p.

(** The node "x" answers [getStats()] at its own address. *)
Definition sample_stats : NodeStats.t :=
  NodeStats.mk (Some 512) (Some 2048).

Definition stats_world : World :=
  mkWorld empty_cache 1700000000000
    (mkPrpc (Ok (mkResponse (Some two_addresses))) failure (fun _ => failure)
       (fun ip => if String.eqb ip "10.0.0.1" then Ok (Some sample_stats)
                  else failure)).

(** The online nodes of a list, as the job filters them. *)
Definition onlineNodes (nodes : list PNode.t) : list PNode.t :=
  List.filter (fun node => PNodeStatus_eqb (PNode.status node) online) nodes.

(** What enrichment does to one node in a world. *)
Definition enrichedIn (w : World) (node enriched : PNode.t) : Prop :=
  match cachedStats (PNode.pubkey node) w with
  | Some stats =>
      match NodeStats.ram_used stats, NodeStats.ram_total stats with
      | Some used, Some total => enriched = with_ram node used total
      | _, _ => enriched = node
      end
  | None => enriched = node
  end.


(** The node "x" as a batch of the job sees it. *)
Definition sample_node : PNode.t :=
  {| PNode.pubkey := "x"; PNode.status := online; PNode.version := "0.8.0";
     PNode.storageUsed := 10; PNode.storageTotal := 1000; PNode.uptime := 5;
     PNode.ip := "10.0.0.1"; PNode.lastSeen := 1699999999000;
     PNode.address := Some "10.0.0.1:9001"%string; PNode.isPublic := Some true;
     PNode.rpcPort := Some 6000%Z; PNode.storageCommitted := Some 1000;
     PNode.storageUsagePercent := None;
     PNode.lastSeenTimestamp := Some 1699999999%Z;
     PNode.ramUsed := None; PNode.ramTotal := None |}.

(** ** The analytics service: the other views *)

Module StorageAnalytics.
Record t : Type := mk {
  pubkey : string;
  storageUsed : Q;
  storageTotal : Q;
  utilizationPercent : Q
}.
End StorageAnalytics.

Module VersionDistribution.
Record t : Type := mk { version : string; count : nat }.
End VersionDistribution.

Module ExtendedSummary.
Record t : Type := mk {
  totalPNodes : nat;
  onlinePercentage : Q;
  averageUptime24h : Q;
  averageHealthScore : Q;
  storagePressurePercent : Q;
  networkHealth : NetworkHealth
}.
End ExtendedSummary.

Module TopNode.
Record t : Type := mk { pubkey : string; healthScore : Q; uptime24h : Q }.
End TopNode.

Module StoragePressure.
Record t : Type := mk {
  highPressureNodes : nat;
  totalNodes : nat;
  percent : Q
}.
End StoragePressure.

(** [Array.prototype.sort(compareFn)]. The sort is stable, so for a
    comparator that orders the elements consistently (as the differences of
    a numeric key used in the services do) the result is the one stable
    sorted arrangement, whatever algorithm the engine runs; insertion from
    the right computes it: an element moves behind exactly the elements
    that compare before it. *)
Section ArraySort.

Context {A : Type}.
Variable compareFn : A -> A -> Q.

Fixpoint sort_insert (x : A) (sorted : list A) : list A :=
  match sorted with
  | [] => [x]
  | y :: rest =>
      if Js.gtb (compareFn x y) 0 then y :: sort_insert x rest
      else x :: y :: rest
  end.

Definition Array_sort (l : list A) : list A := fold_right sort_insert [] l.

End ArraySort.

Section AnalyticsViews.

Variable ONLINE_THRESHOLD_SECONDS : Z.

Definition getStorageAnalytics : M (list StorageAnalytics.t) :=
  nodes <- getAllPNodes ONLINE_THRESHOLD_SECONDS ;;
  ret (List.map
         (fun node =>
            {| StorageAnalytics.pubkey := PNode.pubkey node;
               StorageAnalytics.storageUsed := PNode.storageUsed node;
               StorageAnalytics.storageTotal := PNode.storageTotal node;
               StorageAnalytics.utilizationPercent :=
                 calculateUtilization (PNode.storageUsed node)
                   (PNode.storageTotal node) |})
         nodes).

(** The body of [getVersionDistribution] after its [await]; the loop
    filling [versionMap] is the one of the summary. *)
Definition versionDistributionOf (nodes : list PNode.t)
  : list VersionDistribution.t :=
  Array_sort
    (fun a b => count (VersionDistribution.count b)
                - count (VersionDistribution.count a))
    (List.map (fun '(version, c) => VersionDistribution.mk version c)
       (versionCounts nodes)).

Definition getVersionDistribution : M (list VersionDistribution.t) :=
  nodes <- getAllPNodes ONLINE_THRESHOLD_SECONDS ;;
  ret (versionDistributionOf nodes).

(** The body of [getExtendedSummary] after its two [await]s. *)
Definition extendedSummaryOf (metrics : list NodeMetrics.t)
    (nodes : list PNode.t) : ExtendedSummary.t :=
  let totalPNodes := length metrics in
  if (totalPNodes =? 0)%nat
  then {| ExtendedSummary.totalPNodes := 0;
          ExtendedSummary.onlinePercentage := 0;
          ExtendedSummary.averageUptime24h := 0;
          ExtendedSummary.averageHealthScore := 0;
          ExtendedSummary.storagePressurePercent := 0;
          ExtendedSummary.networkHealth := unstable |}
  else
    let onlineNodes :=
      List.filter (fun n => PNodeStatus_eqb (PNode.status n) online) nodes in
    let onlinePercentage :=
      Math_round ((count (length onlineNodes) / count totalPNodes) * 100 * 100)
      / 100 in
    let averageUptime24h :=
      if (0 <? length metrics)%nat
      then Math_round
             ((fold_left (fun sum m => sum + NodeMetrics.uptime24h m) metrics 0
               / count (length metrics)) * 100) / 100
      else 0 in
    let averageHealthScore :=
      if (0 <? length metrics)%nat
      then Math_round
             ((fold_left (fun sum m => sum + NodeMetrics.healthScore m) metrics 0
               / count (length metrics)) * 100) / 100
      else 0 in
    let highPressureNodes :=
      length (List.filter
                (fun m => Js.gtb (NodeMetrics.storageUtilization m) 80)
                metrics) in
    let storagePressurePercent :=
      Math_round ((count highPressureNodes / count totalPNodes) * 100 * 100)
      / 100 in
    let networkHealth := calculateNetworkHealth onlinePercentage in
    {| ExtendedSummary.totalPNodes := totalPNodes;
       ExtendedSummary.onlinePercentage := onlinePercentage;
       ExtendedSummary.averageUptime24h := averageUptime24h;
       ExtendedSummary.averageHealthScore := averageHealthScore;
       ExtendedSummary.storagePressurePercent := storagePressurePercent;
       ExtendedSummary.networkHealth := networkHealth |}.

Definition getExtendedSummary : M ExtendedSummary.t :=
  metrics <- getCachedNodeMetrics ONLINE_THRESHOLD_SECONDS ;;
  nodes <- getAllPNodes ONLINE_THRESHOLD_SECONDS ;;
  ret (extendedSummaryOf metrics nodes).

Definition getNodeMetrics : M (list NodeMetrics.t) :=
  getCachedNodeMetrics ONLINE_THRESHOLD_SECONDS.

(** The body of [getTopNodes] after its [await]. The source sorts the array
    it was handed in place; the value returned is the same either way, and
    only the value is modelled here. *)
Definition topNodesOf (metrics : list NodeMetrics.t) : list TopNode.t :=
  List.map
    (fun m =>
       {| TopNode.pubkey := NodeMetrics.pubkey m;
          TopNode.healthScore := NodeMetrics.healthScore m;
          TopNode.uptime24h := NodeMetrics.uptime24h m |})
    (take 10
       (Array_sort
          (fun a b => NodeMetrics.healthScore b - NodeMetrics.healthScore a)
          metrics)).

Definition getTopNodes : M (list TopNode.t) :=
  metrics <- getCachedNodeMetrics ONLINE_THRESHOLD_SECONDS ;;
  ret (topNodesOf metrics).

(** The body of [getStoragePressure] after its [await]. *)
Definition storagePressureOf (metrics : list NodeMetrics.t)
  : StoragePressure.t :=
  let totalNodes := length metrics in
  let highPressureNodes :=
    length (List.filter
              (fun m => Js.gtb (NodeMetrics.storageUtilization m) 80)
              metrics) in
  let percent :=
    if (0 <? totalNodes)%nat
    then Math_round ((count highPressureNodes / count totalNodes) * 100 * 100)
         / 100
    else 0 in
  {| StoragePressure.highPressureNodes := highPressureNodes;
     StoragePressure.totalNodes := totalNodes;
     StoragePressure.percent := percent |}.

Definition getStoragePressure : M StoragePressure.t :=
  metrics <- getCachedNodeMetrics ONLINE_THRESHOLD_SECONDS ;;
  ret (storagePressureOf metrics).

End AnalyticsViews.

(** The version a node is counted under: [node.version || "unknown"]. *)
Definition versionOf (node : PNode.t) : string :=
  str_or (Some (PNode.version node)) "unknown".

(** How many nodes of a list are counted under a version. *)
Definition occurrences (version : string) (nodes : list PNode.t) : nat :=
  length (List.filter (fun node => String.eqb (versionOf node) version) nodes).

Definition sumCounts (l : list VersionDistribution.t) : nat :=
  fold_right (fun d total => (VersionDistribution.count d + total)%nat) 0%nat l.



(** The map [m] holds, for each version, the number [f] of nodes counted
    under it, and holds no entry for a version without nodes. *)
Definition counted (m : JsMap.t) (f : string -> nat) : Prop :=
  NoDup (List.map fst m)
  /\ forall v, JsMap.get m v = if (f v =? 0)%nat then None else Some (f v).

(** One iteration of the loop that fills [versionMap]. *)
Definition countVersion (versionMap : JsMap.t) (node : PNode.t) : JsMap.t :=
  let version := str_or (Some (PNode.version node)) "unknown" in
  JsMap.set versionMap version
    (match JsMap.get versionMap version with
     | Some c => if (c =? 0)%nat then 0%nat else c
     | None => 0%nat
     end + 1)%nat.

(** One iteration of the loop that looks for the highest count. *)
Definition pickHigher : string * nat -> string * nat -> string * nat :=
  fun '(consensusVersion, maxCount) '(version, c) =>
    if (maxCount <? c)%nat then (version, c)
    else (consensusVersion, maxCount).

(** What [analyticsCacheService.get<NodeMetrics[]>("computed_node_metrics")]
    finds. *)
Definition cachedMetrics (w : World) : option (list NodeMetrics.t) :=
  match Cache.get CacheValue_truthy Cache.REDIS_KEY_PREFIX_ANALYTICS (cache w)
          (now w) NODE_METRICS_CACHE_KEY with
  | Some v => as_metrics v
  | None => None
  end.

(** The counting loop over any list: [m.set(k, (m.get(k) || 0) + 1)] with
    [k] the key of the element. *)
Definition countBy {A} (keyOf : A -> string) (m : JsMap.t) (a : A) : JsMap.t :=
  JsMap.set m (keyOf a)
    (match JsMap.get m (keyOf a) with
     | Some c => if (c =? 0)%nat then 0%nat else c
     | None => 0%nat
     end + 1)%nat.

(** How many elements of a list have a key. *)
Definition occurrencesBy {A} (keyOf : A -> string) (k : string) (l : list A)
  : nat :=
  length (List.filter (fun a => String.eqb (keyOf a) k) l).

(** ** server/services/map.service.ts *)

Module GeoLocation.
Record t : Type := mk {
  lat : Q;
  lng : Q;
  country : string;
  countryCode : string;
  region : string;
  city : option string
}.
End GeoLocation.

Module MapNode.
Record t : Type := mk {
  pubkey : string;
  lat : Q;
  lng : Q;
  country : string;
  countryCode : string;
  region : string;
  status : PNodeStatus;
  healthScore : Q;
  uptime24h : Q;
  storageUtilization : Q;
  version : string;
  lastSeen : Z
}.
End MapNode.

Module CountryCount.
Record t : Type := mk { country : string; count : nat }.
End CountryCount.

Module RegionCount.
Record t : Type := mk { region : string; count : nat }.
End RegionCount.

Module GeoSummary.
Record t : Type := mk {
  countries : list CountryCount.t;
  regions : list RegionCount.t
}.
End GeoSummary.

Module CountryStats.
Record t : Type := mk {
  countryCode : string;
  country : string;
  nodeCount : nat;
  onlineCount : nat;
  offlineCount : nat;
  avgHealthScore : Q;
  avgUptime24h : Q;
  avgStorageUtilization : Q
}.
End CountryStats.

Module CountryChoropleth.
Record t : Type := mk {
  countries : list CountryStats.t;
  totalNodes : nat;
  totalCountries : nat
}.
End CountryChoropleth.

(** The value type of [countryDataMap]. *)
Module CountryData.
Record t : Type := mk {
  countryCode : string;
  country : string;
  nodes : list MapNode.t
}.
End CountryData.

(** [new Map(entries).get(k)]: the constructor sets the entries in order,
    so a later entry replaces an earlier one with the same key. *)
Definition Map_get {V} (entries : list (string * V)) (k : string) : option V :=
  fold_left
    (fun found e => if String.eqb (fst e) k then Some (snd e) else found)
    entries None.

(** [countryDataMap.get(k)] on the entries in insertion order. *)
Definition countryData_get (m : list (string * CountryData.t)) (k : string)
  : option CountryData.t :=
  option_map snd (List.find (fun e => String.eqb (fst e) k) m).

(** [existing.nodes.push(node)] for the entry under [k]: the object held by
    the map is changed in place. *)
Fixpoint countryData_push (m : list (string * CountryData.t)) (k : string)
    (node : MapNode.t) : list (string * CountryData.t) :=
  match m with
  | [] => []
  | (k', d) :: rest =>
      if String.eqb k' k
      then (k', CountryData.mk (CountryData.countryCode d)
                  (CountryData.country d)
                  (CountryData.nodes d ++ [node])) :: rest
      else (k', d) :: countryData_push rest k node
  end.

(** One iteration of the loop that aggregates by country code. *)
Definition groupByCountry (m : list (string * CountryData.t))
    (node : MapNode.t) : list (string * CountryData.t) :=
  match countryData_get m (MapNode.countryCode node) with
  | Some _ => countryData_push m (MapNode.countryCode node) node
  | None =>
      (m ++ [(MapNode.countryCode node,
              CountryData.mk (MapNode.countryCode node) (MapNode.country node)
                [node])])%list
  end.

(** The statistics of one country. *)
Definition countryStatsOf (d : CountryData.t) : CountryStats.t :=
  let nodes := CountryData.nodes d in
  let onlineNodes :=
    List.filter (fun n => PNodeStatus_eqb (MapNode.status n) online) nodes in
  let avgHealthScore :=
    if (0 <? length nodes)%nat
    then fold_left (fun sum n => sum + MapNode.healthScore n) nodes 0
         / count (length nodes)
    else 0 in
  let avgUptime24h :=
    if (0 <? length nodes)%nat
    then fold_left (fun sum n => sum + MapNode.uptime24h n) nodes 0
         / count (length nodes)
    else 0 in
  let avgStorageUtilization :=
    if (0 <? length nodes)%nat
    then fold_left (fun sum n => sum + MapNode.storageUtilization n) nodes 0
         / count (length nodes)
    else 0 in
  {| CountryStats.countryCode := CountryData.countryCode d;
     CountryStats.country := CountryData.country d;
     CountryStats.nodeCount := length nodes;
     CountryStats.onlineCount := length onlineNodes;
     CountryStats.offlineCount := (length nodes - length onlineNodes)%nat;
     CountryStats.avgHealthScore := Math_round (avgHealthScore * 10) / 10;
     CountryStats.avgUptime24h := Math_round (avgUptime24h * 10) / 10;
     CountryStats.avgStorageUtilization :=
       Math_round (avgStorageUtilization * 10) / 10 |}.

(** The body of [getCountryChoropleth] after its [await]. *)
Definition choroplethOf (mapNodes : list MapNode.t) : CountryChoropleth.t :=
  let countryDataMap := fold_left groupByCountry mapNodes [] in
  let countries :=
    Array_sort
      (fun a b => count (CountryStats.nodeCount b)
                  - count (CountryStats.nodeCount a))
      (List.map (fun e => countryStatsOf (snd e)) countryDataMap) in
  {| CountryChoropleth.countries := countries;
     CountryChoropleth.totalNodes := length mapNodes;
     CountryChoropleth.totalCountries := length countries |}.

(** The body of [getGeoSummary] after its [await]. *)
Definition geoSummaryOf (mapNodes : list MapNode.t) : GeoSummary.t :=
  let countryMap := fold_left (countBy MapNode.country) mapNodes [] in
  let regionMap := fold_left (countBy MapNode.region) mapNodes [] in
  let countries :=
    Array_sort
      (fun a b => count (CountryCount.count b) - count (CountryCount.count a))
      (List.map (fun '(country, c) => CountryCount.mk country c) countryMap) in
  let regions :=
    Array_sort
      (fun a b => count (RegionCount.count b) - count (RegionCount.count a))
      (List.map (fun '(region, c) => RegionCount.mk region c) regionMap) in
  {| GeoSummary.countries := countries; GeoSummary.regions := regions |}.

(** The address a node is located by: [node.address || node.ip]. *)
Definition addressOf (node : PNode.t) : string :=
  str_or (PNode.address node) (PNode.ip node).

(** One iteration of the loop of [getMapNodes]: [None] is [continue]. *)
Definition mapNodeOf (geoMap : string -> option GeoLocation.t)
    (metrics : list NodeMetrics.t) (node : PNode.t) : option MapNode.t :=
  let address := addressOf node in
  let ip := before_colon address in
  if negb (truthy_str ip) then None
  else
    match geoMap ip with
    | None => None
    | Some geo =>
        let nodeMetrics :=
          Map_get (List.map (fun m => (NodeMetrics.pubkey m, m)) metrics)
            (PNode.pubkey node) in
        Some {| MapNode.pubkey := PNode.pubkey node;
                MapNode.lat := GeoLocation.lat geo;
                MapNode.lng := GeoLocation.lng geo;
                MapNode.country := GeoLocation.country geo;
                MapNode.countryCode := GeoLocation.countryCode geo;
                MapNode.region := GeoLocation.region geo;
                MapNode.status := PNode.status node;
                MapNode.healthScore :=
                  match nodeMetrics with
                  | Some m => NodeMetrics.healthScore m
                  | None => 0
                  end;
                MapNode.uptime24h :=
                  match nodeMetrics with
                  | Some m => NodeMetrics.uptime24h m
                  | None => 0
                  end;
                MapNode.storageUtilization :=
                  match nodeMetrics with
                  | Some m => NodeMetrics.storageUtilization m
                  | None => 0
                  end;
                MapNode.version := PNode.version node;
                MapNode.lastSeen := PNode.lastSeen node |}
    end.

Section MapService.

Variable ONLINE_THRESHOLD_SECONDS : Z.

(** The geo service ([batchResolveGeo], which asks ip-api.com and keeps its
    answers in the geo cache) is a parameter: any computation, throwing or
    not, that yields the [Map] from IP to location as its lookup. *)
Variable batchResolveGeo : list string -> M (string -> option GeoLocation.t).

(** [Promise.all([getAllPNodes(), getCachedNodeMetrics()])] is run in the
    order of the array: the two computations read the same clock, network
    and stats cache, and write the same values under the same keys, so the
    interleaving of their awaits does not change what they return. *)
Definition getMapNodes : M (list MapNode.t) :=
  try_catch
    (both <- Promise_all2 (getAllPNodes ONLINE_THRESHOLD_SECONDS)
               (getCachedNodeMetrics ONLINE_THRESHOLD_SECONDS) ;;
     let nodes := fst both in
     let metrics := snd both in
     let addresses := List.map addressOf nodes in
     geoMap <- batchResolveGeo addresses ;;
     ret (omap (mapNodeOf geoMap metrics) nodes))
    (fun error => throw error).

Definition getGeoSummary : M GeoSummary.t :=
  mapNodes <- getMapNodes ;;
  ret (geoSummaryOf mapNodes).

Definition getCountryChoropleth : M CountryChoropleth.t :=
  mapNodes <- getMapNodes ;;
  ret (choroplethOf mapNodes).

End MapService.

(** The entry [d] under the key [k] groups the map nodes of country code
    [k] among [nodes], in their order, under the name of the first. *)
Definition groups (nodes : list MapNode.t) (k : string) (d : CountryData.t)
  : Prop :=
  CountryData.countryCode d = k
  /\ CountryData.nodes d
     = List.filter (fun n => String.eqb (MapNode.countryCode n) k) nodes
  /\ exists first rest,
       CountryData.nodes d = first :: rest
       /\ CountryData.country d = MapNode.country first.

(** The statistics [c] are those of the map nodes of its country code
    among [nodes]. *)
Definition statsOver (nodes : list MapNode.t) (c : CountryStats.t) : Prop :=
  let own :=
    List.filter
      (fun n => String.eqb (MapNode.countryCode n) (CountryStats.countryCode c))
      nodes in
  (0 < CountryStats.nodeCount c)%nat
  /\ CountryStats.nodeCount c = length own
  /\ CountryStats.onlineCount c
     = length (List.filter
                 (fun n => PNodeStatus_eqb (MapNode.status n) online) own)
  /\ (CountryStats.onlineCount c + CountryStats.offlineCount c)%nat
     = CountryStats.nodeCount c
  /\ (exists first, head own = Some first
                    /\ CountryStats.country c = MapNode.country first).

(** The entries of [countryDataMap] after the nodes [nodes] were
    processed: one entry per country code that occurs, each grouping the
    nodes of its code. *)
Definition grouped (m : list (string * CountryData.t))
    (nodes : list MapNode.t) : Prop :=
  NoDup (List.map fst m)
  /\ (forall k d, In (k, d) m -> groups nodes k d)
  /\ (forall n, In n nodes -> In (MapNode.countryCode n) (List.map fst m)).

(** The number of nodes held by the entries. *)
Definition groupedSize (m : list (string * CountryData.t)) : nat :=
  list_sum (List.map (fun e => length (CountryData.nodes (snd e))) m).

(** The map node [mn] shows the node [node] at the location [geo]. *)
Definition shows (mn : MapNode.t) (node : PNode.t) (geo : GeoLocation.t)
  : Prop :=
  MapNode.pubkey mn = PNode.pubkey node
  /\ MapNode.status mn = PNode.status node
  /\ MapNode.version mn = PNode.version node
  /\ MapNode.lastSeen mn = PNode.lastSeen node
  /\ MapNode.lat mn = GeoLocation.lat geo
  /\ MapNode.lng mn = GeoLocation.lng geo
  /\ MapNode.country mn = GeoLocation.country geo
  /\ MapNode.countryCode mn = GeoLocation.countryCode geo
  /\ MapNode.region mn = GeoLocation.region geo.

(** The scores of the map node [mn] are those of the metric [m]. *)
Definition scoredBy (mn : MapNode.t) (m : NodeMetrics.t) : Prop :=
  MapNode.healthScore mn = NodeMetrics.healthScore m
  /\ MapNode.uptime24h mn = NodeMetrics.uptime24h m
  /\ MapNode.storageUtilization mn = NodeMetrics.storageUtilization m.

(** A geo service that knows one address. *)
Definition paris : GeoLocation.t :=
  {| GeoLocation.lat := 48 # 1; GeoLocation.lng := 2 # 1;
     GeoLocation.country := "France"; GeoLocation.countryCode := "FR";
     GeoLocation.region := "Ile-de-France"; GeoLocation.city := Some "Paris"%string |}.

Definition knows_one_address (addresses : list string)
  : M (string -> option GeoLocation.t) :=
  ret (fun ip => if String.eqb ip "10.0.0.1" then Some paris else None).

(** ** app/api: the route handlers *)

Module Http.

(** What a handler hands to [NextResponse.json]: the data, or the object
    [{ error, message }]. *)
Inductive Body (A : Type) : Type :=
| Json (data : A)
| Failure (error message : string).
Arguments Json {A} data.
Arguments Failure {A} error message.

Record Response (A : Type) : Type := mk { status : Z; body : Body A }.
Arguments mk {A} status body.
Arguments status {A} r.
Arguments body {A} r.

End Http.

(** [NextResponse.json(data)]: the status defaults to 200. *)
Definition NextResponse_json {A} (data : A) : Http.Response A :=
  Http.mk 200 (Http.Json data).

(** [NextResponse.json({ error, message }, { status })]. *)
Definition NextResponse_error {A} (error message : string) (status : Z)
  : Http.Response A :=
  Http.mk status (Http.Failure error message).

(** The handlers of the routes without a parameter are written alike:
    [try { return json(await service()) } catch { return json(..., 500) }]. *)
Definition GET_of {A} (service : M A) (message : string)
  : M (Http.Response A) :=
  try_catch
    (data <- service ;; ret (NextResponse_json data))
    (fun _ => ret (NextResponse_error "Internal server error" message 500)).

Section Routes.

Variable ONLINE_THRESHOLD_SECONDS : Z.
Variable batchResolveGeo : list string -> M (string -> option GeoLocation.t).

(** app/api/pnodes *)
Definition GET_pnodes : M (Http.Response (list PNode.t)) :=
  GET_of (getAllPNodes ONLINE_THRESHOLD_SECONDS) "Failed to fetch pNodes".

(** app/api/pnodes/[pubkey] *)
Definition GET_pnode (pubkey : string) : M (Http.Response PNode.t) :=
  try_catch
    (node <- getPNodeByPubkey ONLINE_THRESHOLD_SECONDS pubkey ;;
     match node with
     | None =>
         ret (NextResponse_error "Not found"
                ("pNode with pubkey " ++ pubkey ++ " not found") 404)
     | Some node => ret (NextResponse_json node)
     end)
    (fun _ =>
       ret (NextResponse_error "Internal server error" "Failed to fetch pNode"
              500)).

(** app/api/pnodes/[pubkey]/stats *)
Definition GET_pnode_stats (pubkey : string) : M (Http.Response NodeStats.t) :=
  try_catch
    (stats <- getNodeStatsByPubkey ONLINE_THRESHOLD_SECONDS pubkey ;;
     match stats with
     | None =>
         ret (NextResponse_error "Not found"
                ("Stats for pNode " ++ pubkey ++ " not available") 404)
     | Some stats => ret (NextResponse_json stats)
     end)
    (fun _ =>
       ret (NextResponse_error "Internal server error"
              "Failed to fetch node stats" 500)).

(** app/api/pnodes/map: an empty array instead of a 500. *)
Definition GET_pnodes_map : M (Http.Response (list MapNode.t)) :=
  try_catch
    (mapNodes <- getMapNodes ONLINE_THRESHOLD_SECONDS batchResolveGeo ;;
     ret (NextResponse_json mapNodes))
    (fun _ => ret (NextResponse_json [])).

(** app/api/analytics/... *)
Definition GET_summary : M (Http.Response AnalyticsSummary.t) :=
  GET_of (getAnalyticsSummary ONLINE_THRESHOLD_SECONDS)
    "Failed to fetch analytics summary".

Definition GET_storage : M (Http.Response (list StorageAnalytics.t)) :=
  GET_of (getStorageAnalytics ONLINE_THRESHOLD_SECONDS)
    "Failed to fetch storage analytics".

Definition GET_versions : M (Http.Response (list VersionDistribution.t)) :=
  GET_of (getVersionDistribution ONLINE_THRESHOLD_SECONDS)
    "Failed to fetch version distribution".

Definition GET_extended_summary : M (Http.Response ExtendedSummary.t) :=
  GET_of (getExtendedSummary ONLINE_THRESHOLD_SECONDS)
    "Failed to fetch extended summary".

Definition GET_node_metrics : M (Http.Response (list NodeMetrics.t)) :=
  GET_of (getNodeMetrics ONLINE_THRESHOLD_SECONDS)
    "Failed to fetch node metrics".

Definition GET_top_nodes : M (Http.Response (list TopNode.t)) :=
  GET_of (getTopNodes ONLINE_THRESHOLD_SECONDS) "Failed to fetch top nodes".

Definition GET_storage_pressure : M (Http.Response StoragePressure.t) :=
  GET_of (getStoragePressure ONLINE_THRESHOLD_SECONDS)
    "Failed to fetch storage pressure".

Definition GET_geo_summary : M (Http.Response GeoSummary.t) :=
  GET_of (getGeoSummary ONLINE_THRESHOLD_SECONDS batchResolveGeo)
    "Failed to fetch geo summary".

Definition GET_country_choropleth : M (Http.Response CountryChoropleth.t) :=
  GET_of (getCountryChoropleth ONLINE_THRESHOLD_SECONDS batchResolveGeo)
    "Failed to fetch country choropleth data".

End Routes.

(** The status a handler answers with in a world. *)
Definition statusOf {A} (handler : M (Http.Response A)) (w : World) : option Z :=
  match fst (handler w) with
  | Ok r => Some (Http.status r)
  | Throw _ => None
  end.

(** Nothing can be had from the gossip network for the raw pods: nothing
    is cached and both calls of the primary endpoint reject. *)
Definition no_raw_pods (w : World) : Prop :=
  cachedPods w = None /\ is_ok (primaryResponse (prpc w)) = false.

(** ** Numbers as binary64 values

    Where a result depends on how the arithmetic rounds, the functions are
    read over the values of an IEEE 754 double: NaN, the two infinities and
    the finite values, each finite value being the rational it denotes.
    Every operation computes the exact result and rounds it to the nearest
    double, ties to the even significand; below 2^-1022 the values are
    spaced 2^-1074 apart, and a result that rounds to 2^1024 or beyond is an
    infinity.  The sign of a zero is not kept: no function read here
    divides by a value that can be zero without testing it first, and JSON
    prints both zeros as [0]. *)

Module Double.

Inductive number : Type :=
| NaN
| Inf (negative : bool)
| Fin (q : Q).

(** [floor(log2 a)] for a positive [a]. *)
Definition ilog2 (a : Q) : Z :=
  let l := (Z.log2 (Qnum a) - Z.log2 (Zpos (Qden a)))%Z in
  if Qle_bool (2 ^ l) a then l else (l - 1)%Z.

(** The exponent of the unit in the last place of the doubles around a
    positive [a]: 53 significant bits, subnormals from 2^-1074. *)
Definition ulp_exp (a : Q) : Z := Z.max (ilog2 a - 52) (-1074).

(** The nearest integer, ties to the even one. *)
Definition round_half_even (x : Q) : Z :=
  let f := Qfloor x in
  match Qcompare (x - inject_Z f) (1 # 2) with
  | Lt => f
  | Gt => (f + 1)%Z
  | Eq => if Z.even f then f else (f + 1)%Z
  end.

(** The multiple of the unit in the last place nearest to a positive [a]. *)
Definition nearest (a : Q) : Q :=
  let e := ulp_exp a in
  inject_Z (round_half_even (a / 2 ^ e)) * 2 ^ e.

(** The double nearest to a rational. *)
Definition round (q : Q) : number :=
  match Qcompare q 0 with
  | Eq => Fin 0
  | Gt => let r := nearest q in
          if Qle_bool (2 ^ 1024) r then Inf false else Fin (Qred r)
  | Lt => let r := nearest (- q) in
          if Qle_bool (2 ^ 1024) r then Inf true else Fin (Qred (- r))
  end.

Definition is_zero (q : Q) : bool := Qeq_bool q 0.
Definition is_neg (q : Q) : bool := negb (Qle_bool 0 q).

(** [a + b], [-a], [a - b], [a * b], [a / b]. *)
Definition add (a b : number) : number :=
  match a, b with
  | NaN, _ | _, NaN => NaN
  | Inf s, Inf s' => if Bool.eqb s s' then Inf s else NaN
  | Inf s, Fin _ | Fin _, Inf s => Inf s
  | Fin p, Fin q => round (p + q)
  end.

Definition opp (a : number) : number :=
  match a with
  | NaN => NaN
  | Inf s => Inf (negb s)
  | Fin q => Fin (- q)
  end.

Definition sub (a b : number) : number := add a (opp b).

Definition mul (a b : number) : number :=
  match a, b with
  | NaN, _ | _, NaN => NaN
  | Inf s, Inf s' => Inf (xorb s s')
  | Inf s, Fin q | Fin q, Inf s =>
      if is_zero q then NaN else Inf (xorb s (is_neg q))
  | Fin p, Fin q => round (p * q)
  end.

Definition div (a b : number) : number :=
  match a, b with
  | NaN, _ | _, NaN => NaN
  | Inf _, Inf _ => NaN
  | Inf s, Fin q => Inf (xorb s (is_neg q))
  | Fin _, Inf _ => Fin 0
  | Fin p, Fin q =>
      if is_zero q then (if is_zero p then NaN else Inf (is_neg p))
      else round (p / q)
  end.

(** [a < b], [a <= b], [a > b], [a >= b]: false as soon as one side is
    NaN. *)
Definition ltb (a b : number) : bool :=
  match a, b with
  | NaN, _ | _, NaN => false
  | Inf s, Inf s' => s && negb s'
  | Inf s, Fin _ => s
  | Fin _, Inf s => negb s
  | Fin p, Fin q => negb (Qle_bool q p)
  end.

Definition leb (a b : number) : bool :=
  match a, b with
  | NaN, _ | _, NaN => false
  | Inf s, Inf s' => s || negb s'
  | Inf s, Fin _ => s
  | Fin _, Inf s => negb s
  | Fin p, Fin q => Qle_bool p q
  end.

(** [a === b]. *)
Definition eqb (a b : number) : bool :=
  match a, b with
  | Inf s, Inf s' => Bool.eqb s s'
  | Fin p, Fin q => Qeq_bool p q
  | _, _ => false
  end.

Definition gtb (a b : number) : bool := ltb b a.
Definition geb (a b : number) : bool := leb b a.

(** [Math.max(a, b)] and [Math.min(a, b)]: NaN as soon as one argument
    is. *)
Definition Math_max (a b : number) : number :=
  match a, b with
  | NaN, _ | _, NaN => NaN
  | _, _ => if leb b a then a else b
  end.

Definition Math_min (a b : number) : number :=
  match a, b with
  | NaN, _ | _, NaN => NaN
  | _, _ => if leb a b then a else b
  end.

(** [Math.round]: the nearest integer, ties towards +infinity; the result
    is a double whenever the argument is one. *)
Definition Math_round (a : number) : number :=
  match a with
  | Fin q => Fin (inject_Z (Qfloor (q + (1 # 2))))
  | _ => a
  end.

(** A decimal literal of the source, and a decimal read by [JSON.parse]. *)
Definition lit (q : Q) : number := round q.

(** A finite value in lowest terms, as every result of an operation is. *)
Definition canonical (a : number) : Prop :=
  match a with Fin q => Qred q = q | _ => True end.

(** A number between 0 and 100. *)
Definition is_percentage (a : number) : Prop :=
  match a with Fin q => 0 <= q <= 100 | _ => False end.

(** The length of an array (below 2^32) as a number. *)
Definition of_nat (n : nat) : number := Fin (inject_Z (Z.of_nat n)).

(** Truthiness of an optional number: [undefined], 0 and NaN are falsy. *)
Definition truthy_num (o : option number) : bool :=
  match o with
  | Some (Fin q) => negb (is_zero q)
  | Some (Inf _) => true
  | Some NaN | None => false
  end.

(** [o || 0] for an optional number. *)
Definition or_zero (o : option number) : number :=
  match o with
  | Some v => if truthy_num o then v else Fin 0
  | None => Fin 0
  end.

(** The numeric fields of the raw record of the gossip client. *)
Module Pod.
Record t : Type := mk {
  pubkey : option string;
  storage_committed : option number;
  storage_usage_percent : option number;
  storage_used : option number;
  uptime : option number
}.
End Pod.

Module NodeMetrics.
Record t : Type := mk {
  pubkey : string;
  healthScore : number;
  uptime24h : number;
  storageUtilization : number;
  tier : NodeTier
}.
End NodeMetrics.

(** server/utils/format.ts: the value of [storageTotal] after lines
    10-17. *)
Definition storageTotal (pod : Pod.t) : number :=
  if truthy_num (Pod.storage_committed pod) then
    or_zero (Pod.storage_committed pod)
  else if truthy_num (Pod.storage_used pod)
          && truthy_num (Pod.storage_usage_percent pod) then
    let used := or_zero (Pod.storage_used pod) in
    let pct := or_zero (Pod.storage_usage_percent pod) in
    if gtb pct (Fin 0) && leb pct (Fin 100)
    then Math_round (div (mul used (Fin 100)) pct)
    else Fin 0
  else Fin 0.

Definition calculateUtilization (storageUsed storageTotal : number) : number :=
  if eqb storageTotal (Fin 0) then Fin 0
  else div (Math_round
              (mul (mul (div storageUsed storageTotal) (Fin 100)) (Fin 100)))
         (Fin 100).

Definition calculateUptime24h (uptimeSeconds : number) : number :=
  if ltb uptimeSeconds (Fin 0) then Fin 0
  else
    let secondsIn24h := Fin 86400 in
    let percentage := mul (div uptimeSeconds secondsIn24h) (Fin 100) in
    Math_min (Fin 100) (Math_max (Fin 0) percentage).

Definition calculateHealthScore
    (uptime24h storageUtilization : number) (isOnline : bool) : number :=
  let uptimeScore := mul uptime24h (lit (1 # 2)) in
  let clampedUtilization :=
    Math_min (Fin 100) (Math_max (Fin 0) storageUtilization) in
  let storageScore := mul (sub (Fin 100) clampedUtilization) (lit (3 # 10)) in
  let onlineScore := if isOnline then Fin 100 else Fin 0 in
  let onlineScoreWeighted := mul onlineScore (lit (1 # 5)) in
  let totalScore := add (add uptimeScore storageScore) onlineScoreWeighted in
  div (Math_round
         (mul (Math_min (Fin 100) (Math_max (Fin 0) totalScore)) (Fin 100)))
    (Fin 100).

Definition getNodeTier (healthScore : number) : NodeTier :=
  if geb healthScore (Fin 90) then Excellent
  else if geb healthScore (Fin 75) then Good
  else Poor.

Definition calculateNetworkHealth (onlinePercentage : number) : NetworkHealth :=
  if geb onlinePercentage (Fin 95) then healthy
  else if geb onlinePercentage (Fin 85) then degraded
  else unstable.

(** One iteration of the loop of [computeNodeMetricsFromData]: [None] is
    [continue], [Some m] is [metrics.push(m)].  Of a node only the pubkey
    and the status are read. *)
Definition nodeMetricsOf (nodes : list PNode.t) (pod : Pod.t)
  : option NodeMetrics.t :=
  match Pod.pubkey pod with
  | None => None
  | Some pk =>
      match List.find (fun n => String.eqb (PNode.pubkey n) pk) nodes with
      | None => None
      | Some node =>
          if negb (truthy_str pk) then None
          else
            let uptimeSeconds := or_zero (Pod.uptime pod) in
            let uptime24h := calculateUptime24h uptimeSeconds in
            let storageCommitted := or_zero (Pod.storage_committed pod) in
            let storageUsed := or_zero (Pod.storage_used pod) in
            let storageUtilization :=
              if gtb storageCommitted (Fin 0)
              then div (Math_round
                          (mul (mul (div storageUsed storageCommitted) (Fin 100))
                             (Fin 100)))
                     (Fin 100)
              else Fin 0 in
            let healthScore :=
              calculateHealthScore uptime24h storageUtilization
                (PNodeStatus_eqb (PNode.status node) online) in
            let tier := getNodeTier healthScore in
            Some {| NodeMetrics.pubkey := pk;
                    NodeMetrics.healthScore := healthScore;
                    NodeMetrics.uptime24h := uptime24h;
                    NodeMetrics.storageUtilization := storageUtilization;
                    NodeMetrics.tier := tier |}
      end
  end.

Definition computeNodeMetricsFromData
    (pods : list Pod.t) (nodes : list PNode.t) : list NodeMetrics.t :=
  omap (nodeMetricsOf nodes) pods.

(** [onlinePercentage] of [getAnalyticsSummary] (lines 374-377) and the
    health derived from it (line 419), from the two counts. *)
Definition onlinePercentageOf (onlinePNodes totalPNodes : nat) : number :=
  if (0 <? totalPNodes)%nat
  then div (Math_round
              (mul (mul (div (of_nat onlinePNodes) (of_nat totalPNodes)) (Fin 100))
                 (Fin 100)))
         (Fin 100)
  else Fin 0.

Definition networkHealthOf (onlinePNodes totalPNodes : nat) : NetworkHealth :=
  calculateNetworkHealth (onlinePercentageOf onlinePNodes totalPNodes).

Module StoragePressure.
Record t : Type := mk {
  highPressureNodes : nat;
  totalNodes : nat;
  percent : number
}.
End StoragePressure.

(** The body of [getStoragePressure] after its [await]. *)
Definition storagePressureOf (metrics : list NodeMetrics.t)
  : StoragePressure.t :=
  let totalNodes := length metrics in
  let highPressureNodes :=
    length (List.filter
              (fun m => gtb (NodeMetrics.storageUtilization m) (Fin 80))
              metrics) in
  let percent :=
    if (0 <? totalNodes)%nat
    then div (Math_round
                (mul (mul (div (of_nat highPressureNodes) (of_nat totalNodes))
                        (Fin 100))
                   (Fin 100)))
           (Fin 100)
    else Fin 0 in
  {| StoragePressure.highPressureNodes := highPressureNodes;
     StoragePressure.totalNodes := totalNodes;
     StoragePressure.percent := percent |}.

Module ExtendedSummary.
Record t : Type := mk {
  totalPNodes : nat;
  onlinePercentage : number;
  averageUptime24h : number;
  averageHealthScore : number;
  storagePressurePercent : number;
  networkHealth : NetworkHealth
}.
End ExtendedSummary.

(** The body of [getExtendedSummary] after its two [await]s. *)
Definition extendedSummaryOf (metrics : list NodeMetrics.t)
    (nodes : list PNode.t) : ExtendedSummary.t :=
  let totalPNodes := length metrics in
  if (totalPNodes =? 0)%nat
  then {| ExtendedSummary.totalPNodes := 0;
          ExtendedSummary.onlinePercentage := Fin 0;
          ExtendedSummary.averageUptime24h := Fin 0;
          ExtendedSummary.averageHealthScore := Fin 0;
          ExtendedSummary.storagePressurePercent := Fin 0;
          ExtendedSummary.networkHealth := unstable |}
  else
    let onlineNodes :=
      List.filter (fun n => PNodeStatus_eqb (PNode.status n) online) nodes in
    let onlinePercentage :=
      div (Math_round
             (mul (mul (div (of_nat (length onlineNodes)) (of_nat totalPNodes))
                     (Fin 100))
                (Fin 100)))
        (Fin 100) in
    let averageUptime24h :=
      if (0 <? length metrics)%nat
      then div (Math_round
                  (mul (div (fold_left
                               (fun sum m => add sum (NodeMetrics.uptime24h m))
                               metrics (Fin 0))
                          (of_nat (length metrics)))
                     (Fin 100)))
             (Fin 100)
      else Fin 0 in
    let averageHealthScore :=
      if (0 <? length metrics)%nat
      then div (Math_round
                  (mul (div (fold_left
                               (fun sum m => add sum (NodeMetrics.healthScore m))
                               metrics (Fin 0))
                          (of_nat (length metrics)))
                     (Fin 100)))
             (Fin 100)
      else Fin 0 in
    let highPressureNodes :=
      length (List.filter
                (fun m => gtb (NodeMetrics.storageUtilization m) (Fin 80))
                metrics) in
    let storagePressurePercent :=
      div (Math_round
             (mul (mul (div (of_nat highPressureNodes) (of_nat totalPNodes))
                     (Fin 100))
                (Fin 100)))
        (Fin 100) in
    let networkHealth := calculateNetworkHealth onlinePercentage in
    {| ExtendedSummary.totalPNodes := totalPNodes;
       ExtendedSummary.onlinePercentage := onlinePercentage;
       ExtendedSummary.averageUptime24h := averageUptime24h;
       ExtendedSummary.averageHealthScore := averageHealthScore;
       ExtendedSummary.storagePressurePercent := storagePressurePercent;
       ExtendedSummary.networkHealth := networkHealth |}.

(** The health-score formula in the words of the specification, over
    doubles. *)
Module Formula.

Definition clamp (x lo hi : number) : number := Math_max lo (Math_min x hi).

Definition round2 (x : number) : number :=
  div (Math_round (mul x (Fin 100))) (Fin 100).

Definition uptime24h (u : number) : number :=
  clamp (mul (div u (Fin 86400)) (Fin 100)) (Fin 0) (Fin 100).

Definition storageUtilization (su sc : number) : number :=
  if gtb sc (Fin 0) then round2 (mul (div su sc) (Fin 100)) else Fin 0.

Definition healthScore (uptime24h storageUtilization : number) (o : bool)
  : number :=
  round2
    (clamp (add (add (mul uptime24h (lit (1 # 2)))
                   (mul (sub (Fin 100) (clamp storageUtilization (Fin 0) (Fin 100)))
                      (lit (3 # 10))))
              (mul (if o then Fin 100 else Fin 0) (lit (1 # 5))))
       (Fin 0) (Fin 100)).

End Formula.

(** The resolution priority of [storageTotal] in the words of the
    specification: the committed storage when present and positive, else
    the value computed back from the usage percentage when that lies in
    (0, 100], else 0. *)
Definition claimed_storageTotal (pod : Pod.t) : number :=
  let used := or_zero (Pod.storage_used pod) in
  let computed_back :=
    match Pod.storage_usage_percent pod with
    | Some p =>
        if gtb p (Fin 0) && leb p (Fin 100)
        then Math_round (div (mul used (Fin 100)) p)
        else Fin 0
    | None => Fin 0
    end in
  match Pod.storage_committed pod with
  | Some c => if gtb c (Fin 0) then c else computed_back
  | None => computed_back
  end.

(** The value a binary64 datum of the machine denotes. *)
Definition of_SF (x : SpecFloat.spec_float) : number :=
  match x with
  | SpecFloat.S754_zero _ => Fin 0
  | SpecFloat.S754_infinity s => Inf s
  | SpecFloat.S754_nan => NaN
  | SpecFloat.S754_finite s m e =>
      Fin (Qred ((if s then -1 else 1) * inject_Z (Zpos m) * 2 ^ e))
  end.

End Double.

Arguments Double.round : simpl never.
Arguments Double.nearest : simpl never.

(** [JSON.parse] of a record of the gossip client: each decimal is read as
    the nearest double. *)
Definition parsed (pod : Pod.t) : Double.Pod.t :=
  {| Double.Pod.pubkey := Pod.pubkey pod;
     Double.Pod.storage_committed :=
       option_map Double.lit (Pod.storage_committed pod);
     Double.Pod.storage_usage_percent :=
       option_map Double.lit (Pod.storage_usage_percent pod);
     Double.Pod.storage_used := option_map Double.lit (Pod.storage_used pod);
     Double.Pod.uptime := option_map Double.lit (Pod.uptime pod) |}.

(** A record whose utilization falls on a rounding boundary: 201 of 800
    bytes, up for 56214 seconds. *)
Definition boundary_pod : Pod.t :=
  {| Pod.address := None; Pod.is_public := None;
     Pod.last_seen_timestamp := 0;
     Pod.pubkey := Some "abc"%string; Pod.rpc_port := None;
     Pod.storage_committed := Some 800;
     Pod.storage_usage_percent := None;
     Pod.storage_used := Some 201;
     Pod.uptime := Some 56214; Pod.version := None |}.

(** A record without committed storage: 70 TB used at 3 percent. *)
Definition back_computed_pod : Pod.t :=
  {| Pod.address := None; Pod.is_public := None;
     Pod.last_seen_timestamp := 0;
     Pod.pubkey := Some "abc"%string; Pod.rpc_port := None;
     Pod.storage_committed := None;
     Pod.storage_usage_percent := Some 3;
     Pod.storage_used := Some 70000000000000;
     Pod.uptime := None; Pod.version := None |}.

(** The metrics of the scenario record, and those of a node whose storage
    is nearly full. *)
Definition sample_metric : Double.NodeMetrics.t :=
  {| Double.NodeMetrics.pubkey := "abc";
     Double.NodeMetrics.healthScore := Double.Fin 60;
     Double.NodeMetrics.uptime24h := Double.Fin 50;
     Double.NodeMetrics.storageUtilization := Double.Fin 50;
     Double.NodeMetrics.tier := Poor |}.

Definition hot_metric : Double.NodeMetrics.t :=
  {| Double.NodeMetrics.pubkey := "hot";
     Double.NodeMetrics.healthScore := Double.Fin 48;
     Double.NodeMetrics.uptime24h := Double.Fin 50;
     Double.NodeMetrics.storageUtilization := Double.Fin 90;
     Double.NodeMetrics.tier := Poor |}.

(** A node of the given pubkey and status. *)
Definition node_of (pubkey : string) (status : PNodeStatus) : PNode.t :=
  {| PNode.pubkey := pubkey; PNode.status := status;
     PNode.version := "unknown"%string; PNode.storageUsed := 0;
     PNode.storageTotal := 0; PNode.uptime := 0; PNode.ip := EmptyString;
     PNode.lastSeen := 0; PNode.address := None; PNode.isPublic := None;
     PNode.rpcPort := None; PNode.storageCommitted := None;
     PNode.storageUsagePercent := None; PNode.lastSeenTimestamp := None;
     PNode.ramUsed := None; PNode.ramTotal := None |}.

(** * Properties *)

(** ** Binary64 arithmetic: rounding is monotone *)

Section Binary64.

Import Double.

Lemma pow2_pos (z : Z) : 0 < 2 ^ z.
Proof. apply Qpower_0_lt. reflexivity. Qed.

Lemma pow2_plus (n m : Z) : 2 ^ (n + m) == 2 ^ n * 2 ^ m.
Proof. apply Qpower_plus. discriminate. Qed.

Lemma pow2_succ (n : Z) : 2 ^ (n + 1) == 2 * 2 ^ n.
Proof. rewrite pow2_plus. change (2 ^ 1) with 2. ring. Qed.

Lemma pow2_le (n m : Z) : (n <= m)%Z -> 2 ^ n <= 2 ^ m.
Proof. intros H. apply Qpower_le_compat_l; [exact H | discriminate]. Qed.

Lemma pow2_lt (n m : Z) : (n < m)%Z -> 2 ^ n < 2 ^ m.
Proof. intros H. apply Qpower_lt_compat_l; [exact H | reflexivity]. Qed.

Lemma pow2_lt_inv (n m : Z) : 2 ^ n < 2 ^ m -> (n < m)%Z.
Proof. intros H. apply (Qpower_lt_compat_l_inv 2); [exact H | reflexivity]. Qed.

Lemma pow2_of_Z (n : Z) : (0 <= n)%Z -> inject_Z (2 ^ n) == 2 ^ n.
Proof. intros H. now rewrite Zpower_Qpower. Qed.

Lemma ilog2_spec (a : Q) :
  0 < a -> 2 ^ ilog2 a <= a /\ a < 2 ^ (ilog2 a + 1).
Proof.
  intros Ha. destruct a as [n d]. unfold ilog2. cbn [Qnum Qden].
  assert (Hn : (0 < n)%Z) by (unfold Qlt in Ha; simpl in Ha; lia).
  set (ln := Z.log2 n). set (ld := Z.log2 (Zpos d)).
  destruct (Z.log2_spec n Hn) as [Hn1 Hn2]. fold ln in Hn1, Hn2.
  destruct (Z.log2_spec (Zpos d) eq_refl) as [Hd1 Hd2]. fold ld in Hd1, Hd2.
  assert (Hln : (0 <= ln)%Z) by apply Z.log2_nonneg.
  assert (Hld : (0 <= ld)%Z) by apply Z.log2_nonneg.
  assert (Qn1 : 2 ^ ln <= inject_Z n)
    by (rewrite <- pow2_of_Z by lia; now rewrite <- Zle_Qle).
  assert (Qn2 : inject_Z n < 2 ^ (ln + 1))
    by (rewrite <- pow2_of_Z by lia; now rewrite <- Zlt_Qlt).
  assert (Qd1 : 2 ^ ld <= inject_Z (Zpos d))
    by (rewrite <- pow2_of_Z by lia; now rewrite <- Zle_Qle).
  assert (Qd2 : inject_Z (Zpos d) < 2 ^ (ld + 1))
    by (rewrite <- pow2_of_Z by lia; now rewrite <- Zlt_Qlt).
  assert (Ea : n # d == inject_Z n / inject_Z (Zpos d)) by apply Qmake_Qdiv.
  assert (Hdpos : 0 < inject_Z (Zpos d)) by reflexivity.
  pose proof (pow2_pos ld) as Pld. pose proof (pow2_pos ln) as Pln.
  assert (Eup : 2 ^ (ln - ld + 1) * 2 ^ ld == 2 ^ (ln + 1)).
  { rewrite <- pow2_plus. now replace (ln - ld + 1 + ld)%Z with (ln + 1)%Z by lia. }
  assert (Edn : 2 ^ (ln - ld - 1) * 2 ^ (ld + 1) == 2 ^ ln).
  { rewrite <- pow2_plus. now replace (ln - ld - 1 + (ld + 1))%Z with ln by lia. }
  assert (Hup : n # d < 2 ^ (ln - ld + 1)).
  { rewrite Ea. apply Qlt_shift_div_r; [exact Hdpos |].
    eapply Qlt_le_trans; [exact Qn2 |]. rewrite <- Eup.
    apply Qmult_le_l; [apply pow2_pos | exact Qd1]. }
  assert (Hdn : 2 ^ (ln - ld - 1) <= n # d).
  { rewrite Ea. apply Qle_shift_div_l; [exact Hdpos |].
    eapply Qle_trans; [| exact Qn1]. rewrite <- Edn.
    apply Qmult_le_l; [apply pow2_pos |]. now apply Qlt_le_weak. }
  destruct (Qle_bool (2 ^ (ln - ld)) (n # d)) eqn:E.
  - apply Qle_bool_iff in E. split; [exact E | exact Hup].
  - apply not_true_iff_false in E. rewrite Qle_bool_iff in E.
    apply Qnot_le_lt in E. split; [exact Hdn |].
    now replace (ln - ld - 1 + 1)%Z with (ln - ld)%Z by lia.
Qed.

Lemma ilog2_mono (a b : Q) : 0 < a -> a <= b -> (ilog2 a <= ilog2 b)%Z.
Proof.
  intros Ha Hab.
  destruct (ilog2_spec a Ha) as [Ha1 _].
  destruct (ilog2_spec b) as [_ Hb2]; [lra |].
  assert (H : 2 ^ ilog2 a < 2 ^ (ilog2 b + 1)) by lra.
  apply pow2_lt_inv in H. lia.
Qed.

Lemma ilog2_Proper (a b : Q) : 0 < a -> a == b -> ilog2 a = ilog2 b.
Proof.
  intros Ha E. assert (0 < b) by lra.
  pose proof (ilog2_mono a b Ha ltac:(lra)).
  pose proof (ilog2_mono b a H ltac:(lra)). lia.
Qed.


Lemma rhe_bounds (x : Q) :
  (Qfloor x <= round_half_even x <= Qfloor x + 1)%Z.
Proof.
  unfold round_half_even.
  destruct (Qcompare (x - inject_Z (Qfloor x)) (1 # 2));
    [destruct (Z.even (Qfloor x)) | |]; lia.
Qed.

Lemma rhe_mono (x y : Q) :
  x <= y -> (round_half_even x <= round_half_even y)%Z.
Proof.
  intros Hxy.
  pose proof (Qfloor_resp_le x y Hxy) as Hf.
  destruct (Z.eq_dec (Qfloor x) (Qfloor y)) as [E | N].
  - unfold round_half_even. rewrite <- E.
    destruct (Qcompare (x - inject_Z (Qfloor x)) (1 # 2)) eqn:Cx;
      destruct (Qcompare (y - inject_Z (Qfloor x)) (1 # 2)) eqn:Cy;
      try (destruct (Z.even (Qfloor x)); lia); try lia; exfalso.
    + apply Qeq_alt in Cx. apply Qlt_alt in Cy. lra.
    + apply Qgt_alt in Cx. apply Qeq_alt in Cy. lra.
    + apply Qgt_alt in Cx. apply Qlt_alt in Cy. lra.
  - pose proof (rhe_bounds x). pose proof (rhe_bounds y). lia.
Qed.

Lemma rhe_Proper (x y : Q) : x == y -> round_half_even x = round_half_even y.
Proof.
  intros E.
  pose proof (rhe_mono x y ltac:(lra)). pose proof (rhe_mono y x ltac:(lra)).
  lia.
Qed.

Lemma rhe_inject (n : Z) : round_half_even (inject_Z n) = n.
Proof.
  unfold round_half_even. rewrite Qfloor_Z.
  assert (E : inject_Z n - inject_Z n == 0) by ring.
  assert (C : Qcompare (inject_Z n - inject_Z n) (1 # 2) = Lt).
  { rewrite <- Qlt_alt, E. reflexivity. }
  now rewrite C.
Qed.

Lemma rhe_ge (x : Q) (n : Z) : inject_Z n <= x -> (n <= round_half_even x)%Z.
Proof. intros H. rewrite <- (rhe_inject n). now apply rhe_mono. Qed.

Lemma rhe_le (x : Q) (n : Z) : x <= inject_Z n -> (round_half_even x <= n)%Z.
Proof. intros H. rewrite <- (rhe_inject n). now apply rhe_mono. Qed.


Lemma ulp_exp_mono (a b : Q) : 0 < a -> a <= b -> (ulp_exp a <= ulp_exp b)%Z.
Proof. intros Ha Hab. pose proof (ilog2_mono a b Ha Hab). unfold ulp_exp. lia. Qed.

Lemma scaled_lt (a : Q) : 0 < a -> a / 2 ^ ulp_exp a < inject_Z (2 ^ 53).
Proof.
  intros Ha. destruct (ilog2_spec a Ha) as [_ H].
  apply Qlt_shift_div_r; [apply pow2_pos |].
  rewrite pow2_of_Z by lia. rewrite <- pow2_plus.
  eapply Qlt_le_trans; [exact H |]. apply pow2_le. unfold ulp_exp. lia.
Qed.

Lemma scaled_ge (a : Q) :
  0 < a -> (-1074 < ulp_exp a)%Z -> inject_Z (2 ^ 52) <= a / 2 ^ ulp_exp a.
Proof.
  intros Ha He. destruct (ilog2_spec a Ha) as [H _].
  apply Qle_shift_div_l; [apply pow2_pos |].
  rewrite pow2_of_Z by lia. rewrite <- pow2_plus.
  eapply Qle_trans; [| exact H]. apply pow2_le. unfold ulp_exp in *. lia.
Qed.

Lemma nearest_nonneg (a : Q) : 0 < a -> 0 <= nearest a.
Proof.
  intros Ha. unfold nearest. apply Qmult_le_0_compat.
  - change 0 with (inject_Z 0). rewrite <- Zle_Qle. apply rhe_ge.
    apply Qle_shift_div_l; [apply pow2_pos |].
    change (inject_Z 0) with 0. rewrite Qmult_0_l. lra.
  - apply Qlt_le_weak, pow2_pos.
Qed.

Lemma nearest_mono (a b : Q) : 0 < a -> a <= b -> nearest a <= nearest b.
Proof.
  intros Ha Hab. assert (Hb : 0 < b) by lra.
  pose proof (ulp_exp_mono a b Ha Hab) as He.
  unfold nearest.
  destruct (Z.eq_dec (ulp_exp a) (ulp_exp b)) as [E | N].
  - rewrite E. apply Qmult_le_r; [apply pow2_pos |].
    rewrite <- Zle_Qle. apply rhe_mono.
    apply Qmult_le_r; [apply Qinv_lt_0_compat, pow2_pos | exact Hab].
  - assert (Hlt : (ulp_exp a < ulp_exp b)%Z) by lia.
    assert (Hmin : (-1074 <= ulp_exp a)%Z) by (unfold ulp_exp; lia).
    pose proof (scaled_lt a Ha) as Ua.
    pose proof (scaled_ge b Hb ltac:(lia)) as Lb.
    apply Qlt_le_weak, rhe_le in Ua. apply rhe_ge in Lb.
    apply Qle_trans with (inject_Z (2 ^ 53) * 2 ^ ulp_exp a).
    { apply Qmult_le_r; [apply pow2_pos |]. now rewrite <- Zle_Qle. }
    apply Qle_trans with (inject_Z (2 ^ 52) * 2 ^ ulp_exp b).
    2:{ apply Qmult_le_r; [apply pow2_pos |]. now rewrite <- Zle_Qle. }
    rewrite !pow2_of_Z by lia. rewrite <- !pow2_plus. apply pow2_le. lia.
Qed.

Lemma nearest_Proper (a b : Q) : 0 < a -> a == b -> nearest a == nearest b.
Proof.
  intros Ha E. assert (0 < b) by lra.
  apply Qle_antisym; apply nearest_mono; lra.
Qed.

Lemma nearest_int (z : Z) :
  (0 < z < 2 ^ 53)%Z -> nearest (inject_Z z) == inject_Z z.
Proof.
  intros [Hz1 Hz2].
  assert (Ha : 0 < inject_Z z) by (change 0 with (inject_Z 0); now rewrite <- Zlt_Qlt).
  destruct (ilog2_spec _ Ha) as [H _].
  assert (Hl : (ilog2 (inject_Z z) < 53)%Z).
  { apply pow2_lt_inv. eapply Qle_lt_trans; [exact H |].
    rewrite <- pow2_of_Z by lia. now rewrite <- Zlt_Qlt. }
  unfold nearest. set (e := ulp_exp (inject_Z z)).
  assert (He : (-1074 <= e <= 0)%Z) by (unfold e, ulp_exp; lia).
  assert (E : inject_Z z / 2 ^ e == inject_Z (z * 2 ^ (- e))).
  { rewrite inject_Z_mult, pow2_of_Z by lia.
    rewrite Qpower_opp. reflexivity. }
  rewrite (rhe_Proper _ _ E), rhe_inject.
  rewrite inject_Z_mult, pow2_of_Z by lia.
  rewrite <- Qmult_assoc, <- pow2_plus.
  replace (- e + e)%Z with 0%Z by lia. change (2 ^ 0) with 1. ring.
Qed.


Lemma round_zero (q : Q) : q == 0 -> round q = Fin 0.
Proof. intros E. unfold round. rewrite Qeq_alt in E. now rewrite E. Qed.

Lemma round_pos (q : Q) :
  0 < q ->
  (2 ^ 1024 <= nearest q /\ round q = Inf false)
  \/ (nearest q < 2 ^ 1024 /\ round q = Fin (Qred (nearest q))).
Proof.
  intros H. unfold round. rewrite Qgt_alt in H. rewrite H.
  destruct (Qle_bool (2 ^ 1024) (nearest q)) eqn:E.
  - left. apply Qle_bool_iff in E. now split.
  - right. apply not_true_iff_false in E. rewrite Qle_bool_iff in E.
    apply Qnot_le_lt in E. now split.
Qed.

Lemma round_neg (q : Q) :
  q < 0 ->
  (2 ^ 1024 <= nearest (- q) /\ round q = Inf true)
  \/ (nearest (- q) < 2 ^ 1024 /\ round q = Fin (Qred (- nearest (- q)))).
Proof.
  intros H. unfold round. rewrite Qlt_alt in H. rewrite H.
  destruct (Qle_bool (2 ^ 1024) (nearest (- q))) eqn:E.
  - left. apply Qle_bool_iff in E. now split.
  - right. apply not_true_iff_false in E. rewrite Qle_bool_iff in E.
    apply Qnot_le_lt in E. now split.
Qed.

Lemma sign_cases (q : Q) : q < 0 \/ q == 0 \/ 0 < q.
Proof. destruct (Q_dec q 0) as [[H | H] | H]; auto. Qed.

Lemma round_mono (p q : Q) : p <= q -> leb (round p) (round q) = true.
Proof.
  intros Hpq.
  destruct (sign_cases p) as [Hp | [Hp | Hp]];
    destruct (sign_cases q) as [Hq | [Hq | Hq]]; try (exfalso; lra).
  - pose proof (nearest_mono (- q) (- p) ltac:(lra) ltac:(lra)) as Hm.
    destruct (round_neg p Hp) as [[Bp ->] | [Bp ->]];
      destruct (round_neg q Hq) as [[Bq ->] | [Bq ->]];
      cbn [leb orb negb]; try reflexivity; try (exfalso; lra).
    apply Qle_bool_iff. rewrite !Qred_correct. lra.
  - rewrite (round_zero q Hq).
    pose proof (nearest_nonneg (- p) ltac:(lra)).
    destruct (round_neg p Hp) as [[Bp ->] | [Bp ->]];
      cbn [leb]; try reflexivity.
    apply Qle_bool_iff. rewrite !Qred_correct. lra.
  - pose proof (nearest_nonneg (- p) ltac:(lra)).
    pose proof (nearest_nonneg q Hq).
    destruct (round_neg p Hp) as [[Bp ->] | [Bp ->]];
      destruct (round_pos q Hq) as [[Bq ->] | [Bq ->]];
      cbn [leb orb negb]; try reflexivity.
    apply Qle_bool_iff. rewrite !Qred_correct. lra.
  - rewrite (round_zero p Hp), (round_zero q Hq). reflexivity.
  - rewrite (round_zero p Hp).
    pose proof (nearest_nonneg q Hq).
    destruct (round_pos q Hq) as [[Bq ->] | [Bq ->]];
      cbn [leb negb]; try reflexivity.
    apply Qle_bool_iff. rewrite !Qred_correct. lra.
  - pose proof (nearest_mono p q Hp Hpq) as Hm.
    destruct (round_pos p Hp) as [[Bp ->] | [Bp ->]];
      destruct (round_pos q Hq) as [[Bq ->] | [Bq ->]];
      cbn [leb orb negb]; try reflexivity; try (exfalso; lra).
    apply Qle_bool_iff. rewrite !Qred_correct. lra.
Qed.

Lemma round_Proper (p q : Q) : p == q -> round p = round q.
Proof.
  intros E.
  destruct (sign_cases p) as [Hp | [Hp | Hp]].
  - assert (Hq : q < 0) by lra.
    assert (En : nearest (- p) == nearest (- q))
      by (apply nearest_Proper; lra).
    destruct (round_neg p Hp) as [[Bp ->] | [Bp ->]];
      destruct (round_neg q Hq) as [[Bq ->] | [Bq ->]];
      try reflexivity; try (exfalso; lra).
    f_equal. apply Qred_complete. lra.
  - rewrite (round_zero p Hp), (round_zero q); [reflexivity | lra].
  - assert (Hq : 0 < q) by lra.
    assert (En : nearest p == nearest q) by (apply nearest_Proper; lra).
    destruct (round_pos p Hp) as [[Bp ->] | [Bp ->]];
      destruct (round_pos q Hq) as [[Bq ->] | [Bq ->]];
      try reflexivity; try (exfalso; lra).
    f_equal. apply Qred_complete. lra.
Qed.

Lemma round_not_NaN (q : Q) : round q <> NaN.
Proof.
  destruct (sign_cases q) as [H | [H | H]].
  - destruct (round_neg q H) as [[_ ->] | [_ ->]]; discriminate.
  - rewrite (round_zero q H). discriminate.
  - destruct (round_pos q H) as [[_ ->] | [_ ->]]; discriminate.
Qed.

Lemma round_canonical (q : Q) : canonical (round q).
Proof.
  destruct (sign_cases q) as [H | [H | H]].
  - destruct (round_neg q H) as [[_ ->] | [_ ->]]; [exact I |].
    cbn [canonical]. apply Qred_complete, Qred_correct.
  - rewrite (round_zero q H). reflexivity.
  - destruct (round_pos q H) as [[_ ->] | [_ ->]]; [exact I |].
    cbn [canonical]. apply Qred_complete, Qred_correct.
Qed.

Lemma Qred_inject_Z (z : Z) : Qred (inject_Z z) = inject_Z z.
Proof.
  unfold Qred, inject_Z.
  pose proof (Z.ggcd_gcd z 1) as G.
  pose proof (Z.ggcd_correct_divisors z 1) as D.
  destruct (Z.ggcd z 1) as [g [n d]]. simpl in G, D.
  rewrite Z.gcd_1_r in G. subst g. destruct D as [D1 D2].
  replace n with z by lia. replace d with 1%Z by lia. reflexivity.
Qed.

Lemma round_int (z : Z) :
  (- 2 ^ 53 < z < 2 ^ 53)%Z -> round (inject_Z z) = Fin (inject_Z z).
Proof.
  intros Hz.
  assert (Hbig : inject_Z (2 ^ 53) < 2 ^ 1024).
  { rewrite pow2_of_Z by lia. now apply pow2_lt. }
  destruct (Z.lt_trichotomy z 0) as [H | [H | H]].
  - assert (Hq : inject_Z z < 0)
      by (change 0 with (inject_Z 0); now rewrite <- Zlt_Qlt).
    assert (E : - inject_Z z == inject_Z (- z)) by now rewrite inject_Z_opp.
    pose proof (nearest_int (- z) ltac:(lia)) as En.
    assert (Hlt : inject_Z (- z) < inject_Z (2 ^ 53))
      by (rewrite <- Zlt_Qlt; lia).
    assert (En' : nearest (- inject_Z z) == inject_Z (- z)).
    { rewrite <- En. apply nearest_Proper; [lra | exact E]. }
    destruct (round_neg _ Hq) as [[B ->] | [B ->]]; [exfalso; lra |].
    rewrite <- (Qred_inject_Z z) at 2. f_equal. apply Qred_complete.
    rewrite En', <- E. ring.
  - subst z. reflexivity.
  - assert (Hq : 0 < inject_Z z)
      by (change 0 with (inject_Z 0); now rewrite <- Zlt_Qlt).
    pose proof (nearest_int z ltac:(lia)) as En.
    assert (Hlt : inject_Z z < inject_Z (2 ^ 53))
      by (rewrite <- Zlt_Qlt; lia).
    destruct (round_pos _ Hq) as [[B ->] | [B ->]]; [exfalso; lra |].
    rewrite <- (Qred_inject_Z z) at 2. f_equal. now apply Qred_complete.
Qed.



Lemma leb_Fin (p q : Q) : leb (Fin p) (Fin q) = true <-> p <= q.
Proof. apply Qle_bool_iff. Qed.

Lemma ltb_Fin (p q : Q) : ltb (Fin p) (Fin q) = true <-> p < q.
Proof.
  simpl. rewrite negb_true_iff, <- not_true_iff_false, Qle_bool_iff.
  split; [apply Qnot_le_lt | apply Qlt_not_le].
Qed.

Lemma leb_not_NaN (a b : number) : leb a b = true -> a <> NaN /\ b <> NaN.
Proof. destruct a, b; simpl; intros H; split; congruence. Qed.

Lemma leb_refl (a : number) : a <> NaN -> leb a a = true.
Proof.
  destruct a as [| s | p]; simpl; intros H; [congruence | now destruct s |].
  apply Qle_bool_iff. lra.
Qed.

Lemma leb_trans (a b c : number) :
  leb a b = true -> leb b c = true -> leb a c = true.
Proof.
  destruct a as [| s | p], b as [| s' | q], c as [| s'' | r]; simpl;
    try congruence;
    repeat match goal with x : bool |- _ => destruct x end; simpl;
    try congruence.
  rewrite !Qle_bool_iff. lra.
Qed.

Lemma ltb_leb (a b : number) : ltb a b = true -> leb a b = true.
Proof.
  destruct a as [| s | p], b as [| s' | q]; simpl; try congruence.
  - now destruct s, s'.
  - rewrite negb_true_iff, <- not_true_iff_false, !Qle_bool_iff. lra.
Qed.

Lemma ltb_negb_leb (a b : number) :
  a <> NaN -> b <> NaN -> ltb a b = negb (leb b a).
Proof.
  destruct a as [| s | p], b as [| s' | q]; simpl; try congruence;
    intros _ _; try reflexivity.
  - now destruct s, s'.
  - now destruct s.
Qed.

Lemma leb_ltb_false (a b : number) : leb a b = true -> ltb b a = false.
Proof.
  intros H. destruct (leb_not_NaN _ _ H) as [Ha Hb].
  rewrite ltb_negb_leb by assumption. now rewrite H.
Qed.

Lemma ltb_leb_false (a b : number) : ltb a b = true -> leb b a = false.
Proof.
  destruct a as [| s | p], b as [| s' | q]; simpl; try congruence.
  - now destruct s, s'.
  - now destruct s.
  - now destruct s'.
  - now rewrite negb_true_iff.
Qed.

Lemma leb_ltb_trans (a b c : number) :
  leb a b = true -> ltb b c = true -> ltb a c = true.
Proof.
  intros H1 H2. destruct (leb_not_NaN _ _ H1) as [Ha _].
  destruct (leb_not_NaN _ _ (ltb_leb _ _ H2)) as [_ Hc].
  rewrite ltb_negb_leb by assumption. apply negb_true_iff.
  destruct (leb c a) eqn:E; [| reflexivity].
  pose proof (leb_trans _ _ _ E H1) as H3.
  apply ltb_leb_false in H2. congruence.
Qed.

Lemma leb_ninf (x : number) : x <> NaN -> leb (Inf true) x = true.
Proof. destruct x; simpl; congruence. Qed.

Lemma leb_pinf (x : number) : x <> NaN -> leb x (Inf false) = true.
Proof.
  destruct x as [| s | p]; simpl; [congruence | | reflexivity].
  intros _. apply orb_true_r.
Qed.

Lemma between (lo hi : Q) (r : number) :
  leb (Fin lo) r = true -> leb r (Fin hi) = true ->
  exists y, r = Fin y /\ lo <= y <= hi.
Proof.
  destruct r as [| s | y]; simpl; try congruence.
  - destruct s; simpl; congruence.
  - rewrite !Qle_bool_iff. intros H1 H2. exists y. auto.
Qed.

Lemma is_zero_pos (k : Q) : 0 < k -> is_zero k = false.
Proof.
  intros H. unfold is_zero. apply not_true_iff_false.
  rewrite Qeq_bool_iff. lra.
Qed.

Lemma is_neg_pos (k : Q) : 0 < k -> is_neg k = false.
Proof.
  intros H. unfold is_neg. apply negb_false_iff, Qle_bool_iff. lra.
Qed.

Lemma mul_pos_Inf (s : bool) (k : Q) : 0 < k -> mul (Inf s) (Fin k) = Inf s.
Proof.
  intros H. simpl. rewrite is_zero_pos, is_neg_pos by exact H.
  now rewrite xorb_false_r.
Qed.

Lemma div_pos_Inf (s : bool) (k : Q) : 0 < k -> div (Inf s) (Fin k) = Inf s.
Proof.
  intros H. simpl. rewrite is_neg_pos by exact H. now rewrite xorb_false_r.
Qed.

Lemma div_pos_Fin (p k : Q) : 0 < k -> div (Fin p) (Fin k) = round (p / k).
Proof. intros H. simpl. now rewrite is_zero_pos. Qed.

Lemma mul_not_NaN (a : number) (k : Q) :
  0 < k -> a <> NaN -> mul a (Fin k) <> NaN.
Proof.
  intros Hk Ha. destruct a as [| s | p]; [congruence | |].
  - now rewrite mul_pos_Inf.
  - apply round_not_NaN.
Qed.

Lemma div_not_NaN (a : number) (k : Q) :
  0 < k -> a <> NaN -> div a (Fin k) <> NaN.
Proof.
  intros Hk Ha. destruct a as [| s | p]; [congruence | |].
  - now rewrite div_pos_Inf.
  - rewrite div_pos_Fin by exact Hk. apply round_not_NaN.
Qed.

Lemma mul_mono (a b : number) (k : Q) :
  0 < k -> leb a b = true -> leb (mul a (Fin k)) (mul b (Fin k)) = true.
Proof.
  intros Hk H. destruct (leb_not_NaN _ _ H) as [Ha Hb].
  destruct a as [| s | p], b as [| s' | q]; try congruence.
  - now rewrite !mul_pos_Inf.
  - rewrite mul_pos_Inf by exact Hk. simpl in H. subst s.
    apply leb_ninf, round_not_NaN.
  - rewrite mul_pos_Inf by exact Hk. simpl in H.
    destruct s'; [discriminate |]. apply leb_pinf, round_not_NaN.
  - apply leb_Fin in H. apply round_mono.
    apply Qmult_le_r; assumption.
Qed.

Lemma div_mono (a b : number) (k : Q) :
  0 < k -> leb a b = true -> leb (div a (Fin k)) (div b (Fin k)) = true.
Proof.
  intros Hk H. destruct (leb_not_NaN _ _ H) as [Ha Hb].
  destruct a as [| s | p], b as [| s' | q]; try congruence.
  - now rewrite !div_pos_Inf.
  - rewrite div_pos_Inf, div_pos_Fin by exact Hk. simpl in H. subst s.
    apply leb_ninf, round_not_NaN.
  - rewrite div_pos_Inf, div_pos_Fin by exact Hk. simpl in H.
    destruct s'; [discriminate |]. apply leb_pinf, round_not_NaN.
  - rewrite !div_pos_Fin by exact Hk. apply leb_Fin in H. apply round_mono.
    apply Qmult_le_r; [apply Qinv_lt_0_compat; exact Hk | exact H].
Qed.

Lemma add_mono (a b : number) (c d : Q) :
  leb a b = true -> c <= d -> leb (add a (Fin c)) (add b (Fin d)) = true.
Proof.
  intros H Hcd. destruct (leb_not_NaN _ _ H) as [Ha Hb].
  destruct a as [| s | p], b as [| s' | q]; try congruence; simpl.
  - exact H.
  - simpl in H. subst s. apply leb_ninf, round_not_NaN.
  - simpl in H. destruct s'; [discriminate |]. apply leb_pinf, round_not_NaN.
  - apply leb_Fin in H. apply round_mono. lra.
Qed.

Lemma add_not_NaN (a : number) (c : Q) : a <> NaN -> add a (Fin c) <> NaN.
Proof.
  destruct a as [| s | p]; simpl; [congruence | discriminate |].
  intros _. apply round_not_NaN.
Qed.

Lemma Math_round_monotone (a b : number) :
  leb a b = true -> leb (Math_round a) (Math_round b) = true.
Proof.
  destruct a as [| s | p], b as [| s' | q]; cbn [Math_round leb];
    try congruence.
  rewrite !Qle_bool_iff. intros H. rewrite <- Zle_Qle.
  apply Qfloor_resp_le. lra.
Qed.

Lemma Math_round_int (z : Z) : Math_round (Fin (inject_Z z)) = Fin (inject_Z z).
Proof.
  cbn [Math_round]. do 2 f_equal.
  assert (H1 : (z <= Qfloor (inject_Z z + (1 # 2)))%Z).
  { rewrite <- (Qfloor_Z z) at 1. apply Qfloor_resp_le. lra. }
  assert (H2 : (Qfloor (inject_Z z + (1 # 2)) < z + 1)%Z).
  { pose proof (Qfloor_le (inject_Z z + (1 # 2))) as L.
    rewrite Zlt_Qlt, inject_Z_plus. change (inject_Z 1) with 1. lra. }
  lia.
Qed.

End Binary64.

(** ** The model against the doubles of the machine *)

Section Hardware.

Import PrimFloat.

(** The operations of the model give, on the inputs that decide the
    roundings discussed here, the very doubles the machine computes
    ([0x1.3333333333333p-2] and [0x1.999999999999ap-3] are the doubles of
    the literals [0.3] and [0.2]). *)
Lemma model_agrees_with_hardware :
  Double.of_SF (FloatOps.Prim2SF (23 / 160 * 100 * 100)%float)
  = Double.mul
      (Double.mul (Double.div (Double.Fin 23) (Double.Fin 160))
         (Double.Fin 100))
      (Double.Fin 100)
  /\ Double.of_SF (FloatOps.Prim2SF (18999 / 20000 * 100 * 100)%float)
     = Double.mul
         (Double.mul (Double.div (Double.Fin 18999) (Double.Fin 20000))
            (Double.Fin 100))
         (Double.Fin 100)
  /\ Double.of_SF (FloatOps.Prim2SF (201 / 800 * 100 * 100)%float)
     = Double.mul
         (Double.mul (Double.div (Double.Fin 201) (Double.Fin 800))
            (Double.Fin 100))
         (Double.Fin 100)
  /\ Double.of_SF (FloatOps.Prim2SF (70000000000000 * 100 / 3)%float)
     = Double.div (Double.mul (Double.Fin 70000000000000) (Double.Fin 100))
         (Double.Fin 3)
  /\ Double.of_SF (FloatOps.Prim2SF (56214 / 86400 * 100)%float)
     = Double.mul (Double.div (Double.Fin 56214) (Double.Fin 86400))
         (Double.Fin 100)
  /\ Double.of_SF
       (FloatOps.Prim2SF
          (0.25 * 0.5 + (100 - 3) * 0x1.3333333333333p-2
           + 100 * 0x1.999999999999ap-3)%float)
     = Double.add
         (Double.add (Double.mul (Double.lit (1 # 4)) (Double.lit (1 # 2)))
            (Double.mul (Double.sub (Double.Fin 100) (Double.Fin 3))
               (Double.lit (3 # 10))))
         (Double.mul (Double.Fin 100) (Double.lit (1 # 5)))
  /\ Double.of_SF (FloatOps.Prim2SF (1 / 0)%float) = Double.Inf false
  /\ Double.of_SF (FloatOps.Prim2SF (0 / 0)%float) = Double.NaN.
Proof. vm_compute. repeat split. Qed.

End Hardware.

(** ** The metric functions over doubles *)

Section DoubleMetrics.

Import Double.

(** The constants of the health score. *)
Lemma lit_half : lit (1 # 2) = Fin (1 # 2).
Proof. vm_compute. reflexivity. Qed.

Lemma lit_03 : lit (3 # 10) = Fin (5404319552844595 # 18014398509481984).
Proof. vm_compute. reflexivity. Qed.

Lemma lit_02 : lit (1 # 5) = Fin (3602879701896397 # 18014398509481984).
Proof. vm_compute. reflexivity. Qed.

Lemma clamp_cases (t : number) :
  t <> NaN ->
  (leb t (Fin 0) = true /\ Math_min (Fin 100) (Math_max (Fin 0) t) = Fin 0)
  \/ (leb (Fin 100) t = true
      /\ Math_min (Fin 100) (Math_max (Fin 0) t) = Fin 100)
  \/ (exists q, t = Fin q /\ 0 < q < 100
                /\ Math_min (Fin 100) (Math_max (Fin 0) t) = Fin q).
Proof.
  destruct t as [| s | q]; [congruence | |]; intros _.
  - destruct s; [left | right; left]; split; reflexivity.
  - cbn [Math_max Math_min leb].
    destruct (Qle_bool q 0) eqn:E0.
    + left. split; reflexivity.
    + cbn [Math_min leb]. destruct (Qle_bool 100 q) eqn:E1.
      * right. left. split; reflexivity.
      * right. right. exists q. split; [reflexivity |].
        apply not_true_iff_false in E0, E1.
        rewrite Qle_bool_iff in E0, E1. split; [lra | reflexivity].
Qed.

Lemma clamp_range (t : number) :
  t <> NaN ->
  exists x, Math_min (Fin 100) (Math_max (Fin 0) t) = Fin x /\ 0 <= x <= 100.
Proof.
  intros H. destruct (clamp_cases t H) as [[_ ->] | [[_ ->] | (q & _ & Hq & ->)]].
  - exists 0. split; [reflexivity | lra].
  - exists 100. split; [reflexivity | lra].
  - exists q. split; [reflexivity | lra].
Qed.

(** The clamp keeps an upper bound that is not negative. *)
Lemma clamp_le (t : number) (h : Q) :
  0 <= h -> leb t (Fin h) = true ->
  leb (Math_min (Fin 100) (Math_max (Fin 0) t)) (Fin h) = true.
Proof.
  intros Hh H. destruct (leb_not_NaN _ _ H) as [Ht _].
  destruct (clamp_cases t Ht) as [[_ ->] | [[H1 ->] | (q & -> & Hq & ->)]].
  - now apply leb_Fin.
  - exact (leb_trans _ _ _ H1 H).
  - exact H.
Qed.

(** The two nestings of the clamp agree on every result of an
    operation. *)
Lemma formula_clamp (x : number) :
  canonical x ->
  Formula.clamp x (Fin 0) (Fin 100)
  = Math_min (Fin 100) (Math_max (Fin 0) x).
Proof.
  unfold Formula.clamp. destruct x as [| s | q]; [reflexivity | |].
  - intros _. now destruct s.
  - cbn [canonical]. intros Hc. cbn [Math_max Math_min leb].
    destruct (Qle_bool q 100) eqn:E100; destruct (Qle_bool q 0) eqn:E0;
      cbn [Math_max Math_min leb]; rewrite ?E0.
    + reflexivity.
    + destruct (Qle_bool 100 q) eqn:E; [| reflexivity].
      apply Qle_bool_iff in E100, E. f_equal. rewrite <- Hc.
      change 100 with (Qred 100). apply Qred_complete. lra.
    + exfalso. apply Qle_bool_iff in E0. apply not_true_iff_false in E100.
      rewrite Qle_bool_iff in E100. lra.
    + destruct (Qle_bool 100 q) eqn:E; [reflexivity |].
      exfalso. apply not_true_iff_false in E100, E.
      rewrite Qle_bool_iff in E100, E. lra.
Qed.

Lemma add_canonical (a b : number) : canonical (add a b).
Proof.
  destruct a as [| s | p], b as [| s' | q]; cbn [add canonical]; auto.
  - now destruct (Bool.eqb s s').
  - apply round_canonical.
Qed.

Lemma mul_canonical (a b : number) : canonical (mul a b).
Proof.
  destruct a as [| s | p], b as [| s' | q]; cbn [mul canonical]; auto.
  - now destruct (is_zero q).
  - now destruct (is_zero p).
  - apply round_canonical.
Qed.

Lemma div_canonical (a b : number) : canonical (div a b).
Proof.
  destruct a as [| s | p], b as [| s' | q]; cbn [div canonical]; auto.
  destruct (is_zero q); [now destruct (is_zero p) | apply round_canonical].
Qed.

(** Rounding to two decimals. *)
Lemma round2_monotone (a b : number) :
  leb a b = true -> leb (Formula.round2 a) (Formula.round2 b) = true.
Proof.
  intros H. unfold Formula.round2.
  apply div_mono; [reflexivity |]. apply Math_round_monotone.
  apply mul_mono; [reflexivity | exact H].
Qed.

Lemma round2_int (z : Z) :
  (- 2 ^ 40 < z < 2 ^ 40)%Z ->
  Formula.round2 (Fin (inject_Z z)) = Fin (inject_Z z).
Proof.
  intros Hz. unfold Formula.round2. cbn [mul].
  assert (E : inject_Z z * 100 == inject_Z (z * 100))
    by (rewrite inject_Z_mult; reflexivity).
  rewrite (round_Proper _ _ E), round_int by lia.
  rewrite Math_round_int, div_pos_Fin by reflexivity.
  assert (E' : inject_Z (z * 100) / 100 == inject_Z z)
    by (rewrite inject_Z_mult; field).
  rewrite (round_Proper _ _ E'). apply round_int. lia.
Qed.

Lemma round2_between (x : number) (l h : Z) :
  (- 2 ^ 40 < l)%Z -> (h < 2 ^ 40)%Z ->
  leb (Fin (inject_Z l)) x = true -> leb x (Fin (inject_Z h)) = true ->
  exists y, Formula.round2 x = Fin y /\ inject_Z l <= y <= inject_Z h.
Proof.
  intros Hl Hh H1 H2.
  assert (Hlh : (l <= h)%Z).
  { pose proof (leb_trans _ _ _ H1 H2) as H. apply leb_Fin in H.
    now rewrite <- Zle_Qle in H. }
  apply between.
  - rewrite <- (round2_int l) by lia. now apply round2_monotone.
  - rewrite <- (round2_int h) by lia. now apply round2_monotone.
Qed.


(** The storage part of the score lies in [0, 30]. *)
Lemma storageScore_range (s : number) :
  s <> NaN ->
  exists y,
    mul (sub (Fin 100) (Math_min (Fin 100) (Math_max (Fin 0) s))) (lit (3 # 10))
    = Fin y /\ 0 <= y <= 30.
Proof.
  intros Hs. destruct (clamp_range s Hs) as (x & -> & Hx).
  rewrite lit_03.
  assert (E0 : mul (sub (Fin 100) (Fin 100))
                 (Fin (5404319552844595 # 18014398509481984)) = Fin 0)
    by (vm_compute; reflexivity).
  assert (E30 : mul (sub (Fin 100) (Fin 0))
                  (Fin (5404319552844595 # 18014398509481984)) = Fin 30)
    by (vm_compute; reflexivity).
  apply between.
  - rewrite <- E0 at 1. apply mul_mono; [reflexivity |]. cbn [sub opp add].
    apply round_mono. lra.
  - rewrite <- E30. apply mul_mono; [reflexivity |]. cbn [sub opp add].
    apply round_mono. lra.
Qed.

Lemma onlineScore_cases (o : bool) :
  mul (if o then Fin 100 else Fin 0) (lit (1 # 5))
  = Fin (if o then 20 else 0).
Proof. destruct o; vm_compute; reflexivity. Qed.

Lemma totalScore_not_NaN (u s : number) (o : bool) :
  u <> NaN -> s <> NaN ->
  add (add (mul u (lit (1 # 2)))
         (mul (sub (Fin 100) (Math_min (Fin 100) (Math_max (Fin 0) s)))
            (lit (3 # 10))))
    (mul (if o then Fin 100 else Fin 0) (lit (1 # 5))) <> NaN.
Proof.
  intros Hu Hs. destruct (storageScore_range s Hs) as (y & -> & _).
  rewrite onlineScore_cases, lit_half.
  apply add_not_NaN, add_not_NaN, mul_not_NaN; [reflexivity | exact Hu].
Qed.

Lemma calculateHealthScore_eq (u s : number) (o : bool) :
  calculateHealthScore u s o
  = Formula.round2
      (Math_min (Fin 100)
         (Math_max (Fin 0)
            (add (add (mul u (lit (1 # 2)))
                    (mul (sub (Fin 100)
                            (Math_min (Fin 100) (Math_max (Fin 0) s)))
                       (lit (3 # 10))))
               (mul (if o then Fin 100 else Fin 0) (lit (1 # 5)))))).
Proof. reflexivity. Qed.

Lemma calculateHealthScore_in_range (u s : number) (o : bool) :
  u <> NaN -> s <> NaN ->
  exists q, calculateHealthScore u s o = Fin q /\ 0 <= q <= 100.
Proof.
  intros Hu Hs. rewrite calculateHealthScore_eq.
  destruct (clamp_range _ (totalScore_not_NaN u s o Hu Hs)) as (x & -> & Hx).
  apply (round2_between (Fin x) 0 100); try lia; apply leb_Fin;
    unfold inject_Z; lra.
Qed.

Lemma calculateHealthScore_offline (u s : number) :
  s <> NaN -> leb u (Fin 100) = true ->
  exists q, calculateHealthScore u s false = Fin q /\ 0 <= q <= 80.
Proof.
  intros Hs Hu. destruct (leb_not_NaN _ _ Hu) as [Hn _].
  rewrite calculateHealthScore_eq.
  pose proof (totalScore_not_NaN u s false Hn Hs) as Ht.
  destruct (storageScore_range s Hs) as (y & Ey & Hy).
  rewrite Ey, (onlineScore_cases false), lit_half in Ht |- *.
  set (t := add (add (mul u (Fin (1 # 2))) (Fin y)) (Fin 0)) in *.
  assert (Hle : leb t (Fin 80) = true).
  { assert (E : add (add (mul (Fin 100) (Fin (1 # 2))) (Fin 30)) (Fin 0)
                = Fin 80) by (vm_compute; reflexivity).
    rewrite <- E. apply add_mono; [| lra]. apply add_mono; [| lra].
    apply mul_mono; [reflexivity | exact Hu]. }
  pose proof (clamp_le t 80 ltac:(lra) Hle) as Hc.
  destruct (clamp_range t Ht) as (x & Ex & Hx). rewrite Ex in Hc |- *.
  apply (round2_between (Fin x) 0 80); try lia;
    [apply leb_Fin; unfold inject_Z; lra | exact Hc].
Qed.

Lemma getNodeTier_cases (n : number) :
  (getNodeTier n = Excellent <-> geb n (Fin 90) = true)
  /\ (getNodeTier n = Good
      <-> geb n (Fin 75) = true /\ ltb n (Fin 90) = true)
  /\ (getNodeTier n = Poor <-> ltb n (Fin 75) = true \/ n = NaN).
Proof.
  unfold getNodeTier, geb. destruct n as [| s | q].
  - cbn. intuition (auto; discriminate).
  - destruct s; cbn; intuition (auto; discriminate).
  - cbn [leb ltb].
    destruct (Qle_bool 90 q) eqn:E90; destruct (Qle_bool 75 q) eqn:E75;
      cbn [negb].
    2:{ exfalso. apply Qle_bool_iff in E90. apply not_true_iff_false in E75.
        rewrite Qle_bool_iff in E75. lra. }
    all: intuition (auto; discriminate).
Qed.

(** A negative uptime gives a percentage that is not positive. *)
Lemma negative_percentage (u : number) :
  ltb u (Fin 0) = true ->
  leb (mul (div u (Fin 86400)) (Fin 100)) (Fin 0) = true.
Proof.
  intros H. apply ltb_leb in H.
  assert (E : mul (div (Fin 0) (Fin 86400)) (Fin 100) = Fin 0)
    by (vm_compute; reflexivity).
  rewrite <- E. apply mul_mono; [reflexivity |]. apply div_mono; [reflexivity | exact H].
Qed.

Lemma calculateUptime24h_formula (u : number) :
  calculateUptime24h u = Formula.uptime24h u.
Proof.
  unfold calculateUptime24h, Formula.uptime24h.
  destruct (ltb u (Fin 0)) eqn:E.
  - pose proof (negative_percentage u E) as H.
    unfold Formula.clamp.
    set (p := mul (div u (Fin 86400)) (Fin 100)) in *.
    destruct p as [| s | q]; [discriminate | |].
    + destruct s; [reflexivity | discriminate].
    + cbn [leb] in H. cbn [Math_min Math_max leb].
      assert (H100 : Qle_bool q 100 = true)
        by (apply Qle_bool_iff in H; apply Qle_bool_iff; lra).
      rewrite H100. cbn [Math_max leb]. now rewrite H.
  - symmetry. apply formula_clamp, mul_canonical.
Qed.

Lemma calculateHealthScore_formula (u s : number) (o : bool) :
  canonical s ->
  calculateHealthScore u s o = Formula.healthScore u s o.
Proof.
  intros Hs. unfold calculateHealthScore, Formula.healthScore, Formula.round2.
  rewrite (formula_clamp s Hs).
  now rewrite formula_clamp by apply add_canonical.
Qed.

Lemma storageUtilization_canonical (su sc : number) :
  canonical (Formula.storageUtilization su sc).
Proof.
  unfold Formula.storageUtilization, Formula.round2.
  destruct (gtb sc (Fin 0)); [apply div_canonical | reflexivity].
Qed.

(** *** Shares of a count, to two decimals *)

Lemma of_nat_pos (n : nat) : (0 < n)%nat -> 0 < inject_Z (Z.of_nat n).
Proof.
  intros H. change 0 with (inject_Z 0). rewrite <- Zlt_Qlt. lia.
Qed.

Lemma share_is_round (k n : nat) :
  (0 < n)%nat ->
  div (of_nat k) (of_nat n)
  = round (inject_Z (Z.of_nat k) / inject_Z (Z.of_nat n)).
Proof. intros H. apply div_pos_Fin. now apply of_nat_pos. Qed.

Lemma ratio_ge (a b : Z) (k n : nat) :
  (0 < b)%Z -> (0 < n)%nat -> (a * Z.of_nat n <= b * Z.of_nat k)%Z ->
  inject_Z a / inject_Z b <= inject_Z (Z.of_nat k) / inject_Z (Z.of_nat n).
Proof.
  intros Hb Hn H. pose proof (of_nat_pos n Hn) as Qn.
  assert (Qb : 0 < inject_Z b)
    by (change 0 with (inject_Z 0); now rewrite <- Zlt_Qlt).
  rewrite Zle_Qle, !inject_Z_mult in H.
  apply Qle_shift_div_l; [exact Qn |].
  rewrite (Qmult_comm (inject_Z b)) in H.
  apply Qle_shift_div_r in H; [| exact Qb].
  eapply Qle_trans; [| exact H].
  apply Qle_lteq. right. field. intros E. rewrite E in Qb. discriminate.
Qed.

Lemma ratio_le (a b : Z) (k n : nat) :
  (0 < b)%Z -> (0 < n)%nat -> (b * Z.of_nat k <= a * Z.of_nat n)%Z ->
  inject_Z (Z.of_nat k) / inject_Z (Z.of_nat n) <= inject_Z a / inject_Z b.
Proof.
  intros Hb Hn H. pose proof (of_nat_pos n Hn) as Qn.
  assert (Qb : 0 < inject_Z b)
    by (change 0 with (inject_Z 0); now rewrite <- Zlt_Qlt).
  rewrite Zle_Qle, !inject_Z_mult in H.
  apply Qle_shift_div_r; [exact Qn |].
  rewrite (Qmult_comm (inject_Z b)) in H.
  apply Qle_shift_div_l in H; [| exact Qb].
  eapply Qle_trans; [exact H |].
  apply Qle_lteq. right. field. intros E. rewrite E in Qb. discriminate.
Qed.

(** The share of [k] in [n], in percent with two decimals, as the services
    compute it. *)
Lemma share_as_round2 (x : number) :
  div (Math_round (mul (mul x (Fin 100)) (Fin 100))) (Fin 100)
  = Formula.round2 (mul x (Fin 100)).
Proof. reflexivity. Qed.

Lemma share_above (a b : Z) (k n : nat) :
  (0 < b)%Z -> (0 < n)%nat -> (a * Z.of_nat n <= b * Z.of_nat k)%Z ->
  leb (Formula.round2 (mul (round (inject_Z a / inject_Z b)) (Fin 100)))
    (Formula.round2 (mul (div (of_nat k) (of_nat n)) (Fin 100)))
  = true.
Proof.
  intros Hb Hn H. rewrite (share_is_round k n Hn).
  apply round2_monotone, mul_mono; [reflexivity |].
  apply round_mono. now apply ratio_ge.
Qed.

Lemma share_below (a b : Z) (k n : nat) :
  (0 < b)%Z -> (0 < n)%nat -> (b * Z.of_nat k <= a * Z.of_nat n)%Z ->
  leb (Formula.round2 (mul (div (of_nat k) (of_nat n)) (Fin 100)))
    (Formula.round2 (mul (round (inject_Z a / inject_Z b)) (Fin 100)))
  = true.
Proof.
  intros Hb Hn H. rewrite (share_is_round k n Hn).
  apply round2_monotone, mul_mono; [reflexivity |].
  apply round_mono. now apply ratio_le.
Qed.

(** A share of a part in a whole is a percentage. *)
Lemma share_range (k n : nat) :
  (0 < n)%nat -> (k <= n)%nat ->
  exists q,
    Formula.round2 (mul (div (of_nat k) (of_nat n)) (Fin 100)) = Fin q
    /\ 0 <= q <= 100.
Proof.
  intros Hn Hk. apply between.
  - assert (E : Formula.round2
                  (mul (round (inject_Z 0 / inject_Z 1)) (Fin 100)) = Fin 0)
      by (vm_compute; reflexivity).
    rewrite <- E. apply share_above; lia.
  - assert (E : Formula.round2
                  (mul (round (inject_Z 1 / inject_Z 1)) (Fin 100)) = Fin 100)
      by (vm_compute; reflexivity).
    rewrite <- E. apply share_below; lia.
Qed.

Lemma onlinePercentageOf_pos (k n : nat) :
  (0 < n)%nat ->
  onlinePercentageOf k n
  = Formula.round2 (mul (div (of_nat k) (of_nat n)) (Fin 100)).
Proof.
  intros H. unfold onlinePercentageOf. apply Nat.ltb_lt in H. now rewrite H.
Qed.

(** The four bounds of the network health in terms of the counts. *)
Lemma share_ge_95 (k n : nat) :
  (0 < n)%nat -> (19 * Z.of_nat n <= 20 * Z.of_nat k)%Z ->
  geb (Formula.round2 (mul (div (of_nat k) (of_nat n)) (Fin 100))) (Fin 95)
  = true.
Proof.
  intros Hn H. unfold geb.
  assert (E : Formula.round2
                (mul (round (inject_Z 19 / inject_Z 20)) (Fin 100)) = Fin 95)
    by (vm_compute; reflexivity).
  rewrite <- E. apply share_above; lia.
Qed.

Lemma share_lt_95 (k n : nat) :
  (0 < n)%nat -> (20000 * Z.of_nat k <= 18999 * Z.of_nat n)%Z ->
  geb (Formula.round2 (mul (div (of_nat k) (of_nat n)) (Fin 100))) (Fin 95)
  = false.
Proof.
  intros Hn H. unfold geb. apply ltb_leb_false.
  eapply leb_ltb_trans; [apply (share_below 18999 20000); lia |].
  vm_compute. reflexivity.
Qed.

Lemma share_ge_85 (k n : nat) :
  (0 < n)%nat -> (16999 * Z.of_nat n <= 20000 * Z.of_nat k)%Z ->
  geb (Formula.round2 (mul (div (of_nat k) (of_nat n)) (Fin 100))) (Fin 85)
  = true.
Proof.
  intros Hn H. unfold geb.
  assert (E : Formula.round2
                (mul (round (inject_Z 16999 / inject_Z 20000)) (Fin 100))
              = Fin 85)
    by (vm_compute; reflexivity).
  rewrite <- E. apply share_above; lia.
Qed.

Lemma share_lt_85 (k n : nat) :
  (0 < n)%nat -> (10000 * Z.of_nat k <= 8499 * Z.of_nat n)%Z ->
  geb (Formula.round2 (mul (div (of_nat k) (of_nat n)) (Fin 100))) (Fin 85)
  = false.
Proof.
  intros Hn H. unfold geb. apply ltb_leb_false.
  eapply leb_ltb_trans; [apply (share_below 8499 10000); lia |].
  vm_compute. reflexivity.
Qed.

Lemma geb_95_85 (p : number) :
  geb p (Fin 95) = true -> geb p (Fin 85) = true.
Proof.
  unfold geb. intros H. eapply leb_trans; [| exact H]. reflexivity.
Qed.

Lemma networkHealth_of_share (k n : nat) :
  (0 < n)%nat ->
  let p := Formula.round2 (mul (div (of_nat k) (of_nat n)) (Fin 100)) in
  ((19 * Z.of_nat n <= 20 * Z.of_nat k)%Z -> calculateNetworkHealth p = healthy)
  /\ ((16999 * Z.of_nat n <= 20000 * Z.of_nat k)%Z ->
      (20000 * Z.of_nat k <= 18999 * Z.of_nat n)%Z ->
      calculateNetworkHealth p = degraded)
  /\ ((10000 * Z.of_nat k <= 8499 * Z.of_nat n)%Z ->
      calculateNetworkHealth p = unstable)
  /\ (calculateNetworkHealth p = healthy ->
      (18999 * Z.of_nat n < 20000 * Z.of_nat k)%Z)
  /\ (calculateNetworkHealth p = degraded ->
      (8499 * Z.of_nat n < 10000 * Z.of_nat k)%Z
      /\ (20 * Z.of_nat k < 19 * Z.of_nat n)%Z)
  /\ (calculateNetworkHealth p = unstable ->
      (20000 * Z.of_nat k < 16999 * Z.of_nat n)%Z).
Proof.
  intros Hn p. unfold calculateNetworkHealth.
  pose proof (share_ge_95 k n Hn) as G95.
  pose proof (share_lt_95 k n Hn) as L95.
  pose proof (share_ge_85 k n Hn) as G85.
  pose proof (share_lt_85 k n Hn) as L85.
  pose proof (geb_95_85 p) as G.
  fold p in G95, L95, G85, L85.
  destruct (geb p (Fin 95)) eqn:E95; destruct (geb p (Fin 85)) eqn:E85;
    repeat split; intros; try discriminate; try reflexivity;
    try (specialize (G eq_refl); discriminate);
    try (destruct (Z_le_gt_dec (20000 * Z.of_nat k) (18999 * Z.of_nat n));
         [specialize (L95 ltac:(assumption)); discriminate | lia]);
    try (destruct (Z_le_gt_dec (19 * Z.of_nat n) (20 * Z.of_nat k));
         [specialize (G95 ltac:(assumption)); discriminate | lia]);
    try (destruct (Z_le_gt_dec (10000 * Z.of_nat k) (8499 * Z.of_nat n));
         [specialize (L85 ltac:(assumption)); discriminate | lia]);
    try (destruct (Z_le_gt_dec (16999 * Z.of_nat n) (20000 * Z.of_nat k));
         [specialize (G85 ltac:(assumption)); discriminate | lia]);
    try (specialize (G95 ltac:(assumption)); discriminate);
    try (specialize (L95 ltac:(assumption)); discriminate);
    try (specialize (G85 ltac:(assumption)); discriminate);
    try (specialize (L85 ltac:(assumption)); discriminate);
    try (specialize (G95 ltac:(lia)); discriminate).
Qed.

(** *** The analytics views over doubles *)

Lemma is_percentage_iff (a : number) :
  is_percentage a <-> exists q, a = Fin q /\ 0 <= q <= 100.
Proof.
  destruct a as [| s | q]; simpl; split.
  - intros [].
  - intros (q & E & _). discriminate.
  - intros [].
  - intros (q & E & _). discriminate.
  - intros H. exists q. auto.
  - intros (q' & [= <-] & H). exact H.
Qed.

Lemma share_is_percentage (k n : nat) :
  (0 < n)%nat -> (k <= n)%nat ->
  is_percentage (Formula.round2 (mul (div (of_nat k) (of_nat n)) (Fin 100))).
Proof. intros Hn Hk. apply is_percentage_iff. now apply share_range. Qed.

(** Every whole percentage is reached from its share upwards, and missed
    from one hundredth below it downwards. *)
Lemma whole_percentages :
  List.forallb
    (fun i =>
       leb (Fin (inject_Z (Z.of_nat i)))
         (Formula.round2
            (mul (round (inject_Z (Z.of_nat i) / inject_Z 100)) (Fin 100)))
       && ltb (Formula.round2
                 (mul (round (inject_Z (100 * Z.of_nat (S i) - 1)
                              / inject_Z 10000))
                    (Fin 100)))
            (Fin (inject_Z (Z.of_nat (S i)))))
    (seq 0 101)
  = true.
Proof. vm_compute. reflexivity. Qed.

Lemma share_reaches (b : Z) (k n : nat) :
  (0 <= b <= 100)%Z -> (0 < n)%nat ->
  (b * Z.of_nat n <= 100 * Z.of_nat k)%Z ->
  geb (Formula.round2 (mul (div (of_nat k) (of_nat n)) (Fin 100)))
    (Fin (inject_Z b))
  = true.
Proof.
  intros Hb Hn H. unfold geb.
  pose proof (proj1 (List.forallb_forall _ _) whole_percentages (Z.to_nat b))
    as Hw.
  cbv beta in Hw. rewrite Z2Nat.id in Hw by lia.
  destruct (andb_prop _ _ (Hw ltac:(apply in_seq; lia))) as [H1 _].
  eapply leb_trans; [exact H1 |]. apply share_above; lia.
Qed.

Lemma share_misses (b : Z) (k n : nat) :
  (1 <= b <= 100)%Z -> (0 < n)%nat ->
  (10000 * Z.of_nat k <= (100 * b - 1) * Z.of_nat n)%Z ->
  ltb (Formula.round2 (mul (div (of_nat k) (of_nat n)) (Fin 100)))
    (Fin (inject_Z b))
  = true.
Proof.
  intros Hb Hn H.
  pose proof (proj1 (List.forallb_forall _ _) whole_percentages
                (Z.to_nat (b - 1))) as Hw.
  cbv beta in Hw.
  replace (Z.of_nat (S (Z.to_nat (b - 1)))) with b in Hw by lia.
  destruct (andb_prop _ _ (Hw ltac:(apply in_seq; lia))) as [_ H2].
  eapply leb_ltb_trans; [| exact H2]. apply share_below; lia.
Qed.

Lemma filter_length_le {A} (f : A -> bool) (l : list A) :
  (length (List.filter f l) <= length l)%nat.
Proof.
  induction l as [| a l IH]; simpl; [lia |]. destruct (f a); simpl; lia.
Qed.

Lemma filter_nil_iff {A} (f : A -> bool) (l : list A) :
  length (List.filter f l) = 0%nat <-> List.Forall (fun a => f a = false) l.
Proof.
  induction l as [| a l IH]; simpl.
  - split; [constructor | reflexivity].
  - destruct (f a) eqn:E; simpl.
    + split; [discriminate |]. intros H. inversion H; congruence.
    + rewrite IH. split; [now constructor |]. intros H. now inversion H.
Qed.

Lemma storagePressureOf_spec (metrics : list NodeMetrics.t) :
  let p := storagePressureOf metrics in
  let total := StoragePressure.totalNodes p in
  let high := StoragePressure.highPressureNodes p in
  total = length metrics
  /\ (high <= total)%nat
  /\ (high = 0%nat
      <-> List.Forall
            (fun m => gtb (NodeMetrics.storageUtilization m) (Fin 80) = false)
            metrics)
  /\ is_percentage (StoragePressure.percent p)
  /\ (metrics = [] -> StoragePressure.percent p = Fin 0)
  /\ (forall b : Z,
         (0 <= b <= 100)%Z -> (0 < total)%nat ->
         (b * Z.of_nat total <= 100 * Z.of_nat high)%Z ->
         geb (StoragePressure.percent p) (Fin (inject_Z b)) = true)
  /\ (forall b : Z,
         (1 <= b <= 100)%Z -> (0 < total)%nat ->
         (10000 * Z.of_nat high <= (100 * b - 1) * Z.of_nat total)%Z ->
         ltb (StoragePressure.percent p) (Fin (inject_Z b)) = true).
Proof.
  unfold storagePressureOf. cbn [StoragePressure.totalNodes
    StoragePressure.highPressureNodes StoragePressure.percent].
  set (high := length (List.filter _ metrics)).
  assert (Hle : (high <= length metrics)%nat) by apply filter_length_le.
  split; [reflexivity |]. split; [exact Hle |].
  split; [apply filter_nil_iff |].
  destruct (0 <? length metrics)%nat eqn:E.
  - apply Nat.ltb_lt in E. rewrite share_as_round2.
    split; [now apply share_is_percentage |].
    split; [intros ->; simpl in E; lia |].
    split; intros b Hb _ H; [now apply share_reaches | now apply share_misses].
  - apply Nat.ltb_ge in E.
    split; [simpl; lra |]. split; [reflexivity |].
    split; intros b Hb Hpos; lia.
Qed.

(** A sum of percentages. *)
Lemma sum_of_percentages {A} (f : A -> number) (l : list A) :
  List.Forall (fun a => is_percentage (f a)) l ->
  forall (i : Z) (acc : Q),
    (0 <= i)%Z -> (100 * (i + Z.of_nat (length l)) < 2 ^ 53)%Z ->
    0 <= acc <= inject_Z (100 * i) ->
    exists s,
      fold_left (fun sum a => add sum (f a)) l (Fin acc) = Fin s
      /\ 0 <= s <= inject_Z (100 * (i + Z.of_nat (length l))).
Proof.
  induction 1 as [| a l Ha Hl IH]; intros i acc Hi Hbig Hacc.
  - exists acc. split; [reflexivity |].
    simpl length. now rewrite Z.add_0_r.
  - cbn [fold_left length] in Hbig |- *. rewrite Nat2Z.inj_succ in Hbig.
    apply is_percentage_iff in Ha as (x & Ex & Hx).
    rewrite Ex. cbn [add].
    assert (Hb : exists y, round (acc + x) = Fin y
                           /\ 0 <= y <= inject_Z (100 * (i + 1))).
    { apply between.
      - rewrite <- (round_zero 0) by reflexivity. apply round_mono.
        destruct Hacc as [Hacc _]. destruct Hx as [Hx _]. clear - Hacc Hx.
        lra.
      - rewrite <- (round_int (100 * (i + 1))) by lia. apply round_mono.
        replace (100 * (i + 1))%Z with (100 * i + 100)%Z by lia.
        rewrite inject_Z_plus. change (inject_Z 100) with 100.
        destruct Hacc as [_ Hacc]. destruct Hx as [_ Hx]. clear - Hacc Hx.
        remember (inject_Z (100 * i)) as B. lra. }
    destruct Hb as (y & -> & Hy).
    destruct (IH (i + 1)%Z y ltac:(lia) ltac:(lia) Hy) as (s & Es & Hs).
    exists s. split; [exact Es |].
    replace (i + Z.of_nat (S (length l)))%Z
      with (i + 1 + Z.of_nat (length l))%Z by lia.
    exact Hs.
Qed.

(** The two-decimal average of percentages is a percentage. *)
Lemma average_is_percentage {A} (f : A -> number) (l : list A) :
  (0 < length l)%nat -> (Z.of_nat (length l) < 2 ^ 32)%Z ->
  List.Forall (fun a => is_percentage (f a)) l ->
  is_percentage
    (div (Math_round
            (mul (div (fold_left (fun sum a => add sum (f a)) l (Fin 0))
                    (of_nat (length l)))
               (Fin 100)))
       (Fin 100)).
Proof.
  intros Hpos Hlen Hl.
  assert (Hbig : (100 * (0 + Z.of_nat (length l)) < 2 ^ 53)%Z).
  { change (2 ^ 32)%Z with 4294967296%Z in Hlen.
    change (2 ^ 53)%Z with 9007199254740992%Z. lia. }
  destruct (sum_of_percentages f l Hl 0 0 ltac:(lia) Hbig)
    as (s & -> & Hs); [split; apply Qle_refl |].
  pose proof (of_nat_pos _ Hpos) as Qn.
  unfold of_nat. rewrite div_pos_Fin by exact Qn.
  apply is_percentage_iff.
  change (div (Math_round (mul ?x (Fin 100))) (Fin 100))
    with (Formula.round2 x).
  apply (round2_between _ 0 100); try lia.
  - rewrite <- (round_int 0) by lia. apply round_mono.
    apply Qle_shift_div_l; [exact Qn |]. change (inject_Z 0) with 0.
    rewrite Qmult_0_l. exact (proj1 Hs).
  - rewrite <- (round_int 100) by lia. apply round_mono.
    apply Qle_shift_div_r; [exact Qn |].
    rewrite Z.add_0_l, inject_Z_mult in Hs. exact (proj2 Hs).
Qed.

Lemma extendedSummaryOf_spec (metrics : list NodeMetrics.t)
    (nodes : list PNode.t) :
  let s := extendedSummaryOf metrics nodes in
  let online := length (onlineNodes nodes) in
  ExtendedSummary.totalPNodes s = length metrics
  /\ (metrics = [] ->
      s = ExtendedSummary.mk 0 (Fin 0) (Fin 0) (Fin 0) (Fin 0) unstable)
  /\ is_percentage (ExtendedSummary.storagePressurePercent s)
  /\ ((Z.of_nat (length metrics) < 2 ^ 32)%Z ->
      List.Forall
        (fun m => is_percentage (NodeMetrics.uptime24h m)
                  /\ is_percentage (NodeMetrics.healthScore m))
        metrics ->
      is_percentage (ExtendedSummary.averageUptime24h s)
      /\ is_percentage (ExtendedSummary.averageHealthScore s))
  /\ ((online <= length metrics)%nat ->
      is_percentage (ExtendedSummary.onlinePercentage s))
  /\ ExtendedSummary.networkHealth s
     = networkHealthOf online (length metrics).
Proof.
  unfold extendedSummaryOf, networkHealthOf, onlinePercentageOf.
  fold (onlineNodes nodes).
  destruct metrics as [| m0 rest] eqn:Em.
  - cbn [length Nat.eqb Nat.ltb Nat.leb ExtendedSummary.totalPNodes
      ExtendedSummary.storagePressurePercent ExtendedSummary.averageUptime24h
      ExtendedSummary.averageHealthScore ExtendedSummary.onlinePercentage
      ExtendedSummary.networkHealth is_percentage].
    assert (H0 : 0 <= 0 <= 100) by lra.
    split; [reflexivity |]. split; [reflexivity |]. split; [exact H0 |].
    split; [intros _ _; split; exact H0 |]. split; [intros _; exact H0 |].
    reflexivity.
  - rewrite <- Em.
    assert (Hpos : (0 < length metrics)%nat) by (rewrite Em; simpl; lia).
    assert (E0 : (length metrics =? 0)%nat = false)
      by (apply Nat.eqb_neq; lia).
    assert (E1 : (0 <? length metrics)%nat = true) by now apply Nat.ltb_lt.
    rewrite E0, E1. cbn [ExtendedSummary.totalPNodes
      ExtendedSummary.storagePressurePercent ExtendedSummary.averageUptime24h
      ExtendedSummary.averageHealthScore ExtendedSummary.onlinePercentage
      ExtendedSummary.networkHealth].
    split; [reflexivity |]. split; [intros H; rewrite H in Hpos; simpl in Hpos; lia |].
    split.
    { rewrite share_as_round2. apply share_is_percentage; [exact Hpos |].
      apply filter_length_le. }
    split.
    { intros Hlen Hall. split; apply average_is_percentage; try assumption.
      - eapply List.Forall_impl; [| exact Hall]. now intros m [H _].
      - eapply List.Forall_impl; [| exact Hall]. now intros m [_ H]. }
    split; [| reflexivity].
    intros Hon. rewrite share_as_round2. now apply share_is_percentage.
Qed.

Lemma calculateUtilization_spec :
  (forall used, calculateUtilization used (Fin 0) = Fin 0)
  /\ (forall used total : Q,
         0 <= used <= total -> 0 < total ->
         is_percentage (calculateUtilization (Fin used) (Fin total)))
  /\ (forall used total : Q,
         0 < total <= used ->
         geb (calculateUtilization (Fin used) (Fin total)) (Fin 100) = true).
Proof.
  assert (Hpos : forall used total : Q,
            0 < total ->
            calculateUtilization (Fin used) (Fin total)
            = Formula.round2 (mul (round (used / total)) (Fin 100))).
  { intros used total Ht. unfold calculateUtilization. cbn [eqb].
    assert (E : Qeq_bool total 0 = false).
    { apply not_true_iff_false. rewrite Qeq_bool_iff. lra. }
    rewrite E, div_pos_Fin by exact Ht. apply share_as_round2. }
  assert (E0 : leb (Fin 0) (Formula.round2 (mul (round 0) (Fin 100))) = true)
    by (vm_compute; reflexivity).
  assert (E1 : leb (Formula.round2 (mul (round 1) (Fin 100))) (Fin 100) = true)
    by (vm_compute; reflexivity).
  assert (E2 : leb (Fin 100) (Formula.round2 (mul (round 1) (Fin 100))) = true)
    by (vm_compute; reflexivity).
  split; [| split].
  - intros used. reflexivity.
  - intros used total Hu Ht. rewrite (Hpos _ _ Ht).
    apply is_percentage_iff, between.
    + eapply leb_trans; [exact E0 |].
      apply round2_monotone, mul_mono; [reflexivity |].
      apply round_mono. apply Qle_shift_div_l; lra.
    + eapply leb_trans; [| exact E1].
      apply round2_monotone, mul_mono; [reflexivity |].
      apply round_mono. apply Qle_shift_div_r; lra.
  - intros used total Hu. rewrite (Hpos used total) by lra. unfold geb.
    eapply leb_trans; [exact E2 |].
    apply round2_monotone, mul_mono; [reflexivity |].
    apply round_mono. apply Qle_shift_div_l; lra.
Qed.

End DoubleMetrics.

(** ** Facts about the JavaScript primitives *)

Section JsFacts.


Lemma gtb_spec (a b : Q) : Js.gtb a b = true <-> b < a.
Proof.
  unfold Js.gtb. rewrite negb_true_iff, <- not_true_iff_false, Qle_bool_iff.
  split; [apply Qnot_le_lt | apply Qlt_not_le].
Qed.

Lemma leb_spec (a b : Q) : Js.leb a b = true <-> a <= b.
Proof. apply Qle_bool_iff. Qed.



Lemma gtb_false (a b : Q) : Js.gtb a b = false <-> a <= b.
Proof.
  rewrite <- not_true_iff_false, gtb_spec.
  split; [apply Qnot_lt_le | apply Qle_not_lt].
Qed.


Lemma Math_min_is_Qmin (a b : Q) : Math_min a b == Qmin a b.
Proof.
  unfold Math_min. destruct (Qle_bool a b) eqn:E.
  - apply Qle_bool_iff in E. symmetry. now apply Q.min_l.
  - apply not_true_iff_false in E. rewrite Qle_bool_iff in E.
    apply Qnot_le_lt in E. symmetry. apply Q.min_r. lra.
Qed.

Lemma Math_max_is_Qmax (a b : Q) : Math_max a b == Qmax a b.
Proof.
  unfold Math_max. destruct (Qle_bool b a) eqn:E.
  - apply Qle_bool_iff in E. symmetry. now apply Q.max_l.
  - apply not_true_iff_false in E. rewrite Qle_bool_iff in E.
    apply Qnot_le_lt in E. symmetry. apply Q.max_r. lra.
Qed.







#[export] Instance Math_round_Proper : Proper (Qeq ==> Qeq) Math_round.
Proof. intros x y E. unfold Math_round. now rewrite E. Qed.

#[export] Instance Math_min_Proper : Proper (Qeq ==> Qeq ==> Qeq) Math_min.
Proof. intros a a' Ea b b' Eb. rewrite !Math_min_is_Qmin. now rewrite Ea, Eb. Qed.

#[export] Instance Math_max_Proper : Proper (Qeq ==> Qeq ==> Qeq) Math_max.
Proof. intros a a' Ea b b' Eb. rewrite !Math_max_is_Qmax. now rewrite Ea, Eb. Qed.

Lemma num_or_Some (q d : Q) : ~ q == 0 -> num_or (Some q) d = q.
Proof.
  intros H. simpl. destruct (Qeq_bool q 0) eqn:E; [| reflexivity].
  apply Qeq_bool_iff in E. contradiction.
Qed.


Lemma truthy_num_spec (o : option Q) :
  truthy_num o = true <-> exists q, o = Some q /\ ~ q == 0.
Proof.
  destruct o as [q |]; simpl.
  - rewrite negb_true_iff, <- not_true_iff_false, Qeq_bool_iff.
    split; [intros H; exists q; auto | intros (q' & [= <-] & H); exact H].
  - split; [discriminate | intros (q & [=] & _)].
Qed.

Lemma truthy_str_spec (s : string) : truthy_str s = true <-> s <> ""%string.
Proof. destruct s; simpl; split; congruence. Qed.

End JsFacts.

(** ** Health score and tiers *)

Section HealthScore.



(** The claim of C10 as it is written fails on NaN: the score of a NaN
    uptime is NaN, which is neither at least 0 nor at most 100, and NaN
    has the tier Poor without being below 75. *)
Lemma healthScore_of_NaN :
  Double.calculateHealthScore Double.NaN (Double.Fin 0) true = Double.NaN
  /\ Double.geb (Double.calculateHealthScore Double.NaN (Double.Fin 0) true)
       (Double.Fin 0) = false
  /\ Double.leb (Double.calculateHealthScore Double.NaN (Double.Fin 0) true)
       (Double.Fin 100) = false
  /\ Double.getNodeTier Double.NaN = Poor
  /\ Double.ltb Double.NaN (Double.Fin 75) = false.
Proof. repeat split. Qed.

(** C10, amended: over doubles the health score of numbers that are not
    NaN is a number between 0 and 100; the tier of a score is Excellent
    exactly from 90, Good exactly from 75 up to 90, and Poor exactly when
    the score is below 75 or NaN; an offline node whose 24h uptime is at
    most 100 is never Excellent, and scores at most 80 when its
    utilization is a number.  The score is the one the doubles give: an
    online node with an uptime share of 0.25 and a utilization of 3 scores
    49.22. *)
Theorem healthScore_bounds_and_tiers :
  (forall uptime24h storageUtilization o,
      uptime24h <> Double.NaN -> storageUtilization <> Double.NaN ->
      exists q,
        Double.calculateHealthScore uptime24h storageUtilization o
        = Double.Fin q
        /\ 0 <= q <= 100)
  /\ (forall n,
         (Double.getNodeTier n = Excellent
          <-> Double.geb n (Double.Fin 90) = true)
         /\ (Double.getNodeTier n = Good
             <-> Double.geb n (Double.Fin 75) = true
                 /\ Double.ltb n (Double.Fin 90) = true)
         /\ (Double.getNodeTier n = Poor
             <-> Double.ltb n (Double.Fin 75) = true \/ n = Double.NaN))
  /\ (forall uptime24h storageUtilization,
         Double.leb uptime24h (Double.Fin 100) = true ->
         Double.getNodeTier
           (Double.calculateHealthScore uptime24h storageUtilization false)
         <> Excellent
         /\ (storageUtilization <> Double.NaN ->
             exists q,
               Double.calculateHealthScore uptime24h storageUtilization false
               = Double.Fin q
               /\ 0 <= q <= 80))
  /\ Double.calculateHealthScore (Double.lit (1 # 4)) (Double.Fin 3) true
     = Double.lit (4922 # 100).
Proof.
  split; [exact calculateHealthScore_in_range |].
  split; [exact getNodeTier_cases |].
  split; [| vm_compute; reflexivity].
  intros u s Hu.
  assert (Hoff : s <> Double.NaN ->
            exists q, Double.calculateHealthScore u s false = Double.Fin q
                      /\ 0 <= q <= 80)
    by (intros Hs; now apply calculateHealthScore_offline).
  split; [| exact Hoff].
  rewrite (proj1 (getNodeTier_cases _)).
  destruct s as [| sg | q].
  - rewrite calculateHealthScore_eq.
    cbn [Double.Math_max Double.Math_min Double.sub Double.opp Double.add
         Double.mul].
    destruct (Double.mul u (Double.lit (1 # 2))); discriminate.
  - destruct Hoff as (y & -> & Hy); [discriminate |].
    unfold Double.geb. cbn [Double.leb]. intros H.
    apply Qle_bool_iff in H. lra.
  - destruct Hoff as (y & -> & Hy); [discriminate |].
    unfold Double.geb. cbn [Double.leb]. intros H.
    apply Qle_bool_iff in H. lra.
Qed.

Lemma healthScore_bounds_and_tiers_witness :
  Double.leb (Double.Fin 100) (Double.Fin 100) = true
  /\ Double.getNodeTier
       (Double.calculateHealthScore (Double.Fin 100) (Double.Fin 0) false)
     <> Excellent
  /\ exists q,
       Double.calculateHealthScore (Double.Fin 100) (Double.Fin 0) false
       = Double.Fin q
       /\ 0 <= q <= 80.
Proof.
  split; [reflexivity |].
  destruct (proj1 (proj2 (proj2 healthScore_bounds_and_tiers))
              (Double.Fin 100) (Double.Fin 0) eq_refl) as [H1 H2].
  split; [exact H1 | apply H2; discriminate].
Defined.

End HealthScore.

(** ** The node normalizer *)

Section Normalizer.

Lemma Date_toISOString_ok (ms : Z) :
  (- MAX_TIME_VALUE <= ms <= MAX_TIME_VALUE)%Z -> Date_toISOString ms = Ok ms.
Proof.
  intros [H1 H2]. unfold Date_toISOString.
  apply Z.leb_le in H1, H2. now rewrite H1, H2.
Qed.

Lemma normalizePNode_ok (thr now_ms : Z) (pod : Pod.t) :
  valid_timestamp pod -> is_ok (normalizePNode thr now_ms pod) = true.
Proof.
  intros Hv. unfold normalizePNode.
  rewrite Date_toISOString_ok; [reflexivity |].
  unfold valid_timestamp, MAX_TIME_VALUE in *. lia.
Qed.

(** Outside that range [toISOString] throws, and [normalizePNode] with it;
    this is the case its callers catch. *)
Lemma normalizePNode_throws (thr now_ms : Z) (pod : Pod.t) :
  ~ valid_timestamp pod -> is_ok (normalizePNode thr now_ms pod) = false.
Proof.
  intros Hv. unfold normalizePNode, Date_toISOString, MAX_TIME_VALUE.
  destruct (_ && _) eqn:E; [| reflexivity].
  apply andb_true_iff in E as [H1 H2]. apply Z.leb_le in H1, H2.
  exfalso. apply Hv. unfold valid_timestamp. lia.
Qed.

(** The fields of a normalized node. *)
Lemma normalizePNode_fields (thr now_ms : Z) (pod : Pod.t) (n : PNode.t) :
  normalizePNode thr now_ms pod = Ok n ->
  PNode.pubkey n = str_or (Pod.pubkey pod) ""
  /\ PNode.status n = (if isOnline thr now_ms pod then online else offline)
  /\ PNode.storageTotal n = storageTotal pod
  /\ PNode.uptime n = uptime30dNormalized pod
  /\ PNode.storageUsed n = num_or (Pod.storage_used pod) 0
  /\ PNode.address n = Pod.address pod.
Proof.
  unfold normalizePNode. destruct (Date_toISOString _); [| discriminate].
  intros [= <-]. simpl. repeat split.
Qed.

Lemma normalizePNode_returns (thr now_ms : Z) (pod : Pod.t) :
  valid_timestamp pod -> exists n, normalizePNode thr now_ms pod = Ok n.
Proof.
  intros Hv. pose proof (normalizePNode_ok thr now_ms pod Hv) as Hok.
  destruct (normalizePNode thr now_ms pod) as [n | e]; [| discriminate].
  now exists n.
Qed.

Lemma normalizePNode_status (thr now_ms : Z) (pod : Pod.t) (n : PNode.t) :
  normalizePNode thr now_ms pod = Ok n ->
  (PNode.status n = online
   <-> (now_ms / 1000 - Pod.last_seen_timestamp pod <= thr)%Z).
Proof.
  intros E. destruct (normalizePNode_fields _ _ _ _ E) as (_ & -> & _).
  unfold isOnline, thresholdTime.
  destruct (_ <=? _)%Z eqn:L.
  - apply Z.leb_le in L. split; [lia | reflexivity].
  - apply Z.leb_gt in L. split; [discriminate | lia].
Qed.

(** C5: [normalizePNode] is a function of its inputs that returns a node
    for every well-formed record, one whose timestamp is a time value of
    [Date]; a missing or empty pubkey becomes the empty pubkey. *)
Theorem normalizePNode_total (thr now_ms : Z) (pod : Pod.t) :
  valid_timestamp pod ->
  exists n,
    normalizePNode thr now_ms pod = Ok n
    /\ PNode.pubkey n = str_or (Pod.pubkey pod) ""
    /\ (Pod.pubkey pod = None \/ Pod.pubkey pod = Some ""%string ->
        PNode.pubkey n = ""%string).
Proof.
  intros Hv. destruct (normalizePNode_returns thr now_ms pod Hv) as [n E].
  exists n. destruct (normalizePNode_fields _ _ _ _ E) as (Hpk & _).
  split; [exact E |]. split; [exact Hpk |].
  rewrite Hpk. intros [-> | ->]; reflexivity.
Qed.

Lemma normalizePNode_total_witness :
  exists n,
    normalizePNode 300 1700000000000 (scenario_pod 1699999990) = Ok n
    /\ PNode.pubkey n = "abc"%string.
Proof.
  destruct (normalizePNode_total 300 1700000000000 (scenario_pod 1699999990))
    as (n & E & Hpk & _).
  - unfold valid_timestamp. simpl. lia.
  - exists n. split; [exact E | exact Hpk].
Defined.

(** C7: a normalized node is online exactly when
    [now - last_seen_timestamp <= ONLINE_THRESHOLD_SECONDS], [now] being
    the clock in whole seconds; the threshold defaults to 300, for which
    [now - 300] is online and [now - 301] is offline. *)
Theorem online_threshold :
  (forall thr now_ms pod n,
      normalizePNode thr now_ms pod = Ok n ->
      (PNode.status n = online
       <-> (now_ms / 1000 - Pod.last_seen_timestamp pod <= thr)%Z))
  /\ ONLINE_THRESHOLD_SECONDS_of None = 300%Z
  /\ (forall now_ms pod n,
         normalizePNode (ONLINE_THRESHOLD_SECONDS_of None) now_ms pod = Ok n ->
         (Pod.last_seen_timestamp pod = now_ms / 1000 - 300 ->
          PNode.status n = online)%Z
         /\ (Pod.last_seen_timestamp pod = now_ms / 1000 - 301 ->
             PNode.status n = offline)%Z).
Proof.
  split; [exact normalizePNode_status |]. split; [reflexivity |].
  intros now_ms pod n E.
  pose proof (normalizePNode_status _ _ _ _ E) as Hiff. simpl in Hiff. split.
  - intros Hts. apply Hiff. lia.
  - intros Hts. destruct (PNode.status n); [| reflexivity].
    assert (H : (now_ms / 1000 - Pod.last_seen_timestamp pod <= 300)%Z)
      by now apply Hiff.
    lia.
Qed.

Lemma online_threshold_witness :
  exists n,
    normalizePNode 300 1700000000000 (scenario_pod 1699999700) = Ok n
    /\ PNode.status n = online.
Proof.
  eexists. split; [reflexivity |].
  eapply (proj1 (proj2 (proj2 online_threshold) 1700000000000%Z
                   (scenario_pod 1699999700) _ eq_refl)).
  reflexivity.
Defined.

End Normalizer.

Section Uptime.





End Uptime.

Section StorageTotal.

Lemma or_zero_truthy (o : option Double.number) :
  Double.truthy_num o = true -> o = Some (Double.or_zero o).
Proof.
  destruct o as [v |]; [| discriminate]. unfold Double.or_zero.
  now intros ->.
Qed.

Lemma or_zero_falsy (o : option Double.number) :
  Double.truthy_num o = false -> Double.or_zero o = Double.Fin 0.
Proof.
  destruct o as [v |]; [| reflexivity]. unfold Double.or_zero.
  now intros ->.
Qed.

Lemma gtb_zero_falsy (p : Double.number) :
  Double.truthy_num (Some p) = false ->
  Double.gtb p (Double.Fin 0) = false.
Proof.
  destruct p as [| s | q]; cbn; try discriminate; [reflexivity |].
  intros H. apply negb_false_iff in H. unfold Double.is_zero in H.
  apply Qeq_bool_iff in H. apply negb_false_iff, Qle_bool_iff. lra.
Qed.

(** Computed back from no usage, the capacity is 0. *)
Lemma back_computed_from_zero (p : Double.number) :
  Double.gtb p (Double.Fin 0) && Double.leb p (Double.Fin 100) = true ->
  Double.Math_round
    (Double.div (Double.mul (Double.Fin 0) (Double.Fin 100)) p)
  = Double.Fin 0.
Proof.
  intros H. apply andb_true_iff in H as [H1 H2].
  destruct p as [| s | q]; [discriminate | destruct s; discriminate |].
  apply ltb_Fin in H1. cbn [Double.mul].
  rewrite (round_zero (0 * 100)) by reflexivity.
  rewrite div_pos_Fin by exact H1.
  rewrite (round_zero (0 / q)) by (unfold Qdiv; ring).
  reflexivity.
Qed.

(** Without a usable commitment the code and the specification compute
    back alike. *)
Lemma storageTotal_back_computed (pod : Double.Pod.t) :
  Double.truthy_num (Double.Pod.storage_committed pod) = false ->
  Double.storageTotal pod
  = match Double.Pod.storage_usage_percent pod with
    | Some p =>
        if Double.gtb p (Double.Fin 0) && Double.leb p (Double.Fin 100)
        then Double.Math_round
               (Double.div
                  (Double.mul (Double.or_zero (Double.Pod.storage_used pod))
                     (Double.Fin 100)) p)
        else Double.Fin 0
    | None => Double.Fin 0
    end.
Proof.
  intros Hc. unfold Double.storageTotal. rewrite Hc.
  destruct (Double.Pod.storage_usage_percent pod) as [p |] eqn:Ep;
    [| now rewrite andb_false_r].
  destruct (Double.truthy_num (Some p)) eqn:Tp.
  - rewrite andb_true_r.
    assert (Ev : Double.or_zero (Some p) = p)
      by (apply or_zero_truthy in Tp; congruence).
    rewrite Ev.
    destruct (Double.truthy_num (Double.Pod.storage_used pod)) eqn:Tu;
      [reflexivity |].
    rewrite (or_zero_falsy _ Tu).
    destruct (Double.gtb p (Double.Fin 0) && Double.leb p (Double.Fin 100))
      eqn:Er; [| reflexivity].
    symmetry. now apply back_computed_from_zero.
  - rewrite andb_false_r, (gtb_zero_falsy p Tp). reflexivity.
Qed.

Lemma storageTotal_agrees (pod : Double.Pod.t) :
  (forall c, Double.Pod.storage_committed pod = Some c ->
             Double.ltb c (Double.Fin 0) = false) ->
  Double.storageTotal pod = Double.claimed_storageTotal pod.
Proof.
  intros Hneg. unfold Double.claimed_storageTotal.
  destruct (Double.Pod.storage_committed pod) as [c |] eqn:Ec.
  - specialize (Hneg c eq_refl).
    destruct (Double.truthy_num (Some c)) eqn:Tc.
    + assert (Hpos : Double.gtb c (Double.Fin 0) = true).
      { destruct c as [| s | q]; [discriminate | |].
        - cbn in Hneg |- *. now rewrite Hneg.
        - cbn in Tc, Hneg. apply negb_true_iff in Tc.
          unfold Double.is_zero in Tc. apply not_true_iff_false in Tc.
          rewrite Qeq_bool_iff in Tc. apply negb_false_iff in Hneg.
          apply Qle_bool_iff in Hneg. apply ltb_Fin. 
          destruct (Qlt_le_dec 0 q) as [H | H]; [exact H |].
          exfalso. apply Tc. lra. }
      rewrite Hpos. unfold Double.storageTotal. rewrite Ec, Tc.
      apply or_zero_truthy in Tc. congruence.
    + rewrite (gtb_zero_falsy c Tc). apply storageTotal_back_computed.
      now rewrite Ec.
  - apply storageTotal_back_computed. now rewrite Ec.
Qed.

(** C3: the code takes a committed storage that is truthy, not one that
    is positive: for the record with [storage_committed = -5],
    [storage_used = 50] and [storage_usage_percent = 50] it returns -5
    where the stated priority computes back 100.  On every record whose
    committed storage is not negative the code follows the stated
    priority, computed in doubles: 70 TB used at 3 percent give
    2333333333333334. *)
Theorem storageTotal_negative_commitment :
  Double.storageTotal (parsed negative_committed_pod) = Double.Fin (-5)
  /\ Double.claimed_storageTotal (parsed negative_committed_pod)
     = Double.Fin 100
  /\ (forall pod,
         (forall c, Double.Pod.storage_committed pod = Some c ->
                    Double.ltb c (Double.Fin 0) = false) ->
         Double.storageTotal pod = Double.claimed_storageTotal pod)
  /\ Double.storageTotal (parsed back_computed_pod)
     = Double.Fin 2333333333333334.
Proof.
  split; [vm_compute; reflexivity |].
  split; [vm_compute; reflexivity |].
  split; [exact storageTotal_agrees |].
  vm_compute. reflexivity.
Qed.

Lemma storageTotal_negative_commitment_witness :
  Double.storageTotal (parsed back_computed_pod)
  = Double.claimed_storageTotal (parsed back_computed_pod).
Proof.
  apply (proj1 (proj2 (proj2 storageTotal_negative_commitment))).
  intros c H. discriminate H.
Defined.

End StorageTotal.

(** ** Per-node metrics against the formula of the specification *)

Section MetricsOverDoubles.

Import Double.

Lemma nodeMetricsOf_formula (nodes : list PNode.t) (pod : Pod.t)
    (m : NodeMetrics.t) :
  nodeMetricsOf nodes pod = Some m ->
  exists pk node,
    Pod.pubkey pod = Some pk /\ pk <> ""%string
    /\ List.find (fun n => String.eqb (PNode.pubkey n) pk) nodes = Some node
    /\ NodeMetrics.pubkey m = pk
    /\ NodeMetrics.uptime24h m = Formula.uptime24h (or_zero (Pod.uptime pod))
    /\ NodeMetrics.storageUtilization m
       = Formula.storageUtilization (or_zero (Pod.storage_used pod))
           (or_zero (Pod.storage_committed pod))
    /\ NodeMetrics.healthScore m
       = Formula.healthScore
           (Formula.uptime24h (or_zero (Pod.uptime pod)))
           (Formula.storageUtilization (or_zero (Pod.storage_used pod))
              (or_zero (Pod.storage_committed pod)))
           (PNodeStatus_eqb (PNode.status node) online)
    /\ NodeMetrics.tier m = getNodeTier (NodeMetrics.healthScore m).
Proof.
  unfold nodeMetricsOf.
  destruct (Pod.pubkey pod) as [pk |]; [| discriminate].
  destruct (List.find _ nodes) as [node |] eqn:Ef; [| discriminate].
  destruct (truthy_str pk) eqn:Et; [| discriminate].
  cbn [negb]. intros [= <-]. exists pk, node. cbn.
  split; [reflexivity |]. split; [now apply truthy_str_spec |].
  split; [exact Ef |]. split; [reflexivity |].
  split; [apply calculateUptime24h_formula |].
  split; [reflexivity |]. split; [| reflexivity].
  rewrite calculateUptime24h_formula.
  apply (calculateHealthScore_formula _ _ _
           (storageUtilization_canonical _ _)).
Qed.

Lemma nodeMetricsOf_is_Some (nodes : list PNode.t) (pod : Pod.t)
    (pk : string) (node : PNode.t) :
  Pod.pubkey pod = Some pk -> pk <> ""%string ->
  List.find (fun n => String.eqb (PNode.pubkey n) pk) nodes = Some node ->
  is_Some (nodeMetricsOf nodes pod).
Proof.
  intros Hpk Hne Hf. unfold nodeMetricsOf. rewrite Hpk, Hf.
  apply truthy_str_spec in Hne. rewrite Hne. cbn [negb]. eauto.
Qed.

End MetricsOverDoubles.

Section Metrics.

(** C1: over doubles every derived metric comes from a record with a
    non-empty pubkey and the first node with that pubkey, and its fields
    are the formula of the specification evaluated with the same
    operations: [uptime24h = clamp(u/86400*100, 0, 100)],
    [storageUtilization = sc > 0 ? round2(su/sc*100) : 0],
    [healthScore = round2(clamp(uptime24h*0.5 + (100 - clamp(util,0,100))*0.3
    + (o ? 100 : 0)*0.2, 0, 100))], where a missing, zero or NaN field
    counts as 0; every such record gets a metric; the record of the
    scenario, seen 10 seconds ago, yields 50, 50, 60 and Poor; and the
    record with 201 of 800 bytes used, up for 56214 seconds and online,
    yields 25.12, 75 and Good. *)
Theorem metrics_follow_formula :
  (forall pods nodes m,
      m ∈ Double.computeNodeMetricsFromData pods nodes ->
      exists pod pk node,
        pod ∈ pods /\ Double.Pod.pubkey pod = Some pk /\ pk <> ""%string
        /\ List.find (fun n => String.eqb (PNode.pubkey n) pk) nodes = Some node
        /\ Double.NodeMetrics.pubkey m = pk
        /\ Double.NodeMetrics.uptime24h m
           = Double.Formula.uptime24h (Double.or_zero (Double.Pod.uptime pod))
        /\ Double.NodeMetrics.storageUtilization m
           = Double.Formula.storageUtilization
               (Double.or_zero (Double.Pod.storage_used pod))
               (Double.or_zero (Double.Pod.storage_committed pod))
        /\ Double.NodeMetrics.healthScore m
           = Double.Formula.healthScore
               (Double.Formula.uptime24h
                  (Double.or_zero (Double.Pod.uptime pod)))
               (Double.Formula.storageUtilization
                  (Double.or_zero (Double.Pod.storage_used pod))
                  (Double.or_zero (Double.Pod.storage_committed pod)))
               (PNodeStatus_eqb (PNode.status node) online)
        /\ Double.NodeMetrics.tier m
           = Double.getNodeTier (Double.NodeMetrics.healthScore m))
  /\ (forall pods nodes pod pk node,
         pod ∈ pods -> Double.Pod.pubkey pod = Some pk -> pk <> ""%string ->
         List.find (fun n => String.eqb (PNode.pubkey n) pk) nodes = Some node ->
         exists m, m ∈ Double.computeNodeMetricsFromData pods nodes
                   /\ Double.nodeMetricsOf nodes pod = Some m)
  /\ (forall now_ms,
         (0 <= now_ms <= MAX_TIME_VALUE)%Z ->
         let pod := scenario_pod (now_ms / 1000 - 10) in
         exists node,
           normalizePNode (ONLINE_THRESHOLD_SECONDS_of None) now_ms pod = Ok node
           /\ PNode.status node = online
           /\ Double.computeNodeMetricsFromData [parsed pod] [node]
              = [ {| Double.NodeMetrics.pubkey := "abc";
                     Double.NodeMetrics.healthScore := Double.Fin 60;
                     Double.NodeMetrics.uptime24h := Double.Fin 50;
                     Double.NodeMetrics.storageUtilization := Double.Fin 50;
                     Double.NodeMetrics.tier := Poor |} ])
  /\ Double.computeNodeMetricsFromData [parsed boundary_pod]
       [node_of "abc" online]
     = [ {| Double.NodeMetrics.pubkey := "abc";
            Double.NodeMetrics.healthScore := Double.Fin 75;
            Double.NodeMetrics.uptime24h := Double.lit (650625 # 10000);
            Double.NodeMetrics.storageUtilization := Double.lit (2512 # 100);
            Double.NodeMetrics.tier := Good |} ].
Proof.
  split; [| split; [| split]].
  - intros pods nodes m Hin. unfold Double.computeNodeMetricsFromData in Hin.
    apply list_elem_of_omap in Hin as (pod & Hpod & Hm).
    destruct (nodeMetricsOf_formula _ _ _ Hm) as (pk & node & H).
    exists pod, pk, node. tauto.
  - intros pods nodes pod pk node Hin Hpk Hne Hf.
    destruct (nodeMetricsOf_is_Some nodes pod pk node Hpk Hne Hf) as [m Hm].
    exists m. split; [| exact Hm].
    unfold Double.computeNodeMetricsFromData. apply list_elem_of_omap. eauto.
  - intros now_ms Hnow pod.
    assert (Hv : valid_timestamp pod).
    { unfold valid_timestamp, pod, scenario_pod, MAX_TIME_VALUE in *. simpl.
      pose proof (Z.div_le_upper_bound now_ms 1000 8640000000000).
      pose proof (Z.div_pos now_ms 1000). lia. }
    destruct (normalizePNode_returns 300 now_ms pod Hv) as (node & E).
    destruct (normalizePNode_fields _ _ _ _ E) as (Hpk & _).
    assert (Hon : PNode.status node = online).
    { apply (normalizePNode_status _ _ _ _ E). simpl. lia. }
    exists node. split; [exact E |]. split; [exact Hon |].
    clear E. destruct node. cbn in Hpk, Hon. subst.
    vm_compute. reflexivity.
  - vm_compute. reflexivity.
Qed.

Lemma metrics_follow_formula_witness :
  exists node,
    normalizePNode 300 1700000000000 (scenario_pod 1699999990) = Ok node
    /\ Double.computeNodeMetricsFromData [parsed (scenario_pod 1699999990)]
         [node]
       = [ {| Double.NodeMetrics.pubkey := "abc";
              Double.NodeMetrics.healthScore := Double.Fin 60;
              Double.NodeMetrics.uptime24h := Double.Fin 50;
              Double.NodeMetrics.storageUtilization := Double.Fin 50;
              Double.NodeMetrics.tier := Poor |} ].
Proof.
  destruct (proj1 (proj2 (proj2 metrics_follow_formula)) 1700000000000%Z)
    as (node & E & _ & Hm).
  - unfold MAX_TIME_VALUE. lia.
  - exists node. split; [exact E | exact Hm].
Defined.

End Metrics.

(** ** The tiered cache when the remote tier is down *)

Section CacheFallback.

Context {V : Type}.
Variable truthy : V -> bool.
Variable keyPrefix : string.

Lemma getFromRedis_down (st : Cache.State V) (now : Z) (key : string) :
  remote_down st -> Cache.getFromRedis st now key = None.
Proof.
  unfold Cache.getFromRedis, Cache.redisClient_get.
  intros [H | [H | H]]; rewrite H; simpl; try reflexivity.
  - now rewrite orb_true_r.
  - destruct (_ || _); reflexivity.
Qed.

Lemma setInRedis_down (st : Cache.State V) (now : Z) (key : string) (v : V)
    (ttlSeconds : Z) :
  remote_down st -> Cache.setInRedis st now key v ttlSeconds = st.
Proof.
  unfold Cache.setInRedis, Cache.redisClient_setex.
  intros [H | [H | H]]; rewrite H; simpl; try reflexivity.
  - now rewrite orb_true_r.
  - destruct (_ || _); reflexivity.
Qed.

Lemma cacheService_get_set (es : gmap string (Cache.Entry V)) (now later : Z)
    (key : string) (v : V) (ttlMs : Z) :
  (later <= now + ttlMs)%Z ->
  Cache.cacheService_get (Cache.cacheService_set es now key v ttlMs) later key
  = Some v.
Proof.
  intros H. unfold Cache.cacheService_get, Cache.live, Cache.cacheService_set.
  rewrite lookup_insert_eq. simpl.
  destruct (_ <? _)%Z eqn:E; [| reflexivity].
  apply Z.ltb_lt in E. lia.
Qed.

Lemma get_down (st : Cache.State V) (now : Z) (key : string) :
  remote_down st ->
  Cache.get truthy keyPrefix st now key
  = Cache.cacheService_get (Cache.entries st) now key.
Proof.
  intros H. unfold Cache.get. now rewrite getFromRedis_down.
Qed.

Lemma set_down (st : Cache.State V) (now : Z) (key : string) (v : V)
    (ttlMs : Z) :
  remote_down st ->
  Cache.set keyPrefix st now key v ttlMs
  = Cache.mkState (Cache.redisClient st) (Cache.redisAvailable st)
      (Cache.server st)
      (Cache.cacheService_set (Cache.entries st) now key v ttlMs).
Proof.
  intros H. unfold Cache.set. now rewrite setInRedis_down.
Qed.

(** C8: with the remote tier down, [set(key, value, ttl)] completes with
    the remote write dropped and the local entry written, and a [get(key)]
    made before the entry expires, the remote tier still down, returns
    the written value from the local tier. *)
Theorem cache_fallback (st : Cache.State V) (now later : Z) (key : string)
    (v : V) (ttlMs : Z) :
  remote_down st ->
  (now <= later < now + ttlMs)%Z ->
  let st' := Cache.set keyPrefix st now key v ttlMs in
  remote_down st'
  /\ Cache.server st' = Cache.server st
  /\ Cache.getFromRedis st' later (keyPrefix ++ key) = None
  /\ Cache.cacheService_get (Cache.entries st') later key = Some v
  /\ Cache.get truthy keyPrefix st' later key = Some v.
Proof.
  intros Hdown Ht st'. subst st'. rewrite (set_down _ _ _ _ _ Hdown).
  assert (Hdown' : remote_down
                     (Cache.mkState (Cache.redisClient st)
                        (Cache.redisAvailable st) (Cache.server st)
                        (Cache.cacheService_set (Cache.entries st) now key v
                           ttlMs))) by exact Hdown.
  split; [exact Hdown' |]. split; [reflexivity |].
  split; [now apply getFromRedis_down |].
  assert (Hl : Cache.cacheService_get
                 (Cache.cacheService_set (Cache.entries st) now key v ttlMs)
                 later key = Some v) by (apply cacheService_get_set; lia).
  split; [exact Hl |].
  rewrite (get_down _ _ _ Hdown'). exact Hl.
Qed.

End CacheFallback.

Lemma cache_fallback_witness :
  Cache.get (fun n => negb (n =? 0)%nat) Cache.REDIS_KEY_PREFIX_NODES
    (Cache.set Cache.REDIS_KEY_PREFIX_NODES unreachable_cache 1000 "pnodes" 7%nat
       30000)
    2000 "pnodes"
  = Some 7%nat.
Proof.
  apply (cache_fallback (fun n => negb (n =? 0)%nat) Cache.REDIS_KEY_PREFIX_NODES
           unreachable_cache 1000 2000 "pnodes" 7%nat 30000).
  - right. right. reflexivity.
  - lia.
Defined.

(** ** Rules of the program logic *)

Section Hoare.

Context {A B : Type}.

Lemma hoare_bind (P : World -> Prop) (m : M A) (k : A -> M B)
    (R : A -> World -> Prop) (Q : result B -> World -> Prop) :
  hoare P m (fun r w => match r with Ok a => R a w | Throw e => Q (Throw e) w end) ->
  (forall a, hoare (R a) (k a) Q) ->
  hoare P (bind m k) Q.
Proof.
  intros Hm Hk w Hw. specialize (Hm w Hw). unfold bind.
  destruct (m w) as [[a | e] w']; simpl in *.
  - now apply Hk.
  - exact Hm.
Qed.

Lemma hoare_try_catch (P : World -> Prop) (m : M A) (h : string -> M A)
    (R : string -> World -> Prop) (Q : result A -> World -> Prop) :
  hoare P m (fun r w => match r with Ok a => Q (Ok a) w | Throw e => R e w end) ->
  (forall e, hoare (R e) (h e) Q) ->
  hoare P (try_catch m h) Q.
Proof.
  intros Hm Hh w Hw. specialize (Hm w Hw). unfold try_catch.
  destruct (m w) as [[a | e] w']; simpl in *.
  - exact Hm.
  - now apply Hh.
Qed.

End Hoare.

(** ** Discovery *)

Section Discovery.

Variable thr : Z.

Lemma pushNormalized_nonempty (t : Z) (acc : list PNode.t) (pod : Pod.t) :
  Forall nonempty_pubkey acc ->
  Forall nonempty_pubkey (pushNormalized thr t acc pod).
Proof.
  intros H. unfold pushNormalized.
  destruct (normalizePNode thr t pod) as [n | e]; [| exact H].
  destruct (truthy_str (PNode.pubkey n)) eqn:E; [| exact H].
  apply Forall_app. split; [exact H |].
  constructor; [| constructor]. now apply truthy_str_spec.
Qed.

Lemma fold_pushNormalized_nonempty (t : Z) (l : list Pod.t)
    (acc : list PNode.t) :
  Forall nonempty_pubkey acc ->
  Forall nonempty_pubkey (fold_left (pushNormalized thr t) l acc).
Proof.
  revert acc. induction l as [| pod l IH]; intros acc H; simpl; [exact H |].
  apply IH, pushNormalized_nonempty, H.
Qed.

(** The seed loop returns, in the same world, and adds only nodes with a
    pubkey. *)
Lemma trySeeds_returns (seeds : list string) (acc : list PNode.t) (w : World) :
  exists l, trySeeds thr seeds acc w = (Ok l, w)
            /\ (Forall nonempty_pubkey acc -> Forall nonempty_pubkey l).
Proof.
  revert acc. induction seeds as [| ip rest IH]; intros acc; simpl.
  - exists acc. split; [reflexivity | auto].
  - destruct (length acc =? 0)%nat; [| exists acc; split; [reflexivity | auto]].
    unfold bind, try_catch, call, iterable, pushAll, ret, throw.
    destruct (seed_getPods (prpc w) ip) as [[[l |]] | e]; simpl.
    + destruct (0 <? length _)%nat.
      * eexists. split; [reflexivity |].
        intros H. now apply fold_pushNormalized_nonempty.
      * destruct (IH (fold_left (pushNormalized thr (now w)) l acc))
          as (l' & -> & Hl').
        exists l'. split; [reflexivity |].
        intros H. now apply Hl', fold_pushNormalized_nonempty.
    + destruct (0 <? length acc)%nat; [exists acc; split; [reflexivity | auto] |].
      apply IH.
    + destruct (0 <? length acc)%nat; [exists acc; split; [reflexivity | auto] |].
      apply IH.
Qed.

Lemma trySeeds_down (seeds : list string) (w : World) :
  upstream_down (prpc w) -> trySeeds thr seeds [] w = (Ok [], w).
Proof.
  intros (_ & _ & Hseed). induction seeds as [| ip rest IH]; simpl;
    [reflexivity |].
  unfold bind, try_catch, call. specialize (Hseed ip).
  destruct (seed_getPods (prpc w) ip) as [r | e]; [discriminate |].
  simpl. exact IH.
Qed.

Lemma discoverPNodesViaGossip_returns (w : World) :
  exists l, discoverPNodesViaGossip thr w = (Ok l, w)
            /\ Forall nonempty_pubkey l.
Proof.
  unfold discoverPNodesViaGossip. generalize (drop 1 SEED_IPS) as seeds.
  intros seeds. unfold bind at 1.
  assert (Hprimary :
            exists l,
              try_catch
                (bind (try_catch (call getPodsWithStats) (fun _ => call getPods))
                   (fun response =>
                      bind (iterable response) (fun l => pushAll thr [] l)))
                (fun _ => ret []) w = (Ok l, w)
              /\ Forall nonempty_pubkey l).
  { unfold bind, try_catch, call, iterable, pushAll, ret, throw.
    destruct (getPodsWithStats (prpc w)) as [[[l |]] | e]; simpl.
    - eexists. split; [reflexivity |].
      apply fold_pushNormalized_nonempty. constructor.
    - exists []. split; [reflexivity | constructor].
    - destruct (getPods (prpc w)) as [[[l |]] | e']; simpl.
      + eexists. split; [reflexivity |].
        apply fold_pushNormalized_nonempty. constructor.
      + exists []. split; [reflexivity | constructor].
      + exists []. split; [reflexivity | constructor]. }
  destruct Hprimary as (l & -> & Hl).
  destruct (0 <? length l)%nat.
  - exists l. split; [reflexivity | exact Hl].
  - destruct (trySeeds_returns seeds l w) as (l' & -> & Hl').
    exists l'. split; [reflexivity | auto].
Qed.

Lemma discoverPNodesViaGossip_down (w : World) :
  upstream_down (prpc w) -> discoverPNodesViaGossip thr w = (Ok [], w).
Proof.
  intros Hd. pose proof Hd as (H1 & H2 & _).
  unfold discoverPNodesViaGossip. generalize (drop 1 SEED_IPS) as seeds.
  intros seeds. unfold bind at 1.
  unfold try_catch at 1. unfold bind at 1. unfold try_catch at 1.
  unfold call.
  destruct (getPodsWithStats (prpc w)) as [r | e]; [discriminate |].
  destruct (getPods (prpc w)) as [r | e']; [discriminate |].
  simpl. apply (trySeeds_down seeds w Hd).
Qed.

End Discovery.

(** ** Deduplication *)

Section Dedup.

Lemma existsb_eqb_elem_of (k : string) (seen : list string) :
  existsb (String.eqb k) seen = true <-> k ∈ seen.
Proof.
  rewrite existsb_exists. split.
  - intros (x & Hin & E). apply String.eqb_eq in E. subst x.
    now apply list_elem_of_In.
  - intros Hin. exists k. split; [now apply list_elem_of_In |].
    apply String.eqb_refl.
Qed.

(** The loop with its [Map] computes the first occurrences. *)
Lemma fold_dedupStep (nodes : list PNode.t) (seen : gmap string PNode.t)
    (seenl : list string) (acc : list PNode.t) :
  (forall k, is_Some (seen !! k) <-> k ∈ seenl) ->
  snd (fold_left dedupStep nodes (seen, acc))
  = (acc ++ firstOccurrences seenl nodes)%list.
Proof.
  revert seen seenl acc.
  induction nodes as [| node rest IH]; intros seen seenl acc Hrel; simpl.
  - now rewrite app_nil_r.
  - destruct (truthy_str (PNode.pubkey node)) eqn:Et; simpl.
    + destruct (seen !! PNode.pubkey node) as [old |] eqn:El.
      * assert (He : existsb (String.eqb (PNode.pubkey node)) seenl = true).
        { apply existsb_eqb_elem_of, Hrel. eauto. }
        rewrite He. now apply IH.
      * assert (He : existsb (String.eqb (PNode.pubkey node)) seenl = false).
        { apply not_true_iff_false. rewrite existsb_eqb_elem_of, <- Hrel.
          rewrite El. intros [x Hx]. discriminate. }
        rewrite He.
        rewrite (IH _ (PNode.pubkey node :: seenl)).
        -- now rewrite <- app_assoc.
        -- intros k. rewrite elem_of_cons.
           destruct (decide (k = PNode.pubkey node)) as [-> | Hne].
           ++ rewrite lookup_insert_eq. split; [auto | eauto].
           ++ rewrite lookup_insert_ne by congruence. rewrite Hrel. tauto.
    + now apply IH.
Qed.

Lemma dedupByPubkey_firstOccurrences (nodes : list PNode.t) :
  dedupByPubkey nodes = firstOccurrences [] nodes.
Proof.
  unfold dedupByPubkey. rewrite (fold_dedupStep nodes ∅ [] []); [reflexivity |].
  intros k. rewrite lookup_empty, elem_of_nil.
  split; [intros [x Hx]; discriminate | tauto].
Qed.

Lemma firstOccurrences_fresh (nodes : list PNode.t) (seen : list string)
    (n : PNode.t) :
  n ∈ firstOccurrences seen nodes ->
  n ∈ nodes /\ (PNode.pubkey n ∉ seen) /\ PNode.pubkey n <> ""%string.
Proof.
  revert seen. induction nodes as [| node rest IH]; intros seen; simpl.
  - intros H. now apply elem_of_nil in H.
  - destruct (truthy_str (PNode.pubkey node)) eqn:Et; simpl.
    + destruct (existsb _ seen) eqn:Ee.
      * intros H. destruct (IH _ H) as (H1 & H2 & H3).
        split; [apply elem_of_cons; now right | auto].
      * intros H. apply elem_of_cons in H as [-> | H].
        -- split; [apply elem_of_cons; now left |].
           split; [| now apply truthy_str_spec].
           rewrite <- existsb_eqb_elem_of. congruence.
        -- destruct (IH _ H) as (H1 & H2 & H3).
           split; [apply elem_of_cons; now right |].
           split; [| exact H3].
           intros Hin. apply H2. apply elem_of_cons. now right.
    + intros H. destruct (IH _ H) as (H1 & H2 & H3).
      split; [apply elem_of_cons; now right | auto].
Qed.

Lemma firstOccurrences_NoDup (nodes : list PNode.t) (seen : list string) :
  NoDup (List.map PNode.pubkey (firstOccurrences seen nodes)).
Proof.
  revert seen. induction nodes as [| node rest IH]; intros seen; simpl.
  - constructor.
  - destruct (negb _ || _); [apply IH |].
    simpl. constructor; [| apply IH].
    intros Hin. apply list_elem_of_In, in_map_iff in Hin as (n & E & Hn).
    apply list_elem_of_In, firstOccurrences_fresh in Hn as (_ & Hfresh & _).
    apply Hfresh. rewrite E. apply elem_of_cons. now left.
Qed.

Lemma firstOccurrences_unique (nodes : list PNode.t) (seen : list string) :
  unique_pubkeys (firstOccurrences seen nodes).
Proof.
  split; [apply firstOccurrences_NoDup |].
  apply Forall_forall. intros n Hn.
  now apply firstOccurrences_fresh in Hn as (_ & _ & H).
Qed.

(** A kept node is the first node of the input with its pubkey. *)
Lemma firstOccurrences_find (nodes : list PNode.t) (seen : list string)
    (n : PNode.t) :
  n ∈ firstOccurrences seen nodes ->
  List.find (fun m => String.eqb (PNode.pubkey m) (PNode.pubkey n)) nodes
  = Some n.
Proof.
  revert seen. induction nodes as [| node rest IH]; intros seen; simpl.
  - intros H. now apply elem_of_nil in H.
  - intros H.
    assert (Hskip : n ∈ firstOccurrences seen rest
                    \/ n ∈ firstOccurrences (PNode.pubkey node :: seen) rest ->
                    PNode.pubkey node <> PNode.pubkey n ->
                    (if String.eqb (PNode.pubkey node) (PNode.pubkey n)
                     then Some node else List.find
                       (fun m => String.eqb (PNode.pubkey m) (PNode.pubkey n)) rest)
                    = Some n).
    { intros Hin Hne. apply String.eqb_neq in Hne. rewrite Hne.
      destruct Hin as [Hin | Hin]; eapply IH; exact Hin. }
    destruct (truthy_str (PNode.pubkey node)) eqn:Et; simpl in H.
    + destruct (existsb _ seen) eqn:Ee.
      * apply Hskip; [now left |].
        apply firstOccurrences_fresh in H as (_ & Hfresh & _).
        apply existsb_eqb_elem_of in Ee. congruence.
      * apply elem_of_cons in H as [-> | H].
        -- now rewrite String.eqb_refl.
        -- apply Hskip; [now right |].
           apply firstOccurrences_fresh in H as (_ & Hfresh & _).
           intros E. apply Hfresh. rewrite <- E. apply elem_of_cons. now left.
    + apply Hskip; [now left |].
      apply firstOccurrences_fresh in H as (_ & _ & Hne).
      intros E. rewrite <- E in Hne. apply truthy_str_spec in Hne. congruence.
Qed.

(** Every pubkey of the input that is not empty is kept. *)
Lemma firstOccurrences_complete (nodes : list PNode.t) (seen : list string)
    (n : PNode.t) :
  n ∈ nodes -> PNode.pubkey n <> ""%string -> PNode.pubkey n ∉ seen ->
  PNode.pubkey n ∈ List.map PNode.pubkey (firstOccurrences seen nodes).
Proof.
  revert seen. induction nodes as [| node rest IH]; intros seen Hin Hne Hfresh.
  - now apply elem_of_nil in Hin.
  - simpl. apply elem_of_cons in Hin as [<- | Hin].
    + apply truthy_str_spec in Hne. rewrite Hne. simpl.
      destruct (existsb _ seen) eqn:Ee.
      * apply existsb_eqb_elem_of in Ee. contradiction.
      * simpl. apply elem_of_cons. now left.
    + destruct (negb _ || _) eqn:Ec; [now apply IH |].
      simpl. destruct (decide (PNode.pubkey n = PNode.pubkey node)) as [E | E].
      * apply elem_of_cons. now left.
      * apply elem_of_cons. right. apply IH; [exact Hin | exact Hne |].
        intros H. apply elem_of_cons in H as [H | H]; contradiction.
Qed.

End Dedup.

(** ** Enrichment from the stats cache *)

Section Enrich.

Lemma enrichNodeWithStats_returns (node : PNode.t) (w : World) :
  exists enriched,
    enrichNodeWithStats node w = (Ok enriched, w) /\ enriched_from node enriched.
Proof.
  unfold enrichNodeWithStats, bind, statsCacheService.get, service_get, ret.
  destruct (match Cache.get _ _ _ _ _ with Some v => as_stats v | None => None end)
    as [stats |].
  - destruct (NodeStats.ram_used stats) as [used |];
      [destruct (NodeStats.ram_total stats) as [total |] |].
    + eexists. split; [reflexivity |]. right. eauto.
    + exists node. split; [reflexivity | now left].
    + exists node. split; [reflexivity | now left].
  - exists node. split; [reflexivity | now left].
Qed.

Lemma enrichNodesWithCachedStats_returns (nodes : list PNode.t) (w : World) :
  exists enriched,
    enrichNodesWithCachedStats nodes w = (Ok enriched, w)
    /\ Forall2 enriched_from nodes enriched.
Proof.
  induction nodes as [| node rest IH]; simpl.
  - exists []. split; [reflexivity | constructor].
  - destruct (enrichNodeWithStats_returns node w) as (n' & En & Hn).
    destruct IH as (rest' & Er & Hr).
    exists (n' :: rest'). unfold bind. rewrite En, Er.
    split; [reflexivity | now constructor].
Qed.

Lemma enriched_from_pubkey (node enriched : PNode.t) :
  enriched_from node enriched ->
  PNode.pubkey enriched = PNode.pubkey node
  /\ PNode.address enriched = PNode.address node
  /\ PNode.status enriched = PNode.status node.
Proof. intros [-> | (u & t & ->)]; repeat split. Qed.

Lemma enriched_pubkeys (nodes enriched : list PNode.t) :
  Forall2 enriched_from nodes enriched ->
  List.map PNode.pubkey enriched = List.map PNode.pubkey nodes
  /\ List.map PNode.address enriched = List.map PNode.address nodes.
Proof.
  induction 1 as [| n n' l l' Hn _ [IH1 IH2]]; simpl; [split; reflexivity |].
  destruct (enriched_from_pubkey _ _ Hn) as (-> & -> & _).
  now rewrite IH1, IH2.
Qed.

Lemma enriched_unique (nodes enriched : list PNode.t) :
  Forall2 enriched_from nodes enriched ->
  unique_pubkeys nodes -> unique_pubkeys enriched.
Proof.
  intros H [Hnd Hne]. destruct (enriched_pubkeys _ _ H) as [Hpk _].
  split; [now rewrite Hpk |].
  clear Hnd Hpk. induction H as [| n n' l l' Hn _ IH]; [constructor |].
  apply Forall_cons in Hne as [Hn1 Hl]. constructor; [| now apply IH].
  destruct (enriched_from_pubkey _ _ Hn) as (E & _). now rewrite E.
Qed.

End Enrich.

(** ** What the node cache holds *)

Section CacheInvariant.

Lemma live_value (es : gmap string (Cache.Entry CacheValue))
    (t : Z) (key : string) (v : CacheValue) :
  Cache.live es t key = Some v ->
  exists e, es !! key = Some e /\ Cache.value e = v.
Proof.
  unfold Cache.live. destruct (es !! key) as [e |]; [| discriminate].
  destruct (_ <? _)%Z; [discriminate |]. intros [= <-]. eauto.
Qed.

Lemma get_from_some_tier (keyPrefix : string) (c : Cache.State CacheValue)
    (t : Z) (key : string) (v : CacheValue) :
  Cache.get CacheValue_truthy keyPrefix c t key = Some v ->
  (exists e, Cache.stored (Cache.server c) !! (keyPrefix ++ key)%string = Some e
             /\ Cache.value e = v)
  \/ (exists e, Cache.entries c !! key = Some e /\ Cache.value e = v).
Proof.
  unfold Cache.get, Cache.getFromRedis, Cache.redisClient_get,
    Cache.cacheService_get.
  destruct (negb _ || negb _); [intros H; right; now apply live_value in H |].
  destruct (Cache.reachable (Cache.server c));
    [| intros H; right; now apply live_value in H].
  destruct (Cache.live (Cache.stored _) t _) as [rv |] eqn:E.
  - simpl. intros [= <-]. left. now apply live_value in E.
  - intros H. right. now apply live_value in H.
Qed.

(** A hit on the key of the deduplicated list is a deduplicated list. *)
Lemma cached_nodes_unique (c : Cache.State CacheValue) (t : Z)
    (v : CacheValue) :
  cache_inv c ->
  Cache.get CacheValue_truthy Cache.REDIS_KEY_PREFIX_NODES c t CACHE_KEY = Some v ->
  exists l, v = VNodes l /\ unique_pubkeys l.
Proof.
  intros [Hlocal Hremote] Hget.
  apply get_from_some_tier in Hget as [(e & He & <-) | (e & He & <-)].
  - now apply Hremote.
  - now apply Hlocal.
Qed.

Lemma setInRedis_entries (c : Cache.State CacheValue) (t : Z) (key : string)
    (v : CacheValue) (ttl : Z) :
  Cache.entries (Cache.setInRedis c t key v ttl) = Cache.entries c.
Proof.
  unfold Cache.setInRedis. destruct (_ || _); [reflexivity |].
  destruct (Cache.redisClient_setex _ _ _ _ _); reflexivity.
Qed.

Lemma setInRedis_stored (c : Cache.State CacheValue) (t : Z) (key : string)
    (v : CacheValue) (ttl : Z) (k : string) (e : Cache.Entry CacheValue) :
  Cache.stored (Cache.server (Cache.setInRedis c t key v ttl)) !! k = Some e ->
  Cache.stored (Cache.server c) !! k = Some e \/ (k = key /\ Cache.value e = v).
Proof.
  unfold Cache.setInRedis, Cache.redisClient_setex.
  destruct (_ || _); [auto |].
  destruct (Cache.reachable (Cache.server c)); [| auto].
  destruct (0 <? ttl)%Z; [| auto]. simpl.
  destruct (decide (key = k)) as [-> | Hne].
  - rewrite lookup_insert_eq. intros [= <-]. right. auto.
  - rewrite lookup_insert_ne by exact Hne. auto.
Qed.

(** A write keeps the invariant when it is a deduplicated list, or goes to
    other keys. *)
Lemma set_cache_inv (keyPrefix key : string) (c : Cache.State CacheValue)
    (t : Z) (v : CacheValue) (ttlMs : Z) :
  cache_inv c ->
  (key = CACHE_KEY
   \/ (keyPrefix ++ key)%string
      = (Cache.REDIS_KEY_PREFIX_NODES ++ CACHE_KEY)%string ->
   exists l, v = VNodes l /\ unique_pubkeys l) ->
  cache_inv (Cache.set keyPrefix c t key v ttlMs).
Proof.
  intros [Hlocal Hremote] Hv. split.
  - unfold Cache.set. simpl. rewrite setInRedis_entries.
    unfold Cache.cacheService_set. intros e.
    destruct (decide (key = CACHE_KEY)) as [-> | Hne].
    + rewrite lookup_insert_eq. intros [= <-]. simpl. apply Hv. now left.
    + rewrite lookup_insert_ne by exact Hne. apply Hlocal.
  - unfold Cache.set. simpl. intros e He.
    apply setInRedis_stored in He as [He | [Hk Hval]].
    + now apply Hremote.
    + unfold nodes_entry_ok. rewrite Hval. apply Hv. right. now symmetry.
Qed.

Lemma delete_cache_inv (keyPrefix key : string) (c : Cache.State CacheValue) :
  cache_inv c -> cache_inv (Cache.delete keyPrefix c key).
Proof.
  intros [Hlocal Hremote]. unfold Cache.delete, Cache.redisClient_del.
  split; simpl.
  - intros e He. unfold Cache.cacheService_delete in He.
    apply lookup_delete_Some in He as [_ He].
    destruct (_ && _); [destruct (Cache.reachable _) |]; simpl in He;
      now apply Hlocal.
  - intros e.
    destruct (_ && _); [destruct (Cache.reachable _) |]; simpl; try apply Hremote.
    intros He. apply lookup_delete_Some in He as [_ He]. now apply Hremote.
Qed.

End CacheInvariant.

(** ** The services keep the invariant of the node cache *)

Section Keeps.

Context {A B : Type}.

Lemma keeps_ret (a : A) : keeps_inv (ret a).
Proof. intros w H. exact H. Qed.

Lemma keeps_throw (e : string) : keeps_inv (@throw A e).
Proof. intros w H. exact H. Qed.

Lemma keeps_bind (m : M A) (k : A -> M B) :
  keeps_inv m -> (forall a, keeps_inv (k a)) -> keeps_inv (bind m k).
Proof.
  intros Hm Hk. apply (hoare_bind _ _ _ (fun _ w => cache_inv (cache w))).
  - intros w H. specialize (Hm w H). simpl in Hm. now destruct (fst (m w)).
  - exact Hk.
Qed.

Lemma keeps_try_catch (m : M A) (h : string -> M A) :
  keeps_inv m -> (forall e, keeps_inv (h e)) -> keeps_inv (try_catch m h).
Proof.
  intros Hm Hh.
  apply (hoare_try_catch _ _ _ (fun _ w => cache_inv (cache w))).
  - intros w H. specialize (Hm w H). simpl in Hm. now destruct (fst (m w)).
  - exact Hh.
Qed.

Lemma keeps_Promise_all2 (a : M A) (b : M B) :
  keeps_inv a -> keeps_inv b -> keeps_inv (Promise_all2 a b).
Proof.
  intros Ha Hb w H. unfold Promise_all2.
  specialize (Ha w H). destruct (a w) as [[x | e] w1]; simpl in Ha.
  - specialize (Hb w1 Ha). now destruct (b w1) as [[y | e] w2].
  - exact (Hb w1 Ha).
Qed.

Lemma keeps_readonly (m : M A) : (forall w, snd (m w) = w) -> keeps_inv m.
Proof. intros Hm w H. now rewrite Hm. Qed.

Lemma keeps_call (f : Prpc -> result A) : keeps_inv (call f).
Proof. now apply keeps_readonly. Qed.

End Keeps.

Lemma keeps_service_get {T} (keyPrefix : string) (cast : CacheValue -> option T)
    (key : string) :
  keeps_inv (service_get keyPrefix cast key).
Proof. now apply keeps_readonly. Qed.

Lemma keeps_service_set (keyPrefix key : string) (v : CacheValue) (ttlMs : Z) :
  (key = CACHE_KEY
   \/ (keyPrefix ++ key)%string
      = (Cache.REDIS_KEY_PREFIX_NODES ++ CACHE_KEY)%string ->
   exists l, v = VNodes l /\ unique_pubkeys l) ->
  keeps_inv (service_set keyPrefix key v ttlMs).
Proof. intros Hv w H. simpl. now apply set_cache_inv. Qed.

Lemma keeps_service_delete (keyPrefix key : string) :
  keeps_inv (service_delete keyPrefix key).
Proof. intros w H. simpl. now apply delete_cache_inv. Qed.

Lemma keeps_iterable (r : Response) : keeps_inv (iterable r).
Proof. apply keeps_readonly. intros w. unfold iterable. now destruct (pods r). Qed.

Lemma keeps_Date_now : keeps_inv Date_now.
Proof. now apply keeps_readonly. Qed.

Create HintDb keeps.

#[export] Hint Resolve keeps_ret keeps_throw keeps_call keeps_service_get
  keeps_service_delete keeps_iterable keeps_Date_now : keeps.

(** Follows the structure of a computation: sequencing, [try], branches; a
    write is accepted when its key is not the key of the deduplicated
    list. *)
Ltac keeps :=
  repeat first
    [ progress auto with keeps
    | apply keeps_bind; [| intros ?]
    | apply keeps_try_catch; [| intros ?]
    | match goal with
      | |- keeps_inv (match ?x with _ => _ end) => destruct x
      | |- keeps_inv (if ?x then _ else _) => destruct x
      end
    | apply keeps_service_set;
      let H := fresh in intros [H | H]; discriminate H ].

Section ServicesKeep.

Variable thr : Z.

Lemma keeps_pushAll (acc : list PNode.t) (l : list Pod.t) :
  keeps_inv (pushAll thr acc l).
Proof. now apply keeps_readonly. Qed.

Lemma keeps_trySeeds (seeds : list string) (acc : list PNode.t) :
  keeps_inv (trySeeds thr seeds acc).
Proof.
  apply keeps_readonly. intros w.
  destruct (trySeeds_returns thr seeds acc w) as (l & -> & _). reflexivity.
Qed.

Lemma keeps_enrich (nodes : list PNode.t) :
  keeps_inv (enrichNodesWithCachedStats nodes).
Proof.
  apply keeps_readonly. intros w.
  destruct (enrichNodesWithCachedStats_returns nodes w) as (l & -> & _).
  reflexivity.
Qed.

Lemma getAllPNodes_hit (w : World) (l : list PNode.t) :
  cachedNodes CACHE_KEY w = Some l ->
  getAllPNodes thr w = enrichNodesWithCachedStats l w.
Proof.
  intros H. unfold getAllPNodes, bind, nodeCacheService.get, service_get.
  unfold cachedNodes in H. now rewrite H.
Qed.

Lemma getAllPNodes_miss (w : World) (nodes : list PNode.t) :
  cachedNodes CACHE_KEY w = None ->
  discoverPNodesViaGossip thr w = (Ok nodes, w) ->
  getAllPNodes thr w
  = enrichNodesWithCachedStats (dedupByPubkey nodes)
      (with_cache w
         (Cache.set Cache.REDIS_KEY_PREFIX_NODES (cache w) (now w) CACHE_KEY
            (VNodes (dedupByPubkey nodes)) CACHE_TTL_MS)).
Proof.
  intros H Hd. unfold getAllPNodes, bind, nodeCacheService.get, service_get.
  unfold cachedNodes in H. rewrite H, Hd. reflexivity.
Qed.

(** [getAllPNodes] returns a list without duplicate or empty pubkeys and
    keeps the invariant. *)
Lemma getAllPNodes_unique :
  hoare (fun w => cache_inv (cache w)) (getAllPNodes thr)
    (returns (fun l w => unique_pubkeys l /\ cache_inv (cache w))).
Proof.
  intros w Hinv. destruct (cachedNodes CACHE_KEY w) as [l |] eqn:Ec.
  - rewrite (getAllPNodes_hit w l Ec).
    destruct (enrichNodesWithCachedStats_returns l w) as (l' & -> & Hl').
    simpl. split; [| exact Hinv].
    apply (enriched_unique l l' Hl').
    unfold cachedNodes in Ec.
    destruct (Cache.get _ _ _ _ _) as [v |] eqn:Eg; [| discriminate].
    destruct (cached_nodes_unique _ _ _ Hinv Eg) as (l0 & -> & Hu).
    simpl in Ec. now injection Ec as <-.
  - destruct (discoverPNodesViaGossip_returns thr w) as (nodes & Hd & _).
    rewrite (getAllPNodes_miss w nodes Ec Hd).
    match goal with
    | |- context [enrichNodesWithCachedStats ?l ?w'] =>
        destruct (enrichNodesWithCachedStats_returns l w') as (l' & -> & Hl')
    end.
    assert (Hu : unique_pubkeys (dedupByPubkey nodes)).
    { rewrite dedupByPubkey_firstOccurrences. apply firstOccurrences_unique. }
    simpl. split; [now apply (enriched_unique _ _ Hl') |].
    apply set_cache_inv; [exact Hinv |]. intros _. eauto.
Qed.

Lemma keeps_getAllPNodes : keeps_inv (getAllPNodes thr).
Proof.
  intros w H. pose proof (getAllPNodes_unique w H) as Hu. unfold returns in Hu.
  destruct (fst (getAllPNodes thr w)); [apply Hu | destruct Hu].
Qed.

#[local] Hint Resolve keeps_pushAll keeps_trySeeds keeps_enrich
  keeps_getAllPNodes : keeps.

Lemma keeps_getPNodeByPubkey (pk : string) : keeps_inv (getPNodeByPubkey thr pk).
Proof. unfold getPNodeByPubkey. keeps. Qed.

Lemma keeps_refreshPNodes : keeps_inv (refreshPNodes thr).
Proof. unfold refreshPNodes, nodeCacheService.delete. keeps. Qed.

#[local] Hint Resolve keeps_getPNodeByPubkey : keeps.

Lemma keeps_getNodeStatsByPubkey (pk : string) :
  keeps_inv (getNodeStatsByPubkey thr pk).
Proof.
  unfold getNodeStatsByPubkey, statsCacheService.get, statsCacheService.set.
  keeps.
Qed.

Lemma keeps_getRawPodsForAnalytics : keeps_inv getRawPodsForAnalytics.
Proof.
  unfold getRawPodsForAnalytics, analyticsCacheService.get,
    analyticsCacheService.set.
  keeps.
Qed.

Lemma keeps_getAllPNodesForMap : keeps_inv (getAllPNodesForMap thr).
Proof.
  unfold getAllPNodesForMap, nodeCacheService.get, nodeCacheService.set.
  keeps.
Qed.

#[local] Hint Resolve keeps_getRawPodsForAnalytics : keeps.

Lemma keeps_getCachedNodeMetrics : keeps_inv (getCachedNodeMetrics thr).
Proof.
  unfold getCachedNodeMetrics, analyticsCacheService.get,
    analyticsCacheService.set.
  keeps.
  apply keeps_Promise_all2; [apply keeps_getRawPodsForAnalytics |].
  apply keeps_getAllPNodes.
Qed.

Lemma keeps_getAnalyticsSummary : keeps_inv (getAnalyticsSummary thr).
Proof. unfold getAnalyticsSummary. keeps. Qed.

(** Every reachable world satisfies the invariant. *)
Lemma reachable_cache_inv (w : World) : reachable thr w -> cache_inv (cache w).
Proof.
  induction 1 as [c t p He Hs | r w Hr IH | w w' Hr IH [He Hs]].
  - split; simpl; intros e; [rewrite He | rewrite Hs];
      rewrite lookup_empty; discriminate.
  - destruct r; simpl.
    + now apply keeps_getAllPNodes.
    + now apply keeps_getAllPNodesForMap.
    + now apply keeps_refreshPNodes.
    + now apply keeps_getPNodeByPubkey.
    + now apply keeps_getNodeStatsByPubkey.
    + now apply keeps_getRawPodsForAnalytics.
    + now apply keeps_getCachedNodeMetrics.
    + now apply keeps_getAnalyticsSummary.
  - destruct IH as [Hl Hrm]. split; [rewrite He | rewrite Hs]; assumption.
Qed.

End ServicesKeep.

(** ** The deduplicated accessor and the map accessor *)

Section Accessors.

(** C6: in every reachable world [getAllPNodes] returns a list in which no
    two entries share a pubkey and none has an empty pubkey; on a cache
    miss the list is, up to the RAM fields, the first occurrence of each
    pubkey in discovery order; [getAllPNodesForMap] keeps duplicates: for
    two records with pubkey "x" at two addresses the first accessor
    returns the first record only, the second returns both. *)
Theorem dedup_invariant :
  (forall thr w,
      reachable thr w ->
      exists l, fst (getAllPNodes thr w) = Ok l
                /\ NoDup (List.map PNode.pubkey l)
                /\ Forall (fun n => PNode.pubkey n <> ""%string) l)
  /\ (forall thr w nodes,
         cachedNodes CACHE_KEY w = None ->
         fst (discoverPNodesViaGossip thr w) = Ok nodes ->
         exists l, fst (getAllPNodes thr w) = Ok l
                   /\ Forall2 enriched_from (firstOccurrences [] nodes) l
                   /\ forall n, n ∈ firstOccurrences [] nodes ->
                                List.find
                                  (fun m => String.eqb (PNode.pubkey m)
                                              (PNode.pubkey n)) nodes
                                = Some n)
  /\ (exists a b c,
         fst (getAllPNodes 300%Z two_addresses_world) = Ok [a]
         /\ PNode.pubkey a = "x"%string
         /\ PNode.address a = Some "10.0.0.1:9001"%string
         /\ fst (getAllPNodesForMap 300%Z two_addresses_world) = Ok [b; c]
         /\ PNode.pubkey b = "x"%string /\ PNode.pubkey c = "x"%string
         /\ PNode.address b = Some "10.0.0.1:9001"%string
         /\ PNode.address c = Some "10.0.0.2:9001"%string).
Proof.
  split; [| split].
  - intros thr w Hr. apply reachable_cache_inv in Hr.
    pose proof (getAllPNodes_unique thr w Hr) as Hu. unfold returns in Hu.
    destruct (fst (getAllPNodes thr w)) as [l | e]; [| destruct Hu].
    destruct Hu as [[Hnd Hne] _]. exists l. auto.
  - intros thr w nodes Hmiss Hd.
    destruct (discoverPNodesViaGossip_returns thr w) as (nodes' & Hd' & _).
    rewrite Hd' in Hd. simpl in Hd. injection Hd as ->.
    rewrite (getAllPNodes_miss thr w nodes Hmiss Hd').
    match goal with
    | |- context [enrichNodesWithCachedStats ?l ?w'] =>
        destruct (enrichNodesWithCachedStats_returns l w') as (l' & -> & Hl')
    end.
    exists l'. simpl. split; [reflexivity |].
    rewrite dedupByPubkey_firstOccurrences in Hl'. split; [exact Hl' |].
    intros n Hn. now apply (firstOccurrences_find nodes []).
  - do 3 eexists.
    split; [vm_compute; reflexivity |].
    split; [reflexivity |]. split; [reflexivity |].
    split; [vm_compute; reflexivity |].
    repeat split.
Qed.

Lemma dedup_invariant_witness :
  exists l, fst (getAllPNodes 300%Z two_addresses_world) = Ok l
            /\ NoDup (List.map PNode.pubkey l)
            /\ Forall (fun n => PNode.pubkey n <> ""%string) l.
Proof.
  apply (proj1 dedup_invariant 300%Z two_addresses_world).
  apply reachable_start; reflexivity.
Defined.

End Accessors.

(** ** Total failure of the gossip network *)

Section TotalFailure.

Variable thr : Z.

(** With nothing cached and every endpoint failing, discovery ends with
    the empty list and [getAllPNodes] returns it. *)
Lemma getAllPNodes_down (w : World) :
  upstream_down (prpc w) -> cachedNodes CACHE_KEY w = None ->
  fst (getAllPNodes thr w) = Ok [].
Proof.
  intros Hd Hmiss.
  rewrite (getAllPNodes_miss thr w [] Hmiss (discoverPNodesViaGossip_down thr w Hd)).
  reflexivity.
Qed.

(** The [catch] block of [getRawPodsForAnalytics] calls [getPods()] with
    nothing around it: when both operations of the primary endpoint reject,
    so does [getRawPodsForAnalytics]. *)
Lemma getRawPodsForAnalytics_down (w : World) :
  upstream_down (prpc w) -> cachedPods w = None ->
  is_ok (fst (getRawPodsForAnalytics w)) = false.
Proof.
  intros (H1 & H2 & _) Hmiss.
  unfold getRawPodsForAnalytics, bind, try_catch, call,
    analyticsCacheService.get, service_get.
  unfold cachedPods in Hmiss. rewrite Hmiss.
  destruct (getPodsWithStats (prpc w)) as [r | e]; [discriminate |].
  destruct (getPods (prpc w)) as [r | e']; [discriminate |].
  reflexivity.
Qed.

(** A write under another key is not seen by a read. *)
Lemma get_set_other (keyPrefix keyPrefix' key key' : string)
    (c : Cache.State CacheValue) (t t' : Z) (v : CacheValue) (ttlMs : Z) :
  key' <> key -> (keyPrefix' ++ key')%string <> (keyPrefix ++ key)%string ->
  Cache.get CacheValue_truthy keyPrefix'
    (Cache.set keyPrefix c t key v ttlMs) t' key'
  = Cache.get CacheValue_truthy keyPrefix' c t' key'.
Proof.
  intros Hk Hrk. unfold Cache.get, Cache.set, Cache.cacheService_set.
  assert (Hlocal : forall es : gmap string (Cache.Entry CacheValue),
             Cache.cacheService_get (<[key := Cache.mkEntry v (t + ttlMs)]> es)
               t' key'
             = Cache.cacheService_get es t' key').
  { intros es. unfold Cache.cacheService_get, Cache.live.
    now rewrite lookup_insert_ne by congruence. }
  assert (Hremote :
            Cache.getFromRedis
              (Cache.mkState
                 (Cache.redisClient (Cache.setInRedis c t (keyPrefix ++ key) v (ttlMs / 1000)))
                 (Cache.redisAvailable (Cache.setInRedis c t (keyPrefix ++ key) v (ttlMs / 1000)))
                 (Cache.server (Cache.setInRedis c t (keyPrefix ++ key) v (ttlMs / 1000)))
                 (<[key := Cache.mkEntry v (t + ttlMs)]>
                    (Cache.entries (Cache.setInRedis c t (keyPrefix ++ key) v (ttlMs / 1000)))))
              t' (keyPrefix' ++ key')
            = Cache.getFromRedis c t' (keyPrefix' ++ key')).
  { destruct c as [cl av [re st] es].
    unfold Cache.getFromRedis, Cache.setInRedis, Cache.redisClient_get,
      Cache.redisClient_setex. simpl.
    destruct av, cl, re; simpl; try reflexivity.
    destruct (0 <? ttlMs / 1000)%Z; simpl; [| reflexivity].
    unfold Cache.live.
    now rewrite lookup_insert_ne by congruence. }
  rewrite Hremote. cbn [Cache.entries].
  rewrite setInRedis_entries, Hlocal. reflexivity.
Qed.

Lemma getAnalyticsSummary_down (w : World) :
  upstream_down (prpc w) ->
  cachedNodes CACHE_KEY w = None -> cachedPods w = None ->
  is_ok (fst (getAnalyticsSummary thr w)) = false.
Proof.
  intros Hd Hmiss Hpods.
  unfold getAnalyticsSummary. unfold bind at 1.
  pose proof (discoverPNodesViaGossip_down thr w Hd) as Hdisc.
  rewrite (getAllPNodes_miss thr w [] Hmiss Hdisc).
  change (dedupByPubkey []) with (@nil PNode.t).
  cbn [enrichNodesWithCachedStats ret].
  set (w' := with_cache w _).
  unfold bind at 1.
  assert (Hraw : is_ok (fst (getRawPodsForAnalytics w')) = false).
  { apply getRawPodsForAnalytics_down; [exact Hd |].
    rewrite <- Hpods. unfold cachedPods, w', with_cache. simpl.
    rewrite get_set_other; [reflexivity | discriminate | discriminate]. }
  destruct (getRawPodsForAnalytics w') as [[l | e] w'']; [discriminate |].
  reflexivity.
Qed.

End TotalFailure.

(** The summary over no nodes and no pods: every count and amount is zero,
    the health is [unstable] and the consensus version ["unknown"]. *)
Lemma summarize_nothing (thr t : Z) :
  let s := summarize thr t [] [] in
  AnalyticsSummary.totalPNodes s = 0%nat
  /\ AnalyticsSummary.onlinePNodes s = 0%nat
  /\ AnalyticsSummary.onlinePercentage s = 0
  /\ AnalyticsSummary.totalPods s = 0%nat
  /\ AnalyticsSummary.activePods s = 0%nat
  /\ AnalyticsSummary.averageUptime s = 0
  /\ AnalyticsSummary.totalStorageUsed s = 0
  /\ AnalyticsSummary.totalStorageCapacity s = 0
  /\ AnalyticsSummary.totalStorageUsedTB s == 0
  /\ AnalyticsSummary.totalStorageCapacityTB s == 0
  /\ AnalyticsSummary.networkHealth s = unstable
  /\ AnalyticsSummary.consensusVersion s = "unknown"%string.
Proof. simpl. repeat split. Qed.

(** C2 on the code: with empty caches and every gossip endpoint failing,
    [getAllPNodes] returns the empty list, but [getAnalyticsSummary] does
    not return a summary: the rejection of [getPods()] in the [catch] block
    of [getRawPodsForAnalytics] escapes it. *)
Theorem summary_rejects_on_total_failure :
  fst (getAllPNodes 300 all_fail_world) = Ok []
  /\ fst (getRawPodsForAnalytics all_fail_world) = Throw "ECONNREFUSED"
  /\ fst (getAnalyticsSummary 300 all_fail_world) = Throw "ECONNREFUSED".
Proof. repeat split; vm_compute; reflexivity. Qed.

(** ** The re-entrancy guard of the stats-enrichment job *)

Section Guard.

Import Enrichment.

Variable getAllPNodes : M (list PNode.t).
Variable getNodeStatsByPubkey : string -> M (option NodeStats.t).

Abbreviation continue := (Enrichment.continue getAllPNodes getNodeStatsByPubkey).
Abbreviation resume := (Enrichment.resume getAllPNodes getNodeStatsByPubkey).
Abbreviation drain := (Enrichment.drain getAllPNodes getNodeStatsByPubkey).
Abbreviation reachable := (Enrichment.reachable getAllPNodes getNodeStatsByPubkey).
Abbreviation step := (Enrichment.step getAllPNodes getNodeStatsByPubkey).

(** Every way out of the body goes through [finally]: an activation
    either stays suspended, the flag untouched, or ends with the flag
    released. *)
Lemma continue_cases (j : Job) (a : Activation) (rest : list Activation) :
  (inFlight (continue j a rest) = rest /\ isRunning (continue j a rest) = false)
  \/ (exists a', inFlight (continue j a rest) = a' :: rest
                 /\ isRunning (continue j a rest) = isRunning j).
Proof.
  destruct a as [| pending]; simpl.
  - destruct (getAllPNodes (world j)) as [[nodes | e] w'].
    + destruct (length _ =? 0)%nat; simpl; eauto.
    + simpl. auto.
  - destruct (drop BATCH_SIZE pending); simpl; eauto.
Qed.

(** The flag is set exactly while one activation is in flight. *)
Lemma guard_holds (j : Job) :
  reachable j ->
  (isRunning j = false /\ inFlight j = [])
  \/ (isRunning j = true /\ exists a, inFlight j = [a]).
Proof.
  induction 1 as [w | j j' Hr IH Hs]; [left; split; reflexivity |].
  destruct Hs as [j | i j | j w]; [| | exact IH].
  - unfold preFetchAllNodeStats.
    destruct IH as [[Hf Hin] | [Ht Hin]]; rewrite ?Hf, ?Ht.
    + right. simpl. rewrite Hin. eauto.
    + right. auto.
  - unfold Enrichment.resume.
    destruct IH as [[Hf Hin] | [Ht (a & Hin)]]; rewrite Hin.
    + rewrite lookup_nil. left. auto.
    + destruct i as [| i]; simpl; [| right; eauto].
      destruct (continue_cases j a []) as [[E1 E2] | (a' & E1 & E2)].
      * left. auto.
      * right. rewrite E2, Ht. eauto.
Qed.

Lemma drain_batches (pending : list PNode.t) (j : Job) :
  inFlight j = [InBatches pending] ->
  exists fuel, isRunning (drain fuel j) = false /\ inFlight (drain fuel j) = [].
Proof.
  remember (length pending) as n eqn:Hn. revert pending j Hn.
  induction n as [n IH] using lt_wf_ind. intros pending j Hn Hin.
  destruct (drop BATCH_SIZE pending) as [| node later] eqn:Ed.
  - exists 2%nat. simpl. rewrite Hin. unfold Enrichment.resume.
    rewrite Hin. simpl. rewrite Ed. simpl. auto.
  - assert (Hlt : (length (node :: later) < n)%nat).
    { rewrite <- Ed, length_drop, Hn.
      assert (length pending <> 0)%nat by (destruct pending; [discriminate | discriminate]).
      unfold BATCH_SIZE. lia. }
    destruct (IH _ Hlt (node :: later) (resume 0 j) eq_refl) as (fuel & Hf).
    + unfold Enrichment.resume. rewrite Hin. simpl. rewrite Ed. reflexivity.
    + exists (S fuel). simpl. rewrite Hin. exact Hf.
Qed.

(** An activation in flight comes to its end, which releases the flag. *)
Lemma drain_releases (j : Job) :
  reachable j ->
  exists fuel, isRunning (drain fuel j) = false /\ inFlight (drain fuel j) = [].
Proof.
  intros Hr. destruct (guard_holds j Hr) as [[Hf Hin] | [Ht (a & Hin)]].
  - exists 0%nat. simpl. auto.
  - destruct a as [| pending]; [| now apply (drain_batches pending)].
    destruct (continue_cases j AwaitNodes []) as [[E1 E2] | (a' & E1 & E2)].
    + exists 1%nat. simpl. rewrite Hin. unfold Enrichment.resume.
      rewrite Hin. simpl take. simpl drop. simpl lookup. cbn iota. auto.
    + assert (Hres : resume 0 j = continue j AwaitNodes []).
      { unfold Enrichment.resume. rewrite Hin. reflexivity. }
      assert (Hb : exists pending, a' = InBatches pending).
      { revert E1. simpl.
        destruct (getAllPNodes (world j)) as [[nodes | e] w'];
          [destruct (length _ =? 0)%nat |]; simpl; intros [= <-]. eauto. }
      destruct Hb as (pending & ->).
      destruct (drain_batches pending (resume 0 j)) as (fuel & Hfuel).
      * now rewrite Hres.
      * exists (S fuel). simpl. rewrite Hin. exact Hfuel.
Qed.

(** C9: at most one execution of the job is in flight and the flag is set
    exactly then; a call made while the flag is set returns the process
    unchanged, with no fetch started; every exit of an execution releases
    the flag; so the execution in flight ends and the next call runs. *)
Theorem prefetch_never_overlaps :
  (forall j, reachable j ->
             (length (inFlight j) <= 1)%nat
             /\ (isRunning j = true <-> inFlight j <> []))
  /\ (forall j, isRunning j = true -> preFetchAllNodeStats j = j)
  /\ (forall j a rest,
         (inFlight (continue j a rest) = rest
          /\ isRunning (continue j a rest) = false)
         \/ (exists a', inFlight (continue j a rest) = a' :: rest
                        /\ isRunning (continue j a rest) = isRunning j))
  /\ (forall j, reachable j ->
                exists fuel,
                  isRunning (drain fuel j) = false
                  /\ inFlight (drain fuel j) = []
                  /\ isRunning (preFetchAllNodeStats (drain fuel j)) = true
                  /\ inFlight (preFetchAllNodeStats (drain fuel j))
                     = [AwaitNodes]).
Proof.
  split; [| split; [| split]].
  - intros j Hr. destruct (guard_holds j Hr) as [[Hf Hin] | [Ht (a & Hin)]];
      rewrite Hin; simpl.
    + split; [lia |]. rewrite Hf. split; [discriminate | congruence].
    + split; [lia |]. rewrite Ht. split; [discriminate | reflexivity].
  - intros j Ht. unfold preFetchAllNodeStats. now rewrite Ht.
  - exact continue_cases.
  - intros j Hr. destruct (drain_releases j Hr) as (fuel & Hf & Hin).
    exists fuel. split; [exact Hf |]. split; [exact Hin |].
    unfold preFetchAllNodeStats. rewrite Hf. simpl. rewrite Hin. auto.
Qed.

End Guard.

Lemma prefetch_never_overlaps_witness :
  let j := Enrichment.preFetchAllNodeStats
             (Enrichment.mkJob false [] all_fail_world []) in
  Enrichment.isRunning j = true /\ Enrichment.preFetchAllNodeStats j = j.
Proof.
  split; [reflexivity |].
  apply (proj1 (proj2 (prefetch_never_overlaps (getAllPNodes 300)
                         (getNodeStatsByPubkey 300)))).
  reflexivity.
Defined.

(** * Further properties of the code *)

(** ** The tiered cache in any state of the remote tier *)

Section CacheRoundTrip.

Context {V : Type}.
Variable truthy : V -> bool.

Lemma live_insert_eq (es : gmap string (Cache.Entry V)) (key : string) (v : V)
    (expiry t : Z) :
  Cache.live (<[key := Cache.mkEntry v expiry]> es) t key
  = if (expiry <? t)%Z then None else Some v.
Proof. unfold Cache.live. now rewrite lookup_insert_eq. Qed.

Lemma live_insert_ne (es : gmap string (Cache.Entry V)) (key key' : string)
    (e : Cache.Entry V) (t : Z) :
  key <> key' -> Cache.live (<[key := e]> es) t key' = Cache.live es t key'.
Proof. intros H. unfold Cache.live. now rewrite lookup_insert_ne. Qed.

Lemma live_delete_eq (es : gmap string (Cache.Entry V)) (key : string) (t : Z) :
  Cache.live (delete key es) t key = None.
Proof. unfold Cache.live. now rewrite lookup_delete_eq. Qed.

Lemma live_delete_ne (es : gmap string (Cache.Entry V)) (key key' : string)
    (t : Z) :
  key <> key' -> Cache.live (delete key es) t key' = Cache.live es t key'.
Proof. intros H. unfold Cache.live. now rewrite lookup_delete_ne. Qed.

Lemma local_after_set (keyPrefix : string) (st : Cache.State V) (now later : Z)
    (key : string) (v : V) (ttlMs : Z) :
  (later <= now + ttlMs)%Z ->
  Cache.cacheService_get
    (Cache.entries (Cache.set keyPrefix st now key v ttlMs)) later key
  = Some v.
Proof.
  intros H. unfold Cache.set. cbn [Cache.entries].
  unfold Cache.cacheService_get, Cache.cacheService_set.
  rewrite live_insert_eq. destruct (now + ttlMs <? later)%Z eqn:E;
    [| reflexivity].
  apply Z.ltb_lt in E. lia.
Qed.

Lemma remote_after_set (keyPrefix : string) (st : Cache.State V) (now later : Z)
    (key : string) (v : V) (ttlMs : Z) :
  (1000 <= ttlMs)%Z ->
  Cache.getFromRedis (Cache.set keyPrefix st now key v ttlMs) later
    (keyPrefix ++ key)
  = None
  \/ Cache.getFromRedis (Cache.set keyPrefix st now key v ttlMs) later
       (keyPrefix ++ key)
     = Some v.
Proof.
  intros Httl.
  assert (Hsec : (0 <? ttlMs / 1000)%Z = true).
  { apply Z.ltb_lt. apply Z.div_str_pos. lia. }
  destruct st as [cl av [re stored] es].
  unfold Cache.set, Cache.setInRedis, Cache.getFromRedis,
    Cache.redisClient_setex, Cache.redisClient_get.
  destruct av, cl, re; simpl; auto.
  rewrite Hsec. simpl. rewrite live_insert_eq.
  destruct (now + ttlMs / 1000 * 1000 <? later)%Z; [left | right]; reflexivity.
Qed.

Lemma get_after_set (keyPrefix : string) (st : Cache.State V) (now later : Z)
    (key : string) (v : V) (ttlMs : Z) :
  (1000 <= ttlMs)%Z -> (later <= now + ttlMs)%Z ->
  Cache.get truthy keyPrefix (Cache.set keyPrefix st now key v ttlMs) later key
  = Some v.
Proof.
  intros Httl Hlater. unfold Cache.get.
  destruct (remote_after_set keyPrefix st now later key v ttlMs Httl)
    as [-> | ->].
  - now apply local_after_set.
  - destruct (truthy v); [reflexivity | now apply local_after_set].
Qed.

Lemma get_after_delete (keyPrefix : string) (st : Cache.State V) (t : Z)
    (key : string) :
  Cache.get truthy keyPrefix (Cache.delete keyPrefix st key) t key = None.
Proof.
  destruct st as [cl av [re stored] es].
  unfold Cache.get, Cache.delete, Cache.getFromRedis, Cache.redisClient_del,
    Cache.redisClient_get, Cache.cacheService_get, Cache.cacheService_delete.
  destruct av, cl, re; simpl; rewrite ?live_delete_eq; reflexivity.
Qed.

Lemma get_by_tiers (keyPrefix : string) (st : Cache.State V) (t : Z)
    (key : string) :
  (remote_down st
   /\ Cache.get truthy keyPrefix st t key = Cache.live (Cache.entries st) t key)
  \/ (remote_up st
      /\ Cache.get truthy keyPrefix st t key
         = match Cache.live (Cache.stored (Cache.server st)) t (keyPrefix ++ key)
           with
           | Some redisValue =>
               if truthy redisValue then Some redisValue
               else Cache.live (Cache.entries st) t key
           | None => Cache.live (Cache.entries st) t key
           end).
Proof.
  destruct st as [cl av [re stored] es].
  unfold Cache.get, Cache.getFromRedis, Cache.redisClient_get,
    Cache.cacheService_get, remote_down, remote_up.
  destruct av, cl, re; simpl; auto.
  right. split; [auto |]. now destruct (Cache.live stored t _).
Qed.

Lemma contents_after_set (keyPrefix : string) (st : Cache.State V) (now : Z)
    (key : string) (v : V) (ttlMs : Z) :
  (1000 <= ttlMs)%Z ->
  Cache.entries (Cache.set keyPrefix st now key v ttlMs)
  = <[key := Cache.mkEntry v (now + ttlMs)]> (Cache.entries st)
  /\ ((remote_up st
       /\ Cache.stored (Cache.server (Cache.set keyPrefix st now key v ttlMs))
          = <[(keyPrefix ++ key)%string
              := Cache.mkEntry v (now + ttlMs / 1000 * 1000)]>
              (Cache.stored (Cache.server st)))
      \/ (remote_down st
          /\ Cache.stored (Cache.server (Cache.set keyPrefix st now key v ttlMs))
             = Cache.stored (Cache.server st))).
Proof.
  intros Httl.
  assert (Hsec : (0 <? ttlMs / 1000)%Z = true).
  { apply Z.ltb_lt. apply Z.div_str_pos. lia. }
  destruct st as [cl av [re stored] es].
  unfold Cache.set, Cache.setInRedis, Cache.redisClient_setex,
    Cache.cacheService_set, remote_down, remote_up.
  destruct av, cl, re; simpl; rewrite ?Hsec; simpl; split; auto 7.
Qed.

Lemma contents_after_delete (keyPrefix : string) (st : Cache.State V)
    (key : string) :
  Cache.entries (Cache.delete keyPrefix st key) = delete key (Cache.entries st)
  /\ ((remote_up st
       /\ Cache.stored (Cache.server (Cache.delete keyPrefix st key))
          = delete (keyPrefix ++ key)%string (Cache.stored (Cache.server st)))
      \/ (remote_down st
          /\ Cache.stored (Cache.server (Cache.delete keyPrefix st key))
             = Cache.stored (Cache.server st))).
Proof.
  destruct st as [cl av [re stored] es].
  unfold Cache.delete, Cache.redisClient_del, Cache.cacheService_delete,
    remote_down, remote_up.
  destruct av, cl, re; simpl; split; auto 7.
Qed.

(** X1: a value written with a TTL of at least one second is read back until
    the TTL elapses: in the state the write left, and in every state with
    the same contents whatever its connection, as long as the write reached
    the remote tier, or the remote tier is down at the read, or no older
    truthy entry is live there.  When the write was skipped and an older
    truthy entry is live, a read with the remote tier up returns that older
    entry instead. *)
Theorem set_then_get (keyPrefix : string) (st : Cache.State V) (now later : Z)
    (key : string) (v : V) (ttlMs : Z) :
  (1000 <= ttlMs)%Z -> (later <= now + ttlMs)%Z ->
  let st1 := Cache.set keyPrefix st now key v ttlMs in
  Cache.get truthy keyPrefix st1 later key = Some v
  /\ (forall st',
         same_contents st' st1 ->
         remote_up st \/ remote_down st'
         \/ (forall old,
                Cache.live (Cache.stored (Cache.server st)) later
                  (keyPrefix ++ key) = Some old ->
                truthy old = false) ->
         Cache.get truthy keyPrefix st' later key = Some v)
  /\ (forall st' old,
         same_contents st' st1 -> remote_down st -> remote_up st' ->
         Cache.live (Cache.stored (Cache.server st)) later (keyPrefix ++ key)
         = Some old ->
         truthy old = true ->
         Cache.get truthy keyPrefix st' later key = Some old).
Proof.
  intros Httl Hlater st1.
  destruct (contents_after_set keyPrefix st now key v ttlMs Httl)
    as [Hes Hst]. fold st1 in Hes, Hst.
  assert (Hlocal : forall st', same_contents st' st1 ->
            Cache.live (Cache.entries st') later key = Some v).
  { intros st' [He _]. rewrite He, Hes, live_insert_eq.
    destruct (now + ttlMs <? later)%Z eqn:E; [| reflexivity].
    apply Z.ltb_lt in E. lia. }
  assert (Hup : forall st', same_contents st' st1 -> remote_up st ->
            Cache.live (Cache.stored (Cache.server st')) later
              (keyPrefix ++ key) = None
            \/ Cache.live (Cache.stored (Cache.server st')) later
                 (keyPrefix ++ key) = Some v).
  { intros st' [_ Hs] Hu. rewrite Hs.
    destruct Hst as [[_ ->] | [Hd _]].
    - rewrite live_insert_eq.
      destruct (_ <? _)%Z; [left | right]; reflexivity.
    - exfalso. destruct Hu as (H1 & H2 & H3).
      destruct Hd as [H | [H | H]]; congruence. }
  assert (Hdown : forall st', same_contents st' st1 -> remote_down st ->
            Cache.stored (Cache.server st') = Cache.stored (Cache.server st)).
  { intros st' [_ Hs] Hd. rewrite Hs.
    destruct Hst as [[Hu _] | [_ ->]]; [| reflexivity].
    exfalso. destruct Hu as (H1 & H2 & H3).
    destruct Hd as [H | [H | H]]; congruence. }
  assert (Hdec : remote_up st \/ remote_down st).
  { destruct Hst as [[H _] | [H _]]; auto. }
  assert (Hgen : forall st',
            same_contents st' st1 ->
            remote_up st \/ remote_down st'
            \/ (forall old,
                   Cache.live (Cache.stored (Cache.server st)) later
                     (keyPrefix ++ key) = Some old ->
                   truthy old = false) ->
            Cache.get truthy keyPrefix st' later key = Some v).
  { intros st' Hsame Hcase.
    destruct (get_by_tiers keyPrefix st' later key) as [[_ ->] | [Hu' ->]];
      [now apply Hlocal |].
    rewrite (Hlocal st' Hsame).
    destruct Hcase as [Hu | [Hd' | Hold]].
    - destruct (Hup st' Hsame Hu) as [-> | ->]; [reflexivity |].
      now destruct (truthy v).
    - exfalso. destruct Hu' as (H1 & H2 & H3).
      destruct Hd' as [H | [H | H]]; congruence.
    - destruct Hdec as [Hu | Hd].
      + destruct (Hup st' Hsame Hu) as [-> | ->]; [reflexivity |].
        now destruct (truthy v).
      + rewrite (Hdown st' Hsame Hd).
        destruct (Cache.live (Cache.stored (Cache.server st)) later _)
          as [old |] eqn:E; [| reflexivity].
        now rewrite (Hold old eq_refl). }
  split; [| split].
  - apply Hgen; [split; reflexivity |].
    destruct Hdec as [Hu | Hd]; [now left |].
    right. left. unfold st1, Cache.set, Cache.setInRedis.
    destruct st as [cl av [re stored] es]. unfold remote_down in *.
    simpl in *. destruct av, cl, re; simpl; auto;
      destruct Hd as [H | [H | H]]; discriminate.
  - exact Hgen.
  - intros st' old Hsame Hd Hu' Hold Htr.
    destruct (get_by_tiers keyPrefix st' later key) as [[Hd' _] | [_ ->]].
    + exfalso. destruct Hu' as (H1 & H2 & H3).
      destruct Hd' as [H | [H | H]]; congruence.
    + rewrite (Hdown st' Hsame Hd), Hold. now rewrite Htr.
Qed.

End CacheRoundTrip.

Lemma set_then_get_witness :
  Cache.get (fun n => negb (n =? 0)%nat) Cache.REDIS_KEY_PREFIX_NODES
    (Cache.set Cache.REDIS_KEY_PREFIX_NODES (stale_cache 3 5000) 1000 "k" 7%nat
       30000)
    31000 "k"
  = Some 7%nat
  /\ Cache.get (fun n => negb (n =? 0)%nat) Cache.REDIS_KEY_PREFIX_NODES
       (reconnected
          (Cache.set Cache.REDIS_KEY_PREFIX_NODES unreachable_cache 1000 "k"
             7%nat 30000))
       2000 "k"
     = Some 7%nat
  /\ Cache.get (fun n => negb (n =? 0)%nat) Cache.REDIS_KEY_PREFIX_NODES
       (reconnected
          (Cache.set Cache.REDIS_KEY_PREFIX_NODES (flagged_down_cache 3 5000)
             1000 "k" 7%nat 30000))
       2000 "k"
     = Some 3%nat.
Proof.
  split; [| split].
  - apply (set_then_get (fun n => negb (n =? 0)%nat)
             Cache.REDIS_KEY_PREFIX_NODES (stale_cache 3 5000)); lia.
  - apply (proj1 (proj2 (set_then_get (fun n => negb (n =? 0)%nat)
                           Cache.REDIS_KEY_PREFIX_NODES unreachable_cache
                           1000 2000 "k" 7%nat 30000 ltac:(lia) ltac:(lia))));
      [split; reflexivity |].
    right. right. intros old H. vm_compute in H. discriminate H.
  - apply (proj2 (proj2 (set_then_get (fun n => negb (n =? 0)%nat)
                           Cache.REDIS_KEY_PREFIX_NODES
                           (flagged_down_cache 3 5000)
                           1000 2000 "k" 7%nat 30000 ltac:(lia) ltac:(lia)))).
    + split; reflexivity.
    + left. reflexivity.
    + repeat split.
    + reflexivity.
    + reflexivity.
Defined.

Section CacheEdges.

Context {V : Type}.
Variable truthy : V -> bool.

(** X2: a TTL below one second becomes [setex(key, 0, ...)], which Redis
    rejects; the rejection is swallowed, so a live remote entry written
    earlier keeps being served instead of the value just written. *)
Theorem short_ttl_serves_stale (keyPrefix : string) (st : Cache.State V)
    (now later : Z) (key : string) (v : V) (ttlMs : Z) (old : Cache.Entry V) :
  Cache.redisAvailable st = true -> Cache.redisClient st = true ->
  Cache.reachable (Cache.server st) = true ->
  (ttlMs < 1000)%Z ->
  Cache.stored (Cache.server st) !! (keyPrefix ++ key)%string = Some old ->
  (later <= Cache.expiry old)%Z -> truthy (Cache.value old) = true ->
  Cache.get truthy keyPrefix (Cache.set keyPrefix st now key v ttlMs) later key
  = Some (Cache.value old).
Proof.
  intros Hav Hcl Hre Httl Hold Hlive Htr.
  assert (Hsec : (0 <? ttlMs / 1000)%Z = false).
  { apply Z.ltb_ge. assert (ttlMs / 1000 < 1)%Z by (apply Z.div_lt_upper_bound; lia).
    lia. }
  destruct st as [cl av [re stored] es]. simpl in *. subst cl av re.
  unfold Cache.get, Cache.set, Cache.setInRedis, Cache.getFromRedis,
    Cache.redisClient_setex, Cache.redisClient_get. simpl.
  rewrite Hsec. simpl. unfold Cache.live. rewrite Hold.
  destruct (Cache.expiry old <? later)%Z eqn:E.
  - apply Z.ltb_lt in E. lia.
  - now rewrite Htr.
Qed.

(** X3: after [delete(key)] a read of [key] finds nothing: in the state the
    deletion left, and in every state with the same contents whatever its
    connection, as long as the deletion reached the remote tier, or the
    remote tier is down at the read, or no truthy entry is live there.
    Reads under other keys are not affected. *)
Theorem delete_then_get (keyPrefix : string) (st : Cache.State V) (t : Z)
    (key : string) :
  let st1 := Cache.delete keyPrefix st key in
  Cache.get truthy keyPrefix st1 t key = None
  /\ (forall st',
         same_contents st' st1 ->
         remote_up st \/ remote_down st'
         \/ (forall old,
                Cache.live (Cache.stored (Cache.server st)) t (keyPrefix ++ key)
                = Some old ->
                truthy old = false) ->
         Cache.get truthy keyPrefix st' t key = None)
  /\ (forall keyPrefix' key',
         key' <> key ->
         (keyPrefix' ++ key')%string <> (keyPrefix ++ key)%string ->
         Cache.get truthy keyPrefix' st1 t key'
         = Cache.get truthy keyPrefix' st t key').
Proof.
  intros st1.
  destruct (contents_after_delete keyPrefix st key) as [Hes Hst].
  fold st1 in Hes, Hst.
  split; [| split].
  - destruct st as [cl av [re stored] es].
    unfold st1, Cache.get, Cache.delete, Cache.getFromRedis,
      Cache.redisClient_del, Cache.redisClient_get, Cache.cacheService_get,
      Cache.cacheService_delete.
    destruct av, cl, re; simpl; rewrite ?live_delete_eq; reflexivity.
  - intros st' [He Hs] Hcase.
    assert (Hlocal : Cache.live (Cache.entries st') t key = None)
      by (rewrite He, Hes; apply live_delete_eq).
    destruct (get_by_tiers truthy keyPrefix st' t key)
      as [[_ ->] | [Hu' ->]]; [exact Hlocal |].
    rewrite Hlocal, Hs.
    destruct Hst as [[Hu ->] | [Hd ->]].
    + now rewrite live_delete_eq.
    + destruct Hcase as [Hu | [Hd' | Hold]].
      * exfalso. destruct Hu as (H1 & H2 & H3).
        destruct Hd as [H | [H | H]]; congruence.
      * exfalso. destruct Hu' as (H1 & H2 & H3).
        destruct Hd' as [H | [H | H]]; congruence.
      * destruct (Cache.live (Cache.stored (Cache.server st)) t _)
          as [old |] eqn:E; [| reflexivity].
        now rewrite (Hold old eq_refl).
  - intros keyPrefix' key' Hk Hrk. destruct st as [cl av [re stored] es].
    unfold st1, Cache.get, Cache.delete, Cache.getFromRedis,
      Cache.redisClient_del, Cache.redisClient_get, Cache.cacheService_get,
      Cache.cacheService_delete.
    destruct av, cl, re; simpl;
      rewrite ?live_delete_ne by congruence; reflexivity.
Qed.

(** X4: the remote deletion is skipped while the module holds the remote tier
    for unavailable: once the connection is back, the entry that was to be
    deleted is served again. *)
Theorem delete_skipped_while_unavailable (keyPrefix : string)
    (st : Cache.State V) (t : Z) (key : string) (old : V) :
  Cache.redisAvailable st = false ->
  Cache.live (Cache.stored (Cache.server st)) t (keyPrefix ++ key) = Some old ->
  truthy old = true ->
  Cache.get truthy keyPrefix (reconnected (Cache.delete keyPrefix st key)) t key
  = Some old.
Proof.
  intros Hav Hold Htr. destruct st as [cl av [re stored] es]. simpl in *.
  subst av. unfold Cache.get, Cache.delete, reconnected, Cache.getFromRedis,
    Cache.redisClient_get. simpl. rewrite Hold. now rewrite Htr.
Qed.

(** X5: the services are namespaced in the remote tier: a write through one of
    them never changes what another one reads there.  The local tier is one
    store without prefixes: with the remote tier down, a value written under
    a key through any service is read under that key through any other. *)
Theorem namespaces_remote_only (P P' : string) (st : Cache.State V) (now t : Z)
    (key key' : string) (v : V) (ttlMs : Z) :
  P ∈ service_prefixes -> P' ∈ service_prefixes -> P <> P' ->
  Cache.getFromRedis (Cache.set P st now key v ttlMs) t (P' ++ key')
  = Cache.getFromRedis st t (P' ++ key')
  /\ (remote_down st -> (t <= now + ttlMs)%Z ->
      Cache.get truthy P' (Cache.set P st now key v ttlMs) t key = Some v).
Proof.
  intros HP HP' Hne.
  assert (Hkeys : (P ++ key)%string <> (P' ++ key')%string).
  { unfold service_prefixes in HP, HP'.
    repeat (apply elem_of_cons in HP as [-> | HP]);
      try (now apply elem_of_nil in HP);
      repeat (apply elem_of_cons in HP' as [-> | HP']);
      try (now apply elem_of_nil in HP');
      try congruence; simpl; discriminate. }
  split.
  - destruct st as [cl av [re stored] es].
    unfold Cache.set, Cache.setInRedis, Cache.getFromRedis,
      Cache.redisClient_setex, Cache.redisClient_get.
    destruct av, cl, re; simpl; try reflexivity.
    destruct (0 <? ttlMs / 1000)%Z; simpl; [| reflexivity].
    now rewrite live_insert_ne.
  - intros Hdown Ht.
    assert (Hdown' : remote_down (Cache.set P st now key v ttlMs)).
    { unfold Cache.set. rewrite (setInRedis_down _ _ _ _ _ Hdown). exact Hdown. }
    rewrite (get_down truthy P' _ t key Hdown').
    unfold Cache.set. simpl. rewrite (setInRedis_down _ _ _ _ _ Hdown).
    apply cacheService_get_set. exact Ht.
Qed.

End CacheEdges.

Lemma short_ttl_serves_stale_witness :
  Cache.get (fun n => negb (n =? 0)%nat) Cache.REDIS_KEY_PREFIX_NODES
    (Cache.set Cache.REDIS_KEY_PREFIX_NODES (stale_cache 3 5000) 1000 "k" 7%nat
       500)
    1200 "k"
  = Some 3%nat.
Proof.
  apply (short_ttl_serves_stale (fun n => negb (n =? 0)%nat)
           Cache.REDIS_KEY_PREFIX_NODES (stale_cache 3 5000) 1000 1200 "k"
           7%nat 500 (Cache.mkEntry 3%nat 5000));
    try reflexivity; simpl; lia.
Defined.

Lemma delete_skipped_while_unavailable_witness :
  Cache.get (fun n => negb (n =? 0)%nat) Cache.REDIS_KEY_PREFIX_NODES
    (reconnected
       (Cache.delete Cache.REDIS_KEY_PREFIX_NODES (flagged_down_cache 3 5000) "k"))
    1200 "k"
  = Some 3%nat.
Proof.
  apply (delete_skipped_while_unavailable (fun n => negb (n =? 0)%nat)
           Cache.REDIS_KEY_PREFIX_NODES (flagged_down_cache 3 5000) 1200 "k"
           3%nat);
    reflexivity.
Defined.

Lemma namespaces_remote_only_witness :
  Cache.getFromRedis
    (Cache.set Cache.REDIS_KEY_PREFIX_STATS (stale_cache 3 5000) 1000 "k" 7%nat
       30000)
    1200 (Cache.REDIS_KEY_PREFIX_NODES ++ "k")
  = Cache.getFromRedis (stale_cache 3 5000) 1200
      (Cache.REDIS_KEY_PREFIX_NODES ++ "k").
Proof.
  apply (namespaces_remote_only (fun n => negb (n =? 0)%nat)
           Cache.REDIS_KEY_PREFIX_STATS Cache.REDIS_KEY_PREFIX_NODES
           (stale_cache 3 5000) 1000 1200 "k" "k" 7%nat 30000).
  - unfold service_prefixes. repeat constructor.
  - unfold service_prefixes. repeat constructor.
  - discriminate.
Defined.

(** ** The order of fallbacks in discovery *)

Section DiscoveryOrder.

Variable thr : Z.

Lemma fold_pushNormalized_omap (t : Z) (l : list Pod.t) (acc : list PNode.t) :
  fold_left (pushNormalized thr t) l acc
  = (acc ++ omap (usableNode thr t) l)%list.
Proof.
  revert acc. induction l as [| pod l IH]; intros acc; simpl.
  - now rewrite app_nil_r.
  - rewrite IH. unfold pushNormalized, usableNode.
    destruct (normalizePNode thr t pod) as [n | e]; [| reflexivity].
    destruct (truthy_str (PNode.pubkey n)); [| reflexivity].
    now rewrite <- app_assoc.
Qed.

Lemma usableNode_spec (t : Z) (pod : Pod.t) (n : PNode.t) :
  usableNode thr t pod = Some n
  <-> normalizePNode thr t pod = Ok n /\ valid_timestamp pod
      /\ PNode.pubkey n <> ""%string.
Proof.
  unfold usableNode. split.
  - destruct (normalizePNode thr t pod) as [n' | e] eqn:E; [| discriminate].
    destruct (truthy_str (PNode.pubkey n')) eqn:Et; [| discriminate].
    intros [= <-]. split; [reflexivity |]. split; [| now apply truthy_str_spec].
    destruct (Z_le_dec (- 8640000000000) (Pod.last_seen_timestamp pod));
      [destruct (Z_le_dec (Pod.last_seen_timestamp pod) 8640000000000) |].
    + split; assumption.
    + pose proof (normalizePNode_throws thr t pod) as Hth. rewrite E in Hth.
      assert (is_ok (Ok n') = false)
        by (apply Hth; unfold valid_timestamp; lia).
      discriminate.
    + pose proof (normalizePNode_throws thr t pod) as Hth. rewrite E in Hth.
      assert (is_ok (Ok n') = false)
        by (apply Hth; unfold valid_timestamp; lia).
      discriminate.
  - intros (-> & _ & Hne). apply truthy_str_spec in Hne. now rewrite Hne.
Qed.

Lemma trySeeds_firstNonEmpty (seeds : list string) (w : World) :
  trySeeds thr seeds [] w
  = (Ok (firstNonEmpty
           (List.map (fun ip => usable thr (now w) (seed_getPods (prpc w) ip))
              seeds)), w).
Proof.
  induction seeds as [| ip rest IH]; simpl; [reflexivity |].
  unfold bind, try_catch, call, iterable, pushAll, ret, throw, usable.
  destruct (seed_getPods (prpc w) ip) as [[[l |]] | e]; simpl; try exact IH.
  rewrite fold_pushNormalized_omap. simpl.
  destruct (omap (usableNode thr (now w)) l) as [| n found]; simpl;
    [exact IH | reflexivity].
Qed.

Lemma primary_usable (w : World) :
  try_catch
    (bind (try_catch (call getPodsWithStats) (fun _ => call getPods))
       (fun response => bind (iterable response) (fun l => pushAll thr [] l)))
    (fun _ => ret []) w
  = (Ok (usable thr (now w) (primaryResponse (prpc w))), w).
Proof.
  unfold bind, try_catch, call, iterable, pushAll, ret, throw, usable,
    primaryResponse.
  destruct (getPodsWithStats (prpc w)) as [[[l |]] | e]; simpl;
    rewrite ?fold_pushNormalized_omap; try reflexivity.
  destruct (getPods (prpc w)) as [[[l |]] | e']; simpl;
    rewrite ?fold_pushNormalized_omap; reflexivity.
Qed.

Lemma discoverPNodesViaGossip_eq (w : World) :
  discoverPNodesViaGossip thr w = (Ok (discovered thr (now w) (prpc w)), w).
Proof.
  unfold discoverPNodesViaGossip, discovered, seedAnswers.
  generalize (drop 1 SEED_IPS) as seeds. intros seeds.
  unfold bind at 1. rewrite primary_usable. simpl.
  destruct (usable thr (now w) (primaryResponse (prpc w))) as [| n found];
    simpl; [apply trySeeds_firstNonEmpty | reflexivity].
Qed.

(** X6: discovery returns, without touching the world, the nodes of the primary
    endpoint if it contributes any, else those of the first seed after
    [SEED_IPS[0]] that contributes any, else nothing; a record that fails to
    normalize or has no pubkey is left out without affecting the others. *)
Theorem discovery_order (w : World) :
  discoverPNodesViaGossip thr w = (Ok (discovered thr (now w) (prpc w)), w)
  /\ forall t (l : list Pod.t) n,
       n ∈ omap (usableNode thr t) l
       <-> exists pod, pod ∈ l /\ normalizePNode thr t pod = Ok n
                       /\ valid_timestamp pod /\ PNode.pubkey n <> ""%string.
Proof.
  split; [apply discoverPNodesViaGossip_eq |].
  intros t l n. rewrite list_elem_of_omap. split.
  - intros (pod & Hin & Hu). apply usableNode_spec in Hu. eauto.
  - intros (pod & Hin & Hu). exists pod. split; [exact Hin |].
    now apply usableNode_spec.
Qed.

Lemma getAllPNodesForMap_miss (w : World) :
  cachedNodes "pnodes_map_all" w = None ->
  getAllPNodesForMap thr w
  = enrichNodesWithCachedStats (discoveredForMap thr (now w) (prpc w))
      (with_cache w
         (Cache.set Cache.REDIS_KEY_PREFIX_NODES (cache w) (now w)
            "pnodes_map_all"
            (VNodes (discoveredForMap thr (now w) (prpc w))) (30 * 1000))).
Proof.
  intros Hmiss. unfold getAllPNodesForMap, nodeCacheService.get, service_get.
  unfold bind at 1. unfold cachedNodes in Hmiss. rewrite Hmiss.
  unfold bind at 1.
  assert (Hd :
            try_catch
              (bind (try_catch (call getPodsWithStats) (fun _ => call getPods))
                 (fun response =>
                    bind (iterable response) (fun l => pushAll thr [] l)))
              (fun _ => trySeeds thr (drop 1 SEED_IPS) []) w
            = (Ok (discoveredForMap thr (now w) (prpc w)), w)).
  { unfold discoveredForMap, seedAnswers.
    generalize (drop 1 SEED_IPS) as seeds. intros seeds.
    pose proof (trySeeds_firstNonEmpty seeds w) as Hs.
    unfold bind, try_catch, call, iterable, pushAll, ret, throw,
      primaryResponse.
    destruct (getPodsWithStats (prpc w)) as [[[l |]] | e]; simpl;
      rewrite ?fold_pushNormalized_omap; try reflexivity; try exact Hs.
    destruct (getPods (prpc w)) as [[[l |]] | e']; simpl;
      rewrite ?fold_pushNormalized_omap; try reflexivity; exact Hs. }
  rewrite Hd. reflexivity.
Qed.

(** X7: on a miss the map accessor returns, enriched, every usable record of
    the primary endpoint, duplicates included; it asks the seeds only when
    the primary endpoint gave no list, not when its list contributes
    nothing. *)
Theorem map_accessor_fallback (w : World) :
  cachedNodes "pnodes_map_all" w = None ->
  exists l,
    fst (getAllPNodesForMap thr w) = Ok l
    /\ Forall2 enriched_from (discoveredForMap thr (now w) (prpc w)) l
    /\ (forall pods,
          primaryResponse (prpc w) = Ok (mkResponse (Some pods)) ->
          omap (usableNode thr (now w)) pods = [] ->
          l = []
          /\ fst (discoverPNodesViaGossip thr w)
             = Ok (firstNonEmpty (seedAnswers thr (now w) (prpc w)))).
Proof.
  intros Hmiss. rewrite (getAllPNodesForMap_miss w Hmiss).
  match goal with
  | |- context [enrichNodesWithCachedStats ?l ?w'] =>
      destruct (enrichNodesWithCachedStats_returns l w') as (l' & -> & Hl')
  end.
  exists l'. split; [reflexivity |]. split; [exact Hl' |].
  intros pods Hp Hnone. split.
  - unfold discoveredForMap in Hl'. rewrite Hp, Hnone in Hl'. now inversion Hl'.
  - rewrite discoverPNodesViaGossip_eq. simpl. unfold discovered.
    rewrite Hp. simpl. now rewrite Hnone.
Qed.

End DiscoveryOrder.

Lemma map_accessor_fallback_witness :
  fst (getAllPNodesForMap 300 seed_knows_world) = Ok []
  /\ exists n, fst (getAllPNodes 300 seed_knows_world) = Ok [n]
               /\ PNode.pubkey n = "x"%string.
Proof.
  destruct (map_accessor_fallback 300 seed_knows_world eq_refl)
    as (l & El & _ & Hempty).
  destruct (Hempty [anonymous_pod] eq_refl eq_refl) as [-> _].
  split; [exact El |].
  eexists. split; [vm_compute; reflexivity | reflexivity].
Defined.

(** ** The accessors of pnode.service.ts *)

Section PNodeAccessors.

Variable thr : Z.

(** [getAllPNodes] changes nothing but the caches. *)
Lemma getAllPNodes_frame (w : World) :
  exists c, snd (getAllPNodes thr w) = with_cache w c.
Proof.
  destruct (cachedNodes CACHE_KEY w) as [l |] eqn:Ec.
  - rewrite (getAllPNodes_hit thr w l Ec).
    destruct (enrichNodesWithCachedStats_returns l w) as (l' & -> & _).
    exists (cache w). now destruct w.
  - rewrite (getAllPNodes_miss thr w _ Ec (discoverPNodesViaGossip_eq thr w)).
    match goal with
    | |- context [enrichNodesWithCachedStats ?l ?w'] =>
        destruct (enrichNodesWithCachedStats_returns l w') as (l' & -> & _)
    end.
    eexists. reflexivity.
Qed.

Lemma getAllPNodes_ok (w : World) :
  exists l, fst (getAllPNodes thr w) = Ok l.
Proof.
  destruct (cachedNodes CACHE_KEY w) as [l |] eqn:Ec.
  - rewrite (getAllPNodes_hit thr w l Ec).
    destruct (enrichNodesWithCachedStats_returns l w) as (l' & -> & _). eauto.
  - rewrite (getAllPNodes_miss thr w _ Ec (discoverPNodesViaGossip_eq thr w)).
    match goal with
    | |- context [enrichNodesWithCachedStats ?l ?w'] =>
        destruct (enrichNodesWithCachedStats_returns l w') as (l' & -> & _)
    end.
    eauto.
Qed.

(** X8: [refreshPNodes] never serves a cached list: whatever the caches hold
    and whatever state the remote tier is in, it returns the first
    occurrences of a new discovery (enriched). *)
Theorem refresh_rediscovers (w : World) :
  exists l,
    fst (refreshPNodes thr w) = Ok l
    /\ Forall2 enriched_from
         (firstOccurrences [] (discovered thr (now w) (prpc w))) l.
Proof.
  unfold refreshPNodes, nodeCacheService.delete, service_delete.
  unfold bind at 1. cbn [fst snd].
  set (w1 := with_cache w _).
  assert (Hmiss : cachedNodes CACHE_KEY w1 = None).
  { unfold cachedNodes, w1. simpl. now rewrite get_after_delete. }
  rewrite (getAllPNodes_miss thr w1 _ Hmiss (discoverPNodesViaGossip_eq thr w1)).
  match goal with
  | |- context [enrichNodesWithCachedStats ?l ?w'] =>
      destruct (enrichNodesWithCachedStats_returns l w') as (l' & -> & Hl')
  end.
  exists l'. split; [reflexivity |].
  rewrite dedupByPubkey_firstOccurrences in Hl'. exact Hl'.
Qed.

Lemma NoDup_map_inj {A B} (f : A -> B) (l : list A) (a b : A) :
  NoDup (List.map f l) -> a ∈ l -> b ∈ l -> f a = f b -> a = b.
Proof.
  induction l as [| x l IH]; simpl; intros Hnd Ha Hb E.
  - now apply elem_of_nil in Ha.
  - apply NoDup_cons in Hnd as [Hx Hnd].
    apply elem_of_cons in Ha as [-> | Ha]; apply elem_of_cons in Hb as [-> | Hb].
    + reflexivity.
    + exfalso. apply Hx. rewrite E. apply list_elem_of_In, in_map.
      now apply list_elem_of_In.
    + exfalso. apply Hx. rewrite <- E. apply list_elem_of_In, in_map.
      now apply list_elem_of_In.
    + now apply IH.
Qed.

(** X9: in a reachable world [getPNodeByPubkey] returns the one node of the
    list with that pubkey, or nothing when no node has it; the empty pubkey
    is never found. *)
Theorem lookup_by_pubkey (w : World) (pk : string) :
  reachable thr w ->
  exists l,
    fst (getAllPNodes thr w) = Ok l
    /\ match fst (getPNodeByPubkey thr pk w) with
       | Ok (Some n) =>
           n ∈ l /\ PNode.pubkey n = pk
           /\ forall n', n' ∈ l -> PNode.pubkey n' = pk -> n' = n
       | Ok None => pk ∉ List.map PNode.pubkey l
       | Throw _ => False
       end
    /\ fst (getPNodeByPubkey thr "" w) = Ok None.
Proof.
  intros Hr. apply reachable_cache_inv in Hr.
  pose proof (getAllPNodes_unique thr w Hr) as Hu. unfold returns in Hu.
  assert (Hfind : forall k,
             fst (getPNodeByPubkey thr k w)
             = match fst (getAllPNodes thr w) with
               | Ok l => Ok (List.find
                               (fun node => String.eqb (PNode.pubkey node) k) l)
               | Throw e => Throw e
               end).
  { intros k. unfold getPNodeByPubkey, bind, ret.
    destruct (getAllPNodes thr w) as [[l | e] w']; reflexivity. }
  destruct (fst (getAllPNodes thr w)) as [l | e]; [| destruct Hu].
  destruct Hu as [[Hnd Hne] _].
  exists l. split; [reflexivity |]. split.
  - rewrite Hfind.
    destruct (List.find _ l) as [n |] eqn:Ef.
    + apply find_some in Ef as [Hin E]. apply String.eqb_eq in E.
      apply list_elem_of_In in Hin.
      split; [exact Hin |]. split; [exact E |].
      intros n' Hin' E'. apply (NoDup_map_inj PNode.pubkey l); auto.
      congruence.
    + intros Hin. apply list_elem_of_In, in_map_iff in Hin as (n & E & Hin).
      pose proof (find_none _ _ Ef n Hin) as Hn. simpl in Hn.
      rewrite E, String.eqb_refl in Hn. discriminate.
  - rewrite Hfind.
    destruct (List.find _ l) as [n |] eqn:Ef; [| reflexivity].
    apply find_some in Ef as [Hin E]. apply String.eqb_eq in E.
    rewrite Forall_forall in Hne. apply list_elem_of_In in Hin.
    now apply Hne in Hin.
Qed.

End PNodeAccessors.

Lemma lookup_by_pubkey_witness :
  fst (getPNodeByPubkey 300 "" two_addresses_world) = Ok None.
Proof.
  destruct (lookup_by_pubkey 300 two_addresses_world "x") as (l & _ & _ & H).
  - apply reachable_start; reflexivity.
  - exact H.
Defined.

Section StatsAndPods.

Variable thr : Z.

Lemma getPNodeByPubkey_eq (w : World) (pk : string) :
  exists l c,
    getAllPNodes thr w = (Ok l, with_cache w c)
    /\ getPNodeByPubkey thr pk w
       = (Ok (List.find (fun node => String.eqb (PNode.pubkey node) pk) l),
          with_cache w c).
Proof.
  destruct (getAllPNodes_ok thr w) as (l & El).
  destruct (getAllPNodes_frame thr w) as (c & Ec).
  exists l, c. unfold getPNodeByPubkey, bind, ret.
  destruct (getAllPNodes thr w) as [r w']. simpl in El, Ec. subst r w'.
  split; reflexivity.
Qed.

Lemma getNodeStatsByPubkey_cases (w : World) (pk : string) :
  exists r w',
    getNodeStatsByPubkey thr pk w = (Ok r, w')
    /\ (forall s, cachedStats pk w = Some s -> r = Some s /\ w' = w)
    /\ (cachedStats pk w = None ->
        forall s, r = Some s ->
          (exists node,
              fst (getPNodeByPubkey thr pk w) = Ok (Some node)
              /\ PNode.status node = online
              /\ node_getStats (prpc w)
                   (before_colon (str_or (PNode.address node) (PNode.ip node)))
                 = Ok (Some s))
          /\ forall t p,
               (t <= now w + 120000)%Z ->
               cachedStats pk (later_world w' t p) = Some s).
Proof.
  unfold getNodeStatsByPubkey, statsCacheService.get, statsCacheService.set,
    service_get, service_set.
  unfold bind at 1. cbn [fst snd].
  fold (cachedStats pk w).
  destruct (cachedStats pk w) as [s0 |] eqn:Ec.
  - exists (Some s0), w. split; [reflexivity |]. split.
    + intros s [= <-]. split; reflexivity.
    + discriminate.
  - destruct (getPNodeByPubkey_eq w pk) as (l & c & _ & Eg).
    unfold try_catch, bind. rewrite Eg. cbn [fst snd].
    destruct (List.find _ l) as [node |] eqn:Ef.
    2:{ exists None. eexists. simpl. split; [reflexivity |].
        split; [discriminate | intros _ s; discriminate]. }
    destruct (PNodeStatus_eqb (PNode.status node) online) eqn:Es; simpl.
    2:{ exists None. eexists. split; [reflexivity |].
        split; [discriminate | intros _ s; discriminate]. }
    destruct (truthy_str (str_or (PNode.address node) (PNode.ip node))) eqn:Ea;
      simpl.
    2:{ exists None. eexists. split; [reflexivity |].
        split; [discriminate | intros _ s; discriminate]. }
    unfold call. simpl.
    destruct (node_getStats (prpc w) _) as [[s |] | e] eqn:En; simpl.
    + exists (Some s). eexists. split; [reflexivity |].
      split; [discriminate |]. intros _ s' [= <-]. split.
      * exists node. split; [reflexivity |].
        split; [now destruct (PNode.status node) | exact En].
      * intros t p Ht. unfold cachedStats, later_world. simpl.
        rewrite get_after_set; [reflexivity | lia | lia].
    + exists None. eexists. split; [reflexivity |].
      split; [discriminate | intros _ s; discriminate].
    + exists None. eexists. split; [reflexivity |].
      split; [discriminate | intros _ s; discriminate].
Qed.

(** X10: [getNodeStatsByPubkey] never throws.  A cached record is returned
    without any call and without changing the world.  On a miss it returns
    statistics only for a known online node, as answered by [getStats()] at
    that node's own address, and what it returned is then served from the
    stats cache for 120 seconds, whatever happens to the network. *)
Theorem stats_lookup (w : World) (pk : string) :
  exists r,
    fst (getNodeStatsByPubkey thr pk w) = Ok r
    /\ (forall s, cachedStats pk w = Some s ->
                  r = Some s /\ snd (getNodeStatsByPubkey thr pk w) = w)
    /\ (cachedStats pk w = None ->
        forall s, r = Some s ->
          (exists node,
              fst (getPNodeByPubkey thr pk w) = Ok (Some node)
              /\ PNode.status node = online
              /\ node_getStats (prpc w)
                   (before_colon (str_or (PNode.address node) (PNode.ip node)))
                 = Ok (Some s))
          /\ forall t p,
               (t <= now w + 120000)%Z ->
               cachedStats pk
                 (later_world (snd (getNodeStatsByPubkey thr pk w)) t p)
               = Some s).
Proof.
  destruct (getNodeStatsByPubkey_cases w pk) as (r & w' & -> & Hhit & Hmiss).
  exists r. split; [reflexivity |]. split; [exact Hhit | exact Hmiss].
Qed.

Lemma getRawPodsForAnalytics_cases (w : World) :
  cachedPods w = None ->
  exists w',
    getRawPodsForAnalytics w
    = (match primaryResponse (prpc w) with
       | Ok r => Ok (pods_or_empty r)
       | Throw e => Throw e
       end, w')
    /\ forall l,
         match primaryResponse (prpc w) with
         | Ok r => Ok (pods_or_empty r)
         | Throw e => Throw e
         end = Ok l ->
         forall t p,
           (t <= now w + 60000)%Z ->
           fst (getRawPodsForAnalytics (later_world w' t p)) = Ok l.
Proof.
  intros Hmiss.
  assert (Hhit : forall w2 l, cachedPods w2 = Some l ->
                              fst (getRawPodsForAnalytics w2) = Ok l).
  { intros w2 l H. unfold getRawPodsForAnalytics, analyticsCacheService.get,
      service_get. unfold bind at 1. cbn [fst snd]. fold (cachedPods w2).
    now rewrite H. }
  unfold getRawPodsForAnalytics at 1. unfold analyticsCacheService.get,
    analyticsCacheService.set, service_get, service_set.
  unfold bind at 1. cbn [fst snd].
  fold (cachedPods w). rewrite Hmiss.
  unfold try_catch, bind, call, ret, primaryResponse.
  destruct (getPodsWithStats (prpc w)) as [r | e]; simpl.
  - eexists. split; [reflexivity |]. intros l [= <-] t p Ht.
    apply Hhit. unfold later_world, cachedPods. simpl.
    rewrite get_after_set; [reflexivity | lia | lia].
  - destruct (getPods (prpc w)) as [r | e']; simpl.
    + eexists. split; [reflexivity |]. intros l [= <-] t p Ht.
      apply Hhit. unfold later_world, cachedPods. simpl.
      rewrite get_after_set; [reflexivity | lia | lia].
    + eexists. split; [reflexivity |]. intros l H. discriminate H.
Qed.

(** X11: on a miss [getRawPodsForAnalytics] returns the pods of
    [getPodsWithStats()], or of [getPods()] when that rejects, an answer
    without a list counting as empty; it throws exactly when both reject.
    What it returned is served from the cache for the next 60 seconds
    without asking the network. *)
Theorem raw_pods_fallback (w : World) :
  cachedPods w = None ->
  fst (getRawPodsForAnalytics w)
  = match primaryResponse (prpc w) with
    | Ok r => Ok (pods_or_empty r)
    | Throw e => Throw e
    end
  /\ forall l,
       fst (getRawPodsForAnalytics w) = Ok l ->
       forall t p,
         (t <= now w + 60000)%Z ->
         fst (getRawPodsForAnalytics
                (later_world (snd (getRawPodsForAnalytics w)) t p))
         = Ok l.
Proof.
  intros Hmiss.
  destruct (getRawPodsForAnalytics_cases w Hmiss) as (w' & -> & Hlater).
  split; [reflexivity |]. exact Hlater.
Qed.

End StatsAndPods.

Lemma stats_lookup_witness :
  cachedStats "x"
    (later_world (snd (getNodeStatsByPubkey 300 "x" stats_world))
       1700000120000 all_fail)
  = Some sample_stats.
Proof.
  destruct (stats_lookup 300 stats_world "x") as (r & Er & _ & Hmiss).
  assert (E : fst (getNodeStatsByPubkey 300 "x" stats_world)
              = Ok (Some sample_stats)) by (vm_compute; reflexivity).
  rewrite E in Er. injection Er as <-.
  apply (Hmiss eq_refl sample_stats eq_refl). simpl. lia.
Defined.

Lemma raw_pods_fallback_witness :
  fst (getRawPodsForAnalytics
         (later_world (snd (getRawPodsForAnalytics two_addresses_world))
            1700000060000 all_fail))
  = Ok two_addresses.
Proof.
  destruct (raw_pods_fallback two_addresses_world eq_refl) as [E Hlater].
  apply Hlater; [exact E | simpl; lia].
Defined.

(** ** The stats-enrichment service *)

Section EnrichmentService.

Lemma enrichNodeWithStats_eq (node : PNode.t) (w : World) :
  exists enriched,
    enrichNodeWithStats node w = (Ok enriched, w) /\ enrichedIn w node enriched.
Proof.
  unfold enrichNodeWithStats, bind, statsCacheService.get, service_get, ret,
    enrichedIn, cachedStats.
  destruct (match Cache.get _ _ _ _ _ with Some v => as_stats v | None => None end)
    as [stats |].
  - destruct (NodeStats.ram_used stats) as [used |];
      [destruct (NodeStats.ram_total stats) as [total |] |];
      eexists; split; reflexivity.
  - eexists; split; reflexivity.
Qed.

(** X12: enrichment never throws, leaves the world as it is, and returns the
    nodes one for one in the same order; a node gets the RAM fields exactly
    when its cached statistics carry both of them, and nothing else of it
    changes. *)
Theorem enrichment_preserves_nodes (nodes : list PNode.t) (w : World) :
  exists enriched,
    enrichNodesWithCachedStats nodes w = (Ok enriched, w)
    /\ length enriched = length nodes
    /\ Forall2 (enrichedIn w) nodes enriched
    /\ Forall2 (fun node e =>
                  PNode.pubkey e = PNode.pubkey node
                  /\ PNode.status e = PNode.status node
                  /\ PNode.version e = PNode.version node
                  /\ PNode.storageUsed e = PNode.storageUsed node
                  /\ PNode.storageTotal e = PNode.storageTotal node
                  /\ PNode.uptime e = PNode.uptime node
                  /\ PNode.address e = PNode.address node
                  /\ PNode.lastSeen e = PNode.lastSeen node)
         nodes enriched.
Proof.
  induction nodes as [| node rest IH]; simpl.
  - exists []. repeat split; constructor.
  - destruct (enrichNodeWithStats_eq node w) as (n' & En & Hn).
    destruct IH as (rest' & Er & Hlen & Hin & Hsame).
    exists (n' :: rest'). unfold bind. rewrite En, Er.
    split; [reflexivity |]. split; [simpl; now rewrite Hlen |].
    split; [now constructor |].
    constructor; [| exact Hsame].
    unfold enrichedIn in Hn.
    destruct (cachedStats (PNode.pubkey node) w) as [stats |];
      [destruct (NodeStats.ram_used stats), (NodeStats.ram_total stats) |];
      subst n'; repeat split.
Qed.

Variable getAllPNodes : M (list PNode.t).
Variable getNodeStatsByPubkey : string -> M (option NodeStats.t).

(** X13: the promise made for a node never rejects, whatever the stats lookup
    does; a node whose statistics are cached is counted as cached without
    any lookup and without changing the world; otherwise it counts as
    fetched exactly when the lookup returns statistics. *)
Theorem prefetch_settles (node : PNode.t) (w : World) :
  exists o,
    fst (Enrichment.prefetchNode getNodeStatsByPubkey node w) = Ok o
    /\ (forall s, cachedStats (PNode.pubkey node) w = Some s ->
                  o = Enrichment.FromCache
                  /\ snd (Enrichment.prefetchNode getNodeStatsByPubkey node w) = w)
    /\ (cachedStats (PNode.pubkey node) w = None ->
        (o = Enrichment.Fetched
         <-> exists s, fst (getNodeStatsByPubkey (PNode.pubkey node) w)
                       = Ok (Some s))
        /\ o <> Enrichment.FromCache).
Proof.
  assert (E : exists o w',
             Enrichment.prefetchNode getNodeStatsByPubkey node w = (Ok o, w')
             /\ (forall s, cachedStats (PNode.pubkey node) w = Some s ->
                           o = Enrichment.FromCache /\ w' = w)
             /\ (cachedStats (PNode.pubkey node) w = None ->
                 (o = Enrichment.Fetched
                  <-> exists s, fst (getNodeStatsByPubkey (PNode.pubkey node) w)
                                = Ok (Some s))
                 /\ o <> Enrichment.FromCache)).
  { unfold Enrichment.prefetchNode, try_catch, bind, statsCacheService.get,
      service_get, ret.
    fold (cachedStats (PNode.pubkey node) w).
    destruct (cachedStats (PNode.pubkey node) w) as [s0 |].
    - eexists _, _. split; [reflexivity |].
      split; [intros s _; split; reflexivity | discriminate].
    - destruct (getNodeStatsByPubkey (PNode.pubkey node) w) as [[[s |] | e] w'];
        simpl; eexists _, _; (split; [reflexivity |]);
        (split; [discriminate |]); intros _; (split; [| discriminate]).
      + split; [eauto | reflexivity].
      + split; [discriminate | intros (s & H); discriminate H].
      + split; [discriminate | intros (s & H); discriminate H]. }
  destruct E as (o & w' & -> & Hhit & Hmiss).
  exists o. split; [reflexivity |]. split; [exact Hhit | exact Hmiss].
Qed.

Abbreviation resumeJ := (Enrichment.resume getAllPNodes getNodeStatsByPubkey).
Abbreviation drainJ := (Enrichment.drain getAllPNodes getNodeStatsByPubkey).



End EnrichmentService.

Lemma delete_then_get_witness :
  Cache.get (fun _ : nat => true) "xandeum:nodes:"
    (reconnected (Cache.delete "xandeum:nodes:" (stale_cache 7 2000) "k"))
    1500 "k"
  = None
  /\ Cache.get (fun _ : nat => true) "xandeum:nodes:"
       (Cache.delete "xandeum:nodes:" (stale_cache 7 2000) "j") 1500 "k"
     = Cache.get (fun _ : nat => true) "xandeum:nodes:" (stale_cache 7 2000)
         1500 "k".
Proof.
  split.
  - apply (proj1 (proj2 (delete_then_get (fun _ : nat => true) "xandeum:nodes:"
                           (stale_cache 7 2000) 1500%Z "k"))).
    + split; reflexivity.
    + left. repeat split.
  - apply (proj2 (proj2 (delete_then_get (fun _ : nat => true) "xandeum:nodes:"
                           (stale_cache 7 2000) 1500%Z "j"))
             "xandeum:nodes:" "k").
    + discriminate.
    + simpl. discriminate.
Defined.

Lemma prefetch_settles_witness :
  fst (Enrichment.prefetchNode (getNodeStatsByPubkey 300) sample_node stats_world)
  = Ok Enrichment.Fetched.
Proof.
  destruct (prefetch_settles (getNodeStatsByPubkey 300) sample_node stats_world)
    as (o & E & _ & Hmiss).
  rewrite E. f_equal.
  apply (proj1 (Hmiss eq_refl)). exists sample_stats. vm_compute. reflexivity.
Defined.


(** ** Ratios of counts as percentages *)

Section Percent.



Lemma count_le (k n : nat) : (k <= n)%nat <-> count k <= count n.
Proof. unfold count. rewrite <- Zle_Qle. lia. Qed.

Lemma length_filter_le {A} (f : A -> bool) (l : list A) :
  (length (List.filter f l) <= length l)%nat.
Proof.
  induction l as [| a l IH]; simpl; [lia |].
  destruct (f a); simpl; lia.
Qed.


End Percent.

(** ** The analytics summary *)

Section Summary.

Variable thr : Z.

Lemma getAnalyticsSummary_returns (w : World) (s : AnalyticsSummary.t) :
  fst (getAnalyticsSummary thr w) = Ok s ->
  exists nodes w1 rawPods w2,
    getAllPNodes thr w = (Ok nodes, w1)
    /\ getRawPodsForAnalytics w1 = (Ok rawPods, w2)
    /\ s = summarize thr (now w2) nodes rawPods.
Proof.
  unfold getAnalyticsSummary, bind, Date_now, ret.
  destruct (getAllPNodes thr w) as [[nodes | e] w1]; [| discriminate].
  destruct (getRawPodsForAnalytics w1) as [[rawPods | e] w2] eqn:E2;
    [| discriminate].
  simpl. intros [= <-]. exists nodes, w1, rawPods, w2. auto.
Qed.




Lemma networkHealthOf_bounds (onlinePNodes totalPNodes : nat) :
  let n := Z.of_nat totalPNodes in
  let k := Z.of_nat onlinePNodes in
  let health := Double.networkHealthOf onlinePNodes totalPNodes in
  (n = 0%Z -> health = unstable)
  /\ ((0 < n)%Z -> (19 * n <= 20 * k)%Z -> health = healthy)
  /\ ((0 < n)%Z -> (16999 * n <= 20000 * k)%Z -> (20000 * k <= 18999 * n)%Z ->
      health = degraded)
  /\ ((0 < n)%Z -> (10000 * k <= 8499 * n)%Z -> health = unstable)
  /\ (health = healthy -> (0 < n)%Z /\ (18999 * n < 20000 * k)%Z)
  /\ (health = degraded ->
      (0 < n)%Z /\ (8499 * n < 10000 * k)%Z /\ (20 * k < 19 * n)%Z)
  /\ (health = unstable -> n = 0%Z \/ (20000 * k < 16999 * n)%Z).
Proof.
  intros n k health.
  destruct totalPNodes as [| n'].
  - assert (E : health = unstable) by reflexivity.
    rewrite E. subst n. cbn [Z.of_nat].
    repeat split; intros; try discriminate; try lia; auto.
  - assert (Hn : (0 < S n')%nat) by lia.
    assert (E : health
                = Double.calculateNetworkHealth
                    (Double.Formula.round2
                       (Double.mul
                          (Double.div (Double.of_nat onlinePNodes)
                             (Double.of_nat (S n')))
                          (Double.Fin 100))))
      by (unfold health, Double.networkHealthOf;
          now rewrite (onlinePercentageOf_pos _ _ Hn)).
    rewrite E.
    destruct (networkHealth_of_share onlinePNodes (S n') Hn)
      as (H1 & H2 & H3 & H4 & H5 & H6).
    fold n k in H1, H2, H3, H4, H5, H6.
    assert (Hpos : (0 < n)%Z) by (unfold n; lia).
    split; [lia |]. split; [auto |]. split; [auto |]. split; [auto |].
    split; [auto |]. split; [intros H; destruct (H5 H); auto |].
    auto.
Qed.

(** X16: the network health that the summary derives from its two counts,
    in the arithmetic of doubles.  Without nodes it is unstable.  It is
    healthy when at least 95 percent of the nodes are online, and only if
    more than 94.995 percent are; degraded when between 84.995 and 94.995
    percent are, and only if more than 84.99 and less than 95 percent are;
    unstable when at most 84.99 percent are, and only if less than 84.995
    percent are.  With 18999 of 20000 nodes online the share is rounded
    down to 94.99: degraded. *)
Theorem network_health_by_counts (onlinePNodes totalPNodes : nat) :
  let n := Z.of_nat totalPNodes in
  let k := Z.of_nat onlinePNodes in
  let health := Double.networkHealthOf onlinePNodes totalPNodes in
  (n = 0%Z -> health = unstable)
  /\ ((0 < n)%Z -> (19 * n <= 20 * k)%Z -> health = healthy)
  /\ ((0 < n)%Z -> (16999 * n <= 20000 * k)%Z -> (20000 * k <= 18999 * n)%Z ->
      health = degraded)
  /\ ((0 < n)%Z -> (10000 * k <= 8499 * n)%Z -> health = unstable)
  /\ (health = healthy -> (0 < n)%Z /\ (18999 * n < 20000 * k)%Z)
  /\ (health = degraded ->
      (0 < n)%Z /\ (8499 * n < 10000 * k)%Z /\ (20 * k < 19 * n)%Z)
  /\ (health = unstable -> n = 0%Z \/ (20000 * k < 16999 * n)%Z)
  /\ Double.networkHealthOf (Z.to_nat 18999) (Z.to_nat 20000) = degraded.
Proof.
  intros n k health.
  destruct (networkHealthOf_bounds onlinePNodes totalPNodes)
    as (H1 & H2 & H3 & H4 & H5 & H6 & H7).
  repeat (split; [assumption |]).
  vm_compute. reflexivity.
Qed.

End Summary.

(** ** Versions: the counting map, the consensus version, the distribution *)

Section Versions.

Lemma JsMap_get_cons (k' k : string) (v' : nat) (m : JsMap.t) :
  JsMap.get ((k', v') :: m) k
  = if String.eqb k' k then Some v' else JsMap.get m k.
Proof. unfold JsMap.get. simpl. now destruct (String.eqb k' k). Qed.

Lemma JsMap_get_set_eq (m : JsMap.t) (k : string) (v : nat) :
  JsMap.get (JsMap.set m k v) k = Some v.
Proof.
  induction m as [| [k' v'] m IH]; simpl.
  - rewrite JsMap_get_cons, String.eqb_refl. reflexivity.
  - destruct (String.eqb k' k) eqn:E; rewrite JsMap_get_cons.
    + now rewrite String.eqb_refl.
    + now rewrite E.
Qed.

Lemma JsMap_get_set_ne (m : JsMap.t) (k k' : string) (v : nat) :
  k' <> k -> JsMap.get (JsMap.set m k v) k' = JsMap.get m k'.
Proof.
  intros Hne. induction m as [| [k0 v0] m IH]; simpl.
  - rewrite JsMap_get_cons.
    destruct (String.eqb k k') eqn:E; [| reflexivity].
    apply String.eqb_eq in E. congruence.
  - destruct (String.eqb k0 k) eqn:E; rewrite !JsMap_get_cons.
    + apply String.eqb_eq in E. subst k0.
      destruct (String.eqb k k') eqn:E'; [| reflexivity].
      apply String.eqb_eq in E'. congruence.
    + now rewrite IH.
Qed.

Lemma JsMap_get_None (m : JsMap.t) (k : string) :
  JsMap.get m k = None <-> ~ In k (List.map fst m).
Proof.
  induction m as [| [k' v'] m IH]; simpl.
  - unfold JsMap.get. simpl. tauto.
  - rewrite JsMap_get_cons. destruct (String.eqb k' k) eqn:E.
    + apply String.eqb_eq in E. split; [discriminate | tauto].
    + apply String.eqb_neq in E. rewrite IH. tauto.
Qed.

Lemma JsMap_get_In (m : JsMap.t) (k : string) (c : nat) :
  NoDup (List.map fst m) -> (In (k, c) m <-> JsMap.get m k = Some c).
Proof.
  induction m as [| [k' v'] m IH]; simpl; intros Hnd.
  - unfold JsMap.get. simpl. split; [tauto | discriminate].
  - inversion Hnd as [| ? ? Hnotin Hnd']; subst.
    rewrite JsMap_get_cons. destruct (String.eqb k' k) eqn:E.
    + apply String.eqb_eq in E. subst k'. split.
      * intros [[= ->] | Hin]; [reflexivity |].
        exfalso. apply Hnotin. apply list_elem_of_In, in_map_iff.
        now exists (k, c).
      * intros [= ->]. now left.
    + apply String.eqb_neq in E. rewrite <- (IH Hnd'). split.
      * intros [[= -> _] | Hin]; [congruence | exact Hin].
      * intros Hin. now right.
Qed.

(** [set] keeps the keys in their order and puts a new key last. *)
Lemma JsMap_keys_set (m : JsMap.t) (k : string) (v : nat) :
  List.map fst (JsMap.set m k v)
  = (List.map fst m
     ++ match JsMap.get m k with Some _ => [] | None => [k] end)%list.
Proof.
  induction m as [| [k' v'] m IH]; simpl.
  - reflexivity.
  - rewrite JsMap_get_cons. destruct (String.eqb k' k) eqn:E; simpl.
    + apply String.eqb_eq in E. subst k'. now rewrite app_nil_r.
    + now rewrite IH.
Qed.

Lemma JsMap_set_NoDup (m : JsMap.t) (k : string) (v : nat) :
  NoDup (List.map fst m) -> NoDup (List.map fst (JsMap.set m k v)).
Proof.
  intros Hnd. rewrite JsMap_keys_set.
  destruct (JsMap.get m k) eqn:E.
  - now rewrite app_nil_r.
  - apply JsMap_get_None in E.
    apply NoDup_app. split; [exact Hnd |]. split.
    + intros x Hx Hin. apply list_elem_of_In in Hin.
      destruct Hin as [-> | []]. apply E. now apply list_elem_of_In.
    + apply NoDup_singleton.
Qed.

Lemma counted_ext (m : JsMap.t) (f g : string -> nat) :
  (forall v, f v = g v) -> counted m f -> counted m g.
Proof.
  intros E [Hnd Hget]. split; [exact Hnd |].
  intros v. rewrite <- E. apply Hget.
Qed.

Lemma occurrencesBy_cons {A} (keyOf : A -> string) (k : string) (a : A)
    (rest : list A) :
  occurrencesBy keyOf k (a :: rest)
  = ((if String.eqb (keyOf a) k then 1 else 0) + occurrencesBy keyOf k rest)%nat.
Proof.
  unfold occurrencesBy. simpl. now destruct (String.eqb (keyOf a) k).
Qed.

Lemma countBy_counted {A} (keyOf : A -> string) (m : JsMap.t)
    (f : string -> nat) (a : A) :
  counted m f ->
  counted (countBy keyOf m a)
    (fun v => (f v + if String.eqb (keyOf a) v then 1 else 0)%nat).
Proof.
  intros [Hnd Hget]. unfold countBy.
  set (k := keyOf a).
  assert (Hprev : match JsMap.get m k with
                  | Some c => if (c =? 0)%nat then 0%nat else c
                  | None => 0%nat
                  end = f k).
  { rewrite (Hget k). destruct (f k =? 0)%nat eqn:E.
    - apply Nat.eqb_eq in E. now rewrite E.
    - now rewrite E. }
  rewrite Hprev. split; [now apply JsMap_set_NoDup |].
  intros v. destruct (String.eqb k v) eqn:E.
  - apply String.eqb_eq in E. subst v. rewrite JsMap_get_set_eq.
    destruct (f k + 1 =? 0)%nat eqn:E0; [apply Nat.eqb_eq in E0; lia |].
    reflexivity.
  - apply String.eqb_neq in E.
    rewrite JsMap_get_set_ne by congruence.
    rewrite Nat.add_0_r. apply Hget.
Qed.

Lemma fold_countBy_counted {A} (keyOf : A -> string) (rest : list A) :
  forall (m : JsMap.t) (f : string -> nat),
    counted m f ->
    counted (fold_left (countBy keyOf) rest m)
      (fun v => (f v + occurrencesBy keyOf v rest)%nat).
Proof.
  induction rest as [| a rest IH]; intros m f Hm; simpl.
  - apply (counted_ext m f); [| exact Hm].
    intros v. unfold occurrencesBy. simpl. lia.
  - eapply counted_ext; [| apply (IH _ _ (countBy_counted keyOf m f a Hm))].
    intros v. simpl. rewrite occurrencesBy_cons. lia.
Qed.

(** After the loop the map holds each key that occurs, with the number of
    its occurrences, and nothing else. *)
Lemma countBy_all_counted {A} (keyOf : A -> string) (l : list A) :
  counted (fold_left (countBy keyOf) l [])
    (fun k => occurrencesBy keyOf k l).
Proof.
  eapply counted_ext;
    [| apply (fold_countBy_counted keyOf l [] (fun _ => 0%nat))].
  - intros v. reflexivity.
  - split; [constructor | reflexivity].
Qed.

Lemma list_sum_set (m : JsMap.t) (k : string) :
  list_sum (List.map snd
              (JsMap.set m k
                 (match JsMap.get m k with
                  | Some c => if (c =? 0)%nat then 0%nat else c
                  | None => 0%nat
                  end + 1)%nat))
  = (list_sum (List.map snd m) + 1)%nat.
Proof.
  induction m as [| [k' v'] m IH]; simpl; [reflexivity |].
  rewrite JsMap_get_cons. destruct (String.eqb k' k) eqn:E; simpl.
  - destruct (v' =? 0)%nat eqn:E0; [apply Nat.eqb_eq in E0 |]; lia.
  - rewrite IH. lia.
Qed.

(** The counts of the map add up to the length of the list. *)
Lemma list_sum_countBy {A} (keyOf : A -> string) (l : list A) :
  list_sum (List.map snd (fold_left (countBy keyOf) l [])) = length l.
Proof.
  assert (H : forall m,
             list_sum (List.map snd (fold_left (countBy keyOf) l m))
             = (list_sum (List.map snd m) + length l)%nat).
  { induction l as [| a rest IH]; intros m; simpl; [lia |].
    rewrite IH. unfold countBy. rewrite list_sum_set. lia. }
  now rewrite H.
Qed.

Lemma occurrences_cons (v : string) (node : PNode.t) (rest : list PNode.t) :
  occurrences v (node :: rest)
  = ((if String.eqb (versionOf node) v then 1 else 0) + occurrences v rest)%nat.
Proof. exact (occurrencesBy_cons versionOf v node rest). Qed.

Lemma versionCounts_counted (nodes : list PNode.t) :
  counted (versionCounts nodes) (fun v => occurrences v nodes).
Proof. exact (countBy_all_counted versionOf nodes). Qed.

Lemma keys_fold_countVersion (rest : list PNode.t) (m : JsMap.t) :
  exists extra,
    List.map fst (fold_left countVersion rest m)
    = (List.map fst m ++ extra)%list.
Proof.
  revert m. induction rest as [| node rest IH]; intros m; simpl.
  - exists []. now rewrite app_nil_r.
  - destruct (IH (countVersion m node)) as (extra & ->).
    unfold countVersion. rewrite JsMap_keys_set, <- app_assoc. eauto.
Qed.

Lemma occurrences_pos (x : PNode.t) (l : list PNode.t) :
  In x l -> (0 < occurrences (versionOf x) l)%nat.
Proof.
  induction l as [| y l IH]; [intros [] |].
  intros [-> | Hin]; rewrite occurrences_cons.
  - rewrite String.eqb_refl. lia.
  - specialize (IH Hin). lia.
Qed.

Lemma occurrences_zero (v : string) (l : list PNode.t) :
  occurrences v l = 0%nat -> forall x, In x l -> versionOf x <> v.
Proof.
  intros H0 x Hin E. subst v. pose proof (occurrences_pos x l Hin). lia.
Qed.

(** The first node counted under a version that occurs. *)
Lemma first_with_version (v : string) (nodes : list PNode.t) :
  (0 < occurrences v nodes)%nat ->
  exists pre n post,
    nodes = (pre ++ n :: post)%list /\ versionOf n = v
    /\ occurrences v pre = 0%nat.
Proof.
  induction nodes as [| node rest IH]; [unfold occurrences; simpl; lia |].
  rewrite occurrences_cons. destruct (String.eqb (versionOf node) v) eqn:E.
  - intros _. apply String.eqb_eq in E. exists [], node, rest. auto.
  - intros H. destruct IH as (pre & n & post & -> & Hn & Hpre); [lia |].
    exists (node :: pre), n, post. split; [reflexivity |].
    split; [exact Hn |]. rewrite occurrences_cons, E. exact Hpre.
Qed.

Lemma NoDup_split_unique {A} (c : A) (l1 l2 l1' l2' : list A) :
  NoDup (l1 ++ c :: l2) -> (l1 ++ c :: l2 = l1' ++ c :: l2')%list -> l1 = l1'.
Proof.
  revert l1'. induction l1 as [| a l1 IH]; intros l1' Hnd E.
  - destruct l1' as [| a' l1']; [reflexivity |].
    simpl in E. injection E as <- ->.
    apply NoDup_cons in Hnd as [Hnotin _]. exfalso. apply Hnotin.
    apply list_elem_of_In, in_or_app. right. now left.
  - destruct l1' as [| a' l1']; simpl in E.
    + injection E as -> _. simpl in Hnd.
      apply NoDup_cons in Hnd as [Hnotin _]. exfalso. apply Hnotin.
      apply list_elem_of_In, in_or_app. right. now left.
    + injection E as <- E. simpl in Hnd.
      apply NoDup_cons in Hnd as [_ Hnd]. f_equal. now apply IH.
Qed.

(** The loop over the entries keeps the first entry with the highest
    count: every count is at most the one kept, and the entries before
    the one kept have smaller counts. *)
Lemma pickHigher_fold (m : JsMap.t) :
  forall (b : string) (c0 : nat),
    let r := fold_left pickHigher m (b, c0) in
    (c0 <= snd r)%nat
    /\ (forall e, In e m -> (snd e <= snd r)%nat)
    /\ (r = (b, c0)
        \/ exists m1 m2,
             m = (m1 ++ r :: m2)%list /\ (c0 < snd r)%nat
             /\ forall e, In e m1 -> (snd e < snd r)%nat).
Proof.
  induction m as [| [v c] m IH]; intros b c0; simpl.
  - split; [lia |]. split; [intros e [] | now left].
  - destruct (c0 <? c)%nat eqn:E.
    + apply Nat.ltb_lt in E.
      destruct (IH v c) as (Hle & Hall & Hcase).
      remember (fold_left pickHigher m (v, c)) as r eqn:Er.
      split; [lia |]. split.
      * intros e [<- | Hin]; [exact Hle | now apply Hall].
      * right. destruct Hcase as [Hr | (m1 & m2 & Hm & Hlt & Hbefore)].
        -- exists [], m. rewrite Hr. simpl. split; [reflexivity |].
           split; [exact E | intros e []].
        -- exists ((v, c) :: m1), m2. split; [simpl; now f_equal |].
           split; [lia |].
           intros e [<- | Hin]; [exact Hlt | now apply Hbefore].
    + apply Nat.ltb_ge in E.
      destruct (IH b c0) as (Hle & Hall & Hcase).
      remember (fold_left pickHigher m (b, c0)) as r eqn:Er.
      split; [exact Hle |]. split.
      * intros e [<- | Hin]; [simpl; lia | now apply Hall].
      * destruct Hcase as [Hr | (m1 & m2 & Hm & Hlt & Hbefore)];
          [now left | right].
        exists ((v, c) :: m1), m2. split; [simpl; now f_equal |].
        split; [exact Hlt |].
        intros e [<- | Hin]; [simpl; lia | now apply Hbefore].
Qed.

Lemma counted_In (m : JsMap.t) (f : string -> nat) (v : string) (c : nat) :
  counted m f -> In (v, c) m -> c = f v /\ (0 < c)%nat.
Proof.
  intros [Hnd Hget] Hin. apply (JsMap_get_In m v c Hnd) in Hin.
  rewrite Hget in Hin. destruct (f v =? 0)%nat eqn:E; [discriminate |].
  apply Nat.eqb_neq in E. injection Hin as <-. lia.
Qed.

Lemma counted_entry (m : JsMap.t) (f : string -> nat) (v : string) :
  counted m f -> (0 < f v)%nat -> In (v, f v) m.
Proof.
  intros [Hnd Hget] Hpos. apply (JsMap_get_In m v (f v) Hnd).
  rewrite Hget. destruct (f v =? 0)%nat eqn:E; [| reflexivity].
  apply Nat.eqb_eq in E. lia.
Qed.

Lemma consensus_most_common (nodes : list PNode.t) :
  let c := mostFrequent (versionCounts nodes) in
  (nodes = [] -> c = "unknown"%string)
  /\ (forall v, (occurrences v nodes <= occurrences c nodes)%nat)
  /\ (nodes <> [] ->
      exists pre n post,
        nodes = (pre ++ n :: post)%list /\ versionOf n = c
        /\ forall x, In x pre ->
                     (occurrences (versionOf x) nodes < occurrences c nodes)%nat).
Proof.
  intros c. split; [intros ->; reflexivity |].
  pose proof (versionCounts_counted nodes) as Hm.
  unfold c, mostFrequent. fold pickHigher.
  destruct (pickHigher_fold (versionCounts nodes) "unknown" 0)
    as (_ & Hall & Hcase).
  set (r := fold_left pickHigher (versionCounts nodes) ("unknown"%string, 0%nat))
    in *.
  assert (Hzero : snd r = 0%nat -> forall v, occurrences v nodes = 0%nat).
  { intros H0 v. destruct (occurrences v nodes) as [| k] eqn:Ev; [reflexivity |].
    pose proof (counted_entry _ _ v Hm ltac:(simpl; lia)) as Hin.
    apply Hall in Hin. simpl in Hin. lia. }
  destruct Hcase as [Hr | (m1 & m2 & Hsplit & Hlt & Hbefore)].
  - assert (H0 := Hzero ltac:(now rewrite Hr)). split.
    + intros v. rewrite (H0 v). lia.
    + intros Hne. destruct nodes as [| node rest]; [congruence |].
      pose proof (occurrences_pos node (node :: rest) ltac:(now left)) as Hp.
      rewrite H0 in Hp. lia.
  - assert (Hr : In r (versionCounts nodes))
      by (rewrite Hsplit; apply in_or_app; right; now left).
    destruct r as [cv x] eqn:Er. simpl in *.
    destruct (counted_In _ _ cv x Hm Hr) as [Hx _]. simpl in Hx.
    split.
    + intros v. destruct (occurrences v nodes) as [| k] eqn:Ev; [lia |].
      pose proof (counted_entry _ _ v Hm ltac:(simpl; lia)) as Hin.
      apply Hall in Hin. simpl in Hin. lia.
    + intros _.
      destruct (first_with_version cv nodes ltac:(lia))
        as (pre & n & post & Hnodes & Hn & Hpre).
      exists pre, n, post. split; [exact Hnodes |]. split; [exact Hn |].
      intros y Hy.
      pose proof (versionCounts_counted pre) as Hmp.
      assert (Hkeys : exists extra,
                 List.map fst (versionCounts nodes)
                 = (List.map fst (versionCounts pre) ++ cv :: extra)%list).
      { clear - Hnodes Hn Hpre Hmp. subst nodes.
        change (versionCounts (pre ++ n :: post))
          with (fold_left countVersion (pre ++ n :: post) []).
        rewrite fold_left_app. simpl.
        change (fold_left countVersion pre []) with (versionCounts pre).
        destruct (keys_fold_countVersion post
                    (countVersion (versionCounts pre) n)) as (extra & ->).
        exists extra. unfold countVersion. fold (versionOf n).
        rewrite JsMap_keys_set, Hn.
        destruct Hmp as [_ Hget]. rewrite (Hget cv). simpl. rewrite Hpre.
        simpl. now rewrite <- app_assoc. }
      destruct Hkeys as (extra & Hkeys).
      assert (Hk1 : List.map fst m1 = List.map fst (versionCounts pre)).
      { destruct Hm as [Hnd _].
        apply (NoDup_split_unique cv _ (List.map fst m2) _ extra).
        - rewrite Hsplit, map_app in Hnd. exact Hnd.
        - rewrite <- Hkeys, Hsplit, map_app. reflexivity. }
      pose proof (occurrences_pos y pre Hy) as Hposy.
      pose proof (counted_entry _ _ (versionOf y) Hmp Hposy) as Hentry.
      assert (Hin1 : In (versionOf y) (List.map fst m1)).
      { rewrite Hk1. apply in_map_iff. eexists. split; [| exact Hentry].
        reflexivity. }
      apply in_map_iff in Hin1 as ([v' k'] & Hv' & Hin1). simpl in Hv'.
      subst v'. pose proof (Hbefore _ Hin1) as Hlt'. simpl in Hlt'.
      assert (Hin : In (versionOf y, k') (versionCounts nodes))
        by (rewrite Hsplit; apply in_or_app; now left).
      destruct (counted_In _ _ _ _ Hm Hin) as [Hk' _]. simpl in Hk'. lia.
Qed.

End Versions.

(** ** Sorting by a numeric key, highest first *)

Section ArraySortFacts.

Context {A : Type}.

Lemma sort_insert_Permutation (compareFn : A -> A -> Q) (x : A) (l : list A) :
  Permutation (sort_insert compareFn x l) (x :: l).
Proof.
  induction l as [| y l IH]; simpl; [reflexivity |].
  destruct (Js.gtb (compareFn x y) 0); [| reflexivity].
  rewrite IH. apply perm_swap.
Qed.

Lemma Array_sort_Permutation (compareFn : A -> A -> Q) (l : list A) :
  Permutation (Array_sort compareFn l) l.
Proof.
  induction l as [| x l IH]; simpl; [reflexivity |].
  rewrite sort_insert_Permutation. now constructor.
Qed.

Variable key : A -> Q.

Lemma sort_insert_sorted (x : A) (l : list A) :
  StronglySorted (fun a b => key b <= key a) l ->
  StronglySorted (fun a b => key b <= key a)
    (sort_insert (fun a b => key b - key a) x l).
Proof.
  induction 1 as [| y l Hs IH Hy]; simpl.
  - constructor; constructor.
  - destruct (Js.gtb (key y - key x) 0) eqn:E.
    + apply gtb_spec in E. constructor; [exact IH |].
      eapply Permutation_Forall;
        [symmetry; apply sort_insert_Permutation |].
      constructor; [lra | exact Hy].
    + apply gtb_false in E. constructor; [now constructor |].
      constructor; [lra |].
      eapply List.Forall_impl; [| exact Hy]. simpl. intros z Hz. lra.
Qed.

Lemma Array_sort_sorted (l : list A) :
  StronglySorted (fun a b => key b <= key a)
    (Array_sort (fun a b => key b - key a) l).
Proof.
  induction l as [| x l IH]; simpl; [constructor |].
  now apply sort_insert_sorted.
Qed.

Lemma StronglySorted_weaken (R R' : A -> A -> Prop) (l : list A) :
  (forall a b, R a b -> R' a b) -> StronglySorted R l -> StronglySorted R' l.
Proof.
  intros Himp. induction 1 as [| x l Hs IH Hx]; constructor; [exact IH |].
  eapply List.Forall_impl; [| exact Hx]. intros b. apply Himp.
Qed.



End ArraySortFacts.

(** ** Distributions: entries counted by key, most frequent first *)

Section Distribution.

Context {A B : Type}.
Variable keyOf : A -> string.
Variable mk : string -> nat -> B.
Variable name : B -> string.
Variable cnt : B -> nat.
Hypothesis name_mk : forall k c, name (mk k c) = k.
Hypothesis cnt_mk : forall k c, cnt (mk k c) = c.

Lemma distribution_spec (l : list A) :
  let d := Array_sort (fun a b => count (cnt b) - count (cnt a))
             (List.map (fun '(k, c) => mk k c)
                (fold_left (countBy keyOf) l [])) in
  (forall k c, In (mk k c) d <-> c = occurrencesBy keyOf k l /\ (0 < c)%nat)
  /\ NoDup (List.map name d)
  /\ StronglySorted (fun a b => (cnt b <= cnt a)%nat) d
  /\ list_sum (List.map cnt d) = length l.
Proof.
  intros d. pose proof (countBy_all_counted keyOf l) as Hm.
  set (m := fold_left (countBy keyOf) l []) in *.
  set (entries := List.map (fun '(k, c) => mk k c) m).
  assert (Hperm : Permutation d entries) by apply Array_sort_Permutation.
  assert (Hentries : forall k c, In (mk k c) entries <-> In (k, c) m).
  { intros k c. unfold entries. rewrite in_map_iff. split.
    - intros ([k' c'] & E & Hin).
      assert (k' = k) by (rewrite <- (name_mk k' c'), E; apply name_mk).
      assert (c' = c) by (rewrite <- (cnt_mk k' c'), E; apply cnt_mk).
      now subst.
    - intros Hin. now exists (k, c). }
  split; [| split; [| split]].
  - intros k c. split.
    + intros Hin. apply (Permutation_in _ Hperm), Hentries in Hin.
      destruct (counted_In _ _ _ _ Hm Hin) as [-> Hpos]. auto.
    + intros [-> Hpos].
      apply (Permutation_in _ (Permutation_sym Hperm)), Hentries.
      now apply (counted_entry _ _ k Hm).
  - rewrite Hperm. unfold entries. rewrite List.map_map.
    erewrite List.map_ext; [apply Hm |]. intros [k c]. apply name_mk.
  - eapply StronglySorted_weaken;
      [| apply (Array_sort_sorted (fun x => count (cnt x)))].
    simpl. intros a b. apply count_le.
  - rewrite Hperm. unfold entries. rewrite List.map_map.
    erewrite List.map_ext; [apply list_sum_countBy |]. intros [k c].
    apply cnt_mk.
Qed.

End Distribution.

(** ** The views of the analytics service *)

Section Views.

Variable thr : Z.

Lemma bind_ret_fst {A B} (m : M A) (f : A -> B) (w : World) :
  fst ((a <- m ;; ret (f a)) w)
  = match fst (m w) with Ok a => Ok (f a) | Throw e => Throw e end.
Proof.
  unfold bind, ret. now destruct (m w) as [[a | e] w'].
Qed.

(** X17: the consensus version of the summary is the most common version of
    the nodes (a node without version counts under "unknown"): no version
    is counted more often, and among the versions counted equally often
    it is the one met first, every node before its first node having a
    strictly less common version. *)
Theorem consensus_is_most_common (w : World) (s : AnalyticsSummary.t) :
  fst (getAnalyticsSummary thr w) = Ok s ->
  exists nodes,
    fst (getAllPNodes thr w) = Ok nodes
    /\ (forall v,
           (occurrences v nodes
            <= occurrences (AnalyticsSummary.consensusVersion s) nodes)%nat)
    /\ (nodes <> [] ->
        exists pre n post,
          nodes = (pre ++ n :: post)%list
          /\ versionOf n = AnalyticsSummary.consensusVersion s
          /\ forall x,
               In x pre ->
               (occurrences (versionOf x) nodes
                < occurrences (AnalyticsSummary.consensusVersion s) nodes)%nat).
Proof.
  intros Hs.
  destruct (getAnalyticsSummary_returns thr w s Hs)
    as (nodes & w1 & rawPods & w2 & Hn & _ & ->).
  exists nodes. rewrite Hn. split; [reflexivity |].
  destruct (consensus_most_common nodes) as (_ & Hmax & Hfirst).
  split; [exact Hmax | exact Hfirst].
Qed.

Lemma list_sum_versionCounts (nodes : list PNode.t) :
  list_sum (List.map snd (versionCounts nodes)) = length nodes.
Proof. exact (list_sum_countBy versionOf nodes). Qed.

Lemma sumCounts_list_sum (d : list VersionDistribution.t) :
  sumCounts d = list_sum (List.map VersionDistribution.count d).
Proof. induction d as [| x d IH]; simpl; [reflexivity | now rewrite <- IH]. Qed.

Lemma versionDistributionOf_spec (nodes : list PNode.t) :
  let d := versionDistributionOf nodes in
  (forall v c,
      In (VersionDistribution.mk v c) d
      <-> c = occurrences v nodes /\ (0 < c)%nat)
  /\ NoDup (List.map VersionDistribution.version d)
  /\ StronglySorted
       (fun a b => (VersionDistribution.count b <= VersionDistribution.count a)%nat)
       d
  /\ sumCounts d = length nodes.
Proof.
  intros d. rewrite sumCounts_list_sum.
  apply (distribution_spec versionOf VersionDistribution.mk
           VersionDistribution.version VersionDistribution.count
           (fun _ _ => eq_refl) (fun _ _ => eq_refl) nodes).
Qed.

(** X18: the version distribution lists each version that occurs exactly once,
    with the number of nodes counted under it, most common first; the
    counts add up to the number of nodes. *)
Theorem version_distribution (w : World) :
  exists nodes d,
    fst (getAllPNodes thr w) = Ok nodes
    /\ fst (getVersionDistribution thr w) = Ok d
    /\ (forall v c,
           In (VersionDistribution.mk v c) d
           <-> c = occurrences v nodes /\ (0 < c)%nat)
    /\ NoDup (List.map VersionDistribution.version d)
    /\ StronglySorted
         (fun a b =>
            (VersionDistribution.count b <= VersionDistribution.count a)%nat)
         d
    /\ sumCounts d = length nodes.
Proof.
  destruct (getAllPNodes_ok thr w) as (nodes & Hn).
  exists nodes, (versionDistributionOf nodes). split; [exact Hn |].
  split.
  - unfold getVersionDistribution. rewrite bind_ret_fst, Hn. reflexivity.
  - apply versionDistributionOf_spec.
Qed.




(** X20: the storage pressure counts the metrics whose utilization exceeds 80
    among all metrics: none exactly when no utilization exceeds 80.  Its
    percentage, computed in doubles, lies between 0 and 100 and is 0
    without metrics; it reaches a whole percentage [b] when the share of
    the counted metrics does, and stays below [b] when the share is at most
    [b - 0.01] percent. *)
Theorem storage_pressure_is_a_share (metrics : list Double.NodeMetrics.t) :
  let p := Double.storagePressureOf metrics in
  let total := Double.StoragePressure.totalNodes p in
  let high := Double.StoragePressure.highPressureNodes p in
  total = length metrics
  /\ (high <= total)%nat
  /\ (high = 0%nat
      <-> List.Forall
            (fun m =>
               Double.gtb (Double.NodeMetrics.storageUtilization m)
                 (Double.Fin 80) = false)
            metrics)
  /\ Double.is_percentage (Double.StoragePressure.percent p)
  /\ (metrics = [] -> Double.StoragePressure.percent p = Double.Fin 0)
  /\ (forall b : Z,
         (0 <= b <= 100)%Z -> (0 < total)%nat ->
         (b * Z.of_nat total <= 100 * Z.of_nat high)%Z ->
         Double.geb (Double.StoragePressure.percent p)
           (Double.Fin (inject_Z b)) = true)
  /\ (forall b : Z,
         (1 <= b <= 100)%Z -> (0 < total)%nat ->
         (10000 * Z.of_nat high <= (100 * b - 1) * Z.of_nat total)%Z ->
         Double.ltb (Double.StoragePressure.percent p)
           (Double.Fin (inject_Z b)) = true).
Proof. exact (storagePressureOf_spec metrics). Qed.

(** X21: the extended summary counts the metrics, not the nodes: without
    metrics every figure is 0 and the network unstable.  Computed in
    doubles, the pressure share is a percentage; the averages are
    percentages when the uptime shares and health scores of the metrics
    are; the online share is the online nodes over the number of metrics,
    a percentage when there are no more online nodes than metrics (three
    online nodes over two metrics give 150); and the network health is the
    one of that share. *)
Theorem extended_summary_over_metrics (metrics : list Double.NodeMetrics.t)
    (nodes : list PNode.t) :
  let s := Double.extendedSummaryOf metrics nodes in
  let onlineCount := length (onlineNodes nodes) in
  Double.ExtendedSummary.totalPNodes s = length metrics
  /\ (metrics = [] ->
      s = Double.ExtendedSummary.mk 0 (Double.Fin 0) (Double.Fin 0)
            (Double.Fin 0) (Double.Fin 0) unstable)
  /\ Double.is_percentage (Double.ExtendedSummary.storagePressurePercent s)
  /\ ((Z.of_nat (length metrics) < 2 ^ 32)%Z ->
      List.Forall
        (fun m =>
           Double.is_percentage (Double.NodeMetrics.uptime24h m)
           /\ Double.is_percentage (Double.NodeMetrics.healthScore m))
        metrics ->
      Double.is_percentage (Double.ExtendedSummary.averageUptime24h s)
      /\ Double.is_percentage (Double.ExtendedSummary.averageHealthScore s))
  /\ ((onlineCount <= length metrics)%nat ->
      Double.is_percentage (Double.ExtendedSummary.onlinePercentage s))
  /\ Double.ExtendedSummary.networkHealth s
     = Double.networkHealthOf onlineCount (length metrics)
  /\ Double.ExtendedSummary.onlinePercentage
       (Double.extendedSummaryOf [sample_metric; sample_metric]
          [node_of "a" online; node_of "b" online; node_of "c" online])
     = Double.Fin 150.
Proof.
  intros s onlineCount.
  destruct (extendedSummaryOf_spec metrics nodes) as (H1 & H2 & H3 & H4 & H5 & H6).
  repeat (split; [assumption |]).
  vm_compute. reflexivity.
Qed.



Lemma getCachedNodeMetrics_hit (w : World) (l : list NodeMetrics.t) :
  cachedMetrics w = Some l -> getCachedNodeMetrics thr w = (Ok l, w).
Proof.
  intros H. unfold getCachedNodeMetrics, analyticsCacheService.get, service_get.
  unfold bind at 1. cbn [fst snd]. fold (cachedMetrics w). now rewrite H.
Qed.

Lemma getCachedNodeMetrics_miss (w : World) :
  cachedMetrics w = None ->
  getCachedNodeMetrics thr w
  = match getRawPodsForAnalytics w with
    | (Ok l, w1) =>
        match getAllPNodes thr w1 with
        | (Ok nodes, w2) =>
            (Ok (computeNodeMetricsFromData l nodes),
             with_cache w2
               (Cache.set Cache.REDIS_KEY_PREFIX_ANALYTICS (cache w2) (now w2)
                  NODE_METRICS_CACHE_KEY
                  (VMetrics (computeNodeMetricsFromData l nodes))
                  NODE_METRICS_CACHE_TTL_MS))
        | (Throw e, w2) => (Throw e, w2)
        end
    | (Throw e, w1) => (Throw e, snd (getAllPNodes thr w1))
    end.
Proof.
  intros H. unfold getCachedNodeMetrics, analyticsCacheService.get,
    analyticsCacheService.set, service_get, service_set.
  unfold bind at 1. cbn [fst snd]. fold (cachedMetrics w). rewrite H.
  unfold bind, ret, Promise_all2.
  destruct (getRawPodsForAnalytics w) as [[l | e] w1]; [| reflexivity].
  destruct (getAllPNodes thr w1) as [[nodes | e] w2]; reflexivity.
Qed.


(** X23: each row of the storage analytics repeats the identity and the two
    storage amounts of its node, in the order of the nodes.  The
    utilization, computed in doubles, is 0 for a capacity of 0, a
    percentage whenever the used amount is within a positive capacity, and
    at least 100 (not capped) when it reaches or exceeds it; 23 bytes used
    of 160 give 14.37. *)
Theorem storage_analytics_rows (w : World) :
  (exists nodes rows,
      fst (getAllPNodes thr w) = Ok nodes
      /\ fst (getStorageAnalytics thr w) = Ok rows
      /\ Forall2
           (fun node row =>
              StorageAnalytics.pubkey row = PNode.pubkey node
              /\ StorageAnalytics.storageUsed row = PNode.storageUsed node
              /\ StorageAnalytics.storageTotal row = PNode.storageTotal node)
           nodes rows)
  /\ (forall used,
         Double.calculateUtilization used (Double.Fin 0) = Double.Fin 0)
  /\ (forall used total : Q,
         0 <= used <= total -> 0 < total ->
         Double.is_percentage
           (Double.calculateUtilization (Double.Fin used) (Double.Fin total)))
  /\ (forall used total : Q,
         0 < total <= used ->
         Double.geb
           (Double.calculateUtilization (Double.Fin used) (Double.Fin total))
           (Double.Fin 100) = true)
  /\ Double.calculateUtilization (Double.Fin 23) (Double.Fin 160)
     = Double.lit (1437 # 100).
Proof.
  split.
  - destruct (getAllPNodes_ok thr w) as (nodes & Hn).
    eexists nodes, _. split; [exact Hn |]. split.
    + unfold getStorageAnalytics. rewrite bind_ret_fst, Hn. reflexivity.
    + clear Hn. induction nodes as [| node rest IH]; simpl; constructor;
        [| exact IH].
      cbn [StorageAnalytics.pubkey StorageAnalytics.storageUsed
        StorageAnalytics.storageTotal].
      split; [reflexivity |]. split; reflexivity.
  - destruct calculateUtilization_spec as (H1 & H2 & H3).
    split; [exact H1 |]. split; [exact H2 |]. split; [exact H3 |].
    vm_compute. reflexivity.
Qed.

End Views.

(** ** The order of health scores *)

Section ScoreOrder.







End ScoreOrder.



Lemma network_health_by_counts_witness :
  Double.networkHealthOf 19 20 = healthy
  /\ Double.networkHealthOf 189 200 = degraded
  /\ Double.networkHealthOf 84 100 = unstable.
Proof.
  split; [| split].
  - apply (proj1 (proj2 (network_health_by_counts 19 20))); simpl; lia.
  - apply (proj1 (proj2 (proj2 (network_health_by_counts 189 200))));
      simpl; lia.
  - apply (proj1 (proj2 (proj2 (proj2 (network_health_by_counts 84 100)))));
      simpl; lia.
Defined.

Lemma storage_pressure_is_a_share_witness :
  Double.geb
    (Double.StoragePressure.percent
       (Double.storagePressureOf [hot_metric; sample_metric]))
    (Double.Fin 50)
  = true.
Proof.
  apply (proj1 (proj2 (proj2 (proj2 (proj2 (proj2
           (storage_pressure_is_a_share [hot_metric; sample_metric]))))))
           50%Z); simpl; lia.
Defined.

Lemma storage_analytics_rows_witness :
  Double.is_percentage
    (Double.calculateUtilization (Double.Fin 23) (Double.Fin 160)).
Proof.
  apply (proj1 (proj2 (proj2 (storage_analytics_rows 300 all_fail_world)))
           23 160); lra.
Defined.

Lemma consensus_is_most_common_witness :
  exists s nodes,
    fst (getAnalyticsSummary 300 two_addresses_world) = Ok s
    /\ fst (getAllPNodes 300 two_addresses_world) = Ok nodes
    /\ forall v,
         (occurrences v nodes
          <= occurrences (AnalyticsSummary.consensusVersion s) nodes)%nat.
Proof.
  destruct (fst (getAnalyticsSummary 300 two_addresses_world)) as [s | e] eqn:E;
    [| vm_compute in E; discriminate E].
  destruct (consensus_is_most_common 300 two_addresses_world s E)
    as (nodes & Hn & Hmax & _).
  exists s, nodes. split; [reflexivity |]. split; [exact Hn | exact Hmax].
Defined.

Lemma extended_summary_over_metrics_witness :
  let s := Double.extendedSummaryOf [hot_metric; sample_metric]
             [node_of "hot" online; node_of "abc" offline] in
  Double.is_percentage (Double.ExtendedSummary.averageUptime24h s)
  /\ Double.is_percentage (Double.ExtendedSummary.averageHealthScore s).
Proof.
  apply (proj1 (proj2 (proj2 (proj2
           (extended_summary_over_metrics [hot_metric; sample_metric]
              [node_of "hot" online; node_of "abc" offline]))))).
  - simpl. lia.
  - repeat constructor; simpl; lra.
Defined.


(** ** The map service: aggregation by country *)

Section Grouping.

Lemma countryData_get_cons (k' k : string) (d : CountryData.t)
    (m : list (string * CountryData.t)) :
  countryData_get ((k', d) :: m) k
  = if String.eqb k' k then Some d else countryData_get m k.
Proof. unfold countryData_get. simpl. now destruct (String.eqb k' k). Qed.

Lemma countryData_get_None (m : list (string * CountryData.t)) (k : string) :
  countryData_get m k = None <-> ~ In k (List.map fst m).
Proof.
  induction m as [| [k' d] m IH]; simpl.
  - unfold countryData_get. simpl. tauto.
  - rewrite countryData_get_cons. destruct (String.eqb k' k) eqn:E.
    + apply String.eqb_eq in E. split; [discriminate | tauto].
    + apply String.eqb_neq in E. rewrite IH. tauto.
Qed.

Lemma countryData_push_keys (m : list (string * CountryData.t)) (k : string)
    (node : MapNode.t) :
  List.map fst (countryData_push m k node) = List.map fst m.
Proof.
  induction m as [| [k' d] m IH]; simpl; [reflexivity |].
  destruct (String.eqb k' k); simpl; [reflexivity | now rewrite IH].
Qed.

Lemma countryData_push_In (m : list (string * CountryData.t)) (k : string)
    (node : MapNode.t) (k0 : string) (d' : CountryData.t) :
  NoDup (List.map fst m) ->
  In (k0, d') (countryData_push m k node) ->
  (k0 <> k /\ In (k0, d') m)
  \/ (k0 = k
      /\ exists d,
           In (k, d) m
           /\ d' = CountryData.mk (CountryData.countryCode d)
                     (CountryData.country d) (CountryData.nodes d ++ [node])).
Proof.
  induction m as [| [k' d] m IH]; simpl; intros Hnd Hin; [contradiction |].
  apply NoDup_cons in Hnd as [Hnotin Hnd].
  destruct (String.eqb k' k) eqn:E.
  - apply String.eqb_eq in E. subst k'. destruct Hin as [[= <- <-] | Hin].
    + right. split; [reflexivity |]. exists d. split; [now left | reflexivity].
    + left. split; [| now right].
      intros ->. apply Hnotin, list_elem_of_In, in_map_iff.
      now exists (k, d').
  - apply String.eqb_neq in E. destruct Hin as [[= <- <-] | Hin].
    + left. split; [exact E | now left].
    + destruct (IH Hnd Hin) as [[Hne H] | [-> (d0 & H & ->)]].
      * left. split; [exact Hne | now right].
      * right. split; [reflexivity |]. exists d0. split; [now right | reflexivity].
Qed.

Lemma filter_snoc {A} (f : A -> bool) (l : list A) (x : A) :
  List.filter f (l ++ [x]) = (List.filter f l ++ if f x then [x] else [])%list.
Proof. rewrite List.filter_app. simpl. now destruct (f x). Qed.

Lemma groups_snoc_other (nodes : list MapNode.t) (node : MapNode.t)
    (k : string) (d : CountryData.t) :
  groups nodes k d -> MapNode.countryCode node <> k ->
  groups (nodes ++ [node]) k d.
Proof.
  intros (Hk & Hn & Hfirst) Hne. split; [exact Hk |]. split; [| exact Hfirst].
  rewrite filter_snoc. apply String.eqb_neq in Hne. rewrite Hne.
  now rewrite app_nil_r.
Qed.

Lemma groupByCountry_grouped (m : list (string * CountryData.t))
    (nodes : list MapNode.t) (node : MapNode.t) :
  grouped m nodes -> grouped (groupByCountry m node) (nodes ++ [node]).
Proof.
  intros (Hnd & Hgroups & Hcover). unfold groupByCountry.
  set (code := MapNode.countryCode node).
  destruct (countryData_get m code) as [d0 |] eqn:Eget.
  - assert (Hcode : In code (List.map fst m)).
    { destruct (in_dec string_dec code (List.map fst m)) as [H | H];
        [exact H |].
      apply countryData_get_None in H. congruence. }
    split; [now rewrite countryData_push_keys |]. split.
    + intros k d' Hin.
      destruct (countryData_push_In m code node k d' Hnd Hin)
        as [[Hne H] | [-> (d & H & ->)]].
      * apply groups_snoc_other; [now apply Hgroups |].
        intros E. apply Hne. now rewrite <- E.
      * destruct (Hgroups code d H) as (Hk & Hn & first & rest & Hf & Hc).
        split; [exact Hk |]. split.
        -- simpl. rewrite filter_snoc. fold code. rewrite String.eqb_refl.
           now rewrite Hn.
        -- exists first, (rest ++ [node])%list. simpl. rewrite Hf.
           split; [reflexivity | exact Hc].
    + intros n Hn. rewrite countryData_push_keys.
      apply in_app_or in Hn as [Hn | [<- | []]];
        [now apply Hcover | exact Hcode].
  - apply countryData_get_None in Eget.
    assert (Hnone : List.filter
                      (fun n => String.eqb (MapNode.countryCode n) code) nodes
                    = []).
    { clear - Hcover Eget. induction nodes as [| n nodes IH]; [reflexivity |].
      simpl. destruct (String.eqb (MapNode.countryCode n) code) eqn:E.
      - apply String.eqb_eq in E. exfalso. apply Eget. rewrite <- E.
        apply Hcover. now left.
      - apply IH. intros n' Hn'. apply Hcover. now right. }
    split; [| split].
    + rewrite map_app. simpl. apply NoDup_app. split; [exact Hnd |].
      split; [| apply NoDup_singleton].
      intros x Hx Hx'. apply list_elem_of_In in Hx'.
      destruct Hx' as [<- | []]. apply Eget. now apply list_elem_of_In.
    + intros k d Hin. apply in_app_or in Hin as [Hin | [[= <- <-] | []]].
      * apply groups_snoc_other; [now apply Hgroups |].
        intros E. apply Eget. fold code in E. rewrite E.
        apply in_map_iff. now exists (k, d).
      * split; [reflexivity |]. split.
        -- simpl. rewrite filter_snoc, Hnone. fold code.
           now rewrite String.eqb_refl.
        -- exists node, []. split; reflexivity.
    + intros n Hn. rewrite map_app. apply in_or_app.
      apply in_app_or in Hn as [Hn | [<- | []]].
      * left. now apply Hcover.
      * right. now left.
Qed.

Lemma fold_groupByCountry_grouped (l : list MapNode.t) :
  forall m processed,
    grouped m processed ->
    grouped (fold_left groupByCountry l m) (processed ++ l).
Proof.
  induction l as [| node l IH]; intros m processed Hm; simpl.
  - now rewrite app_nil_r.
  - replace (processed ++ node :: l)%list with ((processed ++ [node]) ++ l)%list
      by (now rewrite <- app_assoc).
    apply IH. now apply groupByCountry_grouped.
Qed.

Lemma groupedSize_app (m m' : list (string * CountryData.t)) :
  groupedSize (m ++ m') = (groupedSize m + groupedSize m')%nat.
Proof. unfold groupedSize. now rewrite map_app, list_sum_app. Qed.

Lemma groupedSize_push (m : list (string * CountryData.t)) (k : string)
    (node : MapNode.t) (d : CountryData.t) :
  countryData_get m k = Some d ->
  groupedSize (countryData_push m k node) = (groupedSize m + 1)%nat.
Proof.
  revert d. induction m as [| [k' d'] m IH]; intros d; simpl.
  - unfold countryData_get. simpl. discriminate.
  - rewrite countryData_get_cons. destruct (String.eqb k' k) eqn:E.
    + intros _. unfold groupedSize. simpl. rewrite length_app. simpl. lia.
    + intros H. unfold groupedSize in *. simpl. rewrite (IH d H). lia.
Qed.

Lemma groupedSize_fold (l : list MapNode.t) :
  forall m,
    groupedSize (fold_left groupByCountry l m) = (groupedSize m + length l)%nat.
Proof.
  induction l as [| node l IH]; intros m; simpl; [lia |].
  rewrite IH. unfold groupByCountry.
  destruct (countryData_get m (MapNode.countryCode node)) as [d |] eqn:E.
  - rewrite (groupedSize_push _ _ _ d E). lia.
  - rewrite groupedSize_app. unfold groupedSize at 2. simpl. lia.
Qed.

Lemma groups_statsOver (nodes : list MapNode.t) (k : string)
    (d : CountryData.t) :
  groups nodes k d -> statsOver nodes (countryStatsOf d).
Proof.
  intros (Hk & Hn & first & rest & Hf & Hc).
  unfold statsOver, countryStatsOf. cbn [CountryStats.countryCode
    CountryStats.nodeCount CountryStats.onlineCount CountryStats.offlineCount
    CountryStats.country].
  rewrite Hk, <- Hn.
  split; [rewrite Hf; simpl; lia |]. split; [reflexivity |].
  split; [reflexivity |]. split.
  - pose proof (length_filter_le
                  (fun n => PNodeStatus_eqb (MapNode.status n) online)
                  (CountryData.nodes d)). lia.
  - exists first. rewrite Hf. split; [reflexivity | exact Hc].
Qed.

Lemma choroplethOf_spec (mapNodes : list MapNode.t) :
  let c := choroplethOf mapNodes in
  CountryChoropleth.totalNodes c = length mapNodes
  /\ CountryChoropleth.totalCountries c
     = length (CountryChoropleth.countries c)
  /\ NoDup (List.map CountryStats.countryCode (CountryChoropleth.countries c))
  /\ Forall (statsOver mapNodes) (CountryChoropleth.countries c)
  /\ (forall n,
         In n mapNodes ->
         In (MapNode.countryCode n)
           (List.map CountryStats.countryCode (CountryChoropleth.countries c)))
  /\ StronglySorted
       (fun a b => (CountryStats.nodeCount b <= CountryStats.nodeCount a)%nat)
       (CountryChoropleth.countries c)
  /\ list_sum (List.map CountryStats.nodeCount (CountryChoropleth.countries c))
     = length mapNodes.
Proof.
  unfold choroplethOf. cbn [CountryChoropleth.totalNodes
    CountryChoropleth.totalCountries CountryChoropleth.countries].
  set (m := fold_left groupByCountry mapNodes []).
  assert (Hm : grouped m mapNodes).
  { apply (fold_groupByCountry_grouped mapNodes [] []).
    split; [constructor |]. split; [intros k d [] | intros n []]. }
  destruct Hm as (Hnd & Hgroups & Hcover).
  set (stats := List.map (fun e => countryStatsOf (snd e)) m).
  match goal with
  | |- context [Array_sort ?f stats] => set (sorted := Array_sort f stats)
  end.
  assert (Hperm : Permutation sorted stats) by apply Array_sort_Permutation.
  assert (Hcodes : List.map CountryStats.countryCode stats = List.map fst m).
  { unfold stats. rewrite List.map_map. apply List.map_ext_in.
    intros [k d] Hin. simpl. now destruct (Hgroups k d Hin) as (-> & _). }
  split; [reflexivity |]. split; [reflexivity |].
  split; [now rewrite Hperm, Hcodes |].
  split.
  { rewrite Hperm. apply Forall_forall. intros c Hc.
    apply list_elem_of_In, in_map_iff in Hc as ([k d] & <- & Hin).
    apply (groups_statsOver mapNodes k d). now apply Hgroups. }
  split.
  { intros n Hn.
    apply (Permutation_in _ (Permutation_map CountryStats.countryCode
                               (Permutation_sym Hperm))).
    rewrite Hcodes. now apply Hcover. }
  split.
  { eapply StronglySorted_weaken;
      [| apply (Array_sort_sorted (fun x => count (CountryStats.nodeCount x)))].
    simpl. intros a b. apply count_le. }
  rewrite Hperm. unfold stats. rewrite List.map_map.
  change (list_sum (List.map (fun e => length (CountryData.nodes (snd e))) m)
          = length mapNodes).
  fold (groupedSize m). unfold m. rewrite groupedSize_fold. reflexivity.
Qed.

End Grouping.

(** ** The map service: the nodes on the map *)

Section MapNodes.

Variable thr : Z.
Variable batchResolveGeo : list string -> M (string -> option GeoLocation.t).

Lemma getMapNodes_returns (w : World) (mapNodes : list MapNode.t) :
  fst (getMapNodes thr batchResolveGeo w) = Ok mapNodes ->
  exists nodes w1 metrics w2 geoMap,
    getAllPNodes thr w = (Ok nodes, w1)
    /\ getCachedNodeMetrics thr w1 = (Ok metrics, w2)
    /\ fst (batchResolveGeo (List.map addressOf nodes) w2) = Ok geoMap
    /\ mapNodes = omap (mapNodeOf geoMap metrics) nodes.
Proof.
  unfold getMapNodes, try_catch, bind, ret, throw, Promise_all2.
  destruct (getAllPNodes thr w) as [[nodes | e] w1]; [| discriminate].
  destruct (getCachedNodeMetrics thr w1) as [[metrics | e] w2] eqn:Em;
    [| discriminate].
  cbn [fst snd].
  destruct (batchResolveGeo (List.map addressOf nodes) w2)
    as [[geoMap | e] w3] eqn:Eg; [| discriminate].
  simpl. intros [= <-]. exists nodes, w1, metrics, w2, geoMap.
  rewrite Eg. auto.
Qed.

Lemma Map_get_last (metrics post : list NodeMetrics.t) (m : NodeMetrics.t)
    (pk : string) (found : option NodeMetrics.t) :
  NodeMetrics.pubkey m = pk ->
  Forall (fun m' => NodeMetrics.pubkey m' <> pk) post ->
  fold_left
    (fun found e => if String.eqb (fst e) pk then Some (snd e) else found)
    (List.map (fun m => (NodeMetrics.pubkey m, m)) (metrics ++ m :: post))
    found
  = Some m.
Proof.
  intros Hm Hpost. rewrite map_app, fold_left_app. simpl.
  rewrite Hm, String.eqb_refl. clear Hm.
  induction Hpost as [| m' post Hm' Hpost IH]; simpl; [reflexivity |].
  apply String.eqb_neq in Hm'. now rewrite Hm'.
Qed.

Lemma Map_get_none (metrics : list NodeMetrics.t) (pk : string) :
  Forall (fun m' => NodeMetrics.pubkey m' <> pk) metrics ->
  Map_get (List.map (fun m => (NodeMetrics.pubkey m, m)) metrics) pk = None.
Proof.
  unfold Map_get. induction 1 as [| m' l Hm' Hl IH]; simpl; [reflexivity |].
  apply String.eqb_neq in Hm'. now rewrite Hm'.
Qed.

Lemma mapNodeOf_Some (geoMap : string -> option GeoLocation.t)
    (metrics : list NodeMetrics.t) (node : PNode.t) (mn : MapNode.t) :
  mapNodeOf geoMap metrics node = Some mn ->
  exists geo,
    before_colon (addressOf node) <> ""%string
    /\ geoMap (before_colon (addressOf node)) = Some geo
    /\ shows mn node geo
    /\ (Forall (fun m => NodeMetrics.pubkey m <> PNode.pubkey node) metrics ->
        MapNode.healthScore mn = 0 /\ MapNode.uptime24h mn = 0
        /\ MapNode.storageUtilization mn = 0)
    /\ (forall pre m post,
           metrics = (pre ++ m :: post)%list ->
           NodeMetrics.pubkey m = PNode.pubkey node ->
           Forall (fun m' => NodeMetrics.pubkey m' <> PNode.pubkey node) post ->
           scoredBy mn m).
Proof.
  unfold mapNodeOf.
  destruct (truthy_str (before_colon (addressOf node))) eqn:Et;
    [| discriminate].
  simpl. destruct (geoMap (before_colon (addressOf node))) as [geo |] eqn:Eg;
    [| discriminate].
  intros [= <-]. exists geo.
  split; [now apply truthy_str_spec |]. split; [reflexivity |].
  split; [repeat split |]. split.
  - intros Hnone. simpl. rewrite (Map_get_none _ _ Hnone). auto.
  - intros pre m post -> Hm Hpost. unfold scoredBy, Map_get. simpl.
    rewrite (Map_get_last pre post m _ None Hm Hpost). auto.
Qed.

Lemma mapNodeOf_defined (geoMap : string -> option GeoLocation.t)
    (metrics : list NodeMetrics.t) (node : PNode.t) (geo : GeoLocation.t) :
  before_colon (addressOf node) <> ""%string ->
  geoMap (before_colon (addressOf node)) = Some geo ->
  exists mn, mapNodeOf geoMap metrics node = Some mn
             /\ MapNode.pubkey mn = PNode.pubkey node.
Proof.
  intros Hne Hgeo. unfold mapNodeOf.
  apply truthy_str_spec in Hne. rewrite Hne, Hgeo. simpl.
  eexists. split; reflexivity.
Qed.

Lemma omap_sublist {A B C} (g : A -> option B) (f : B -> C) (h : A -> C)
    (l : list A) :
  (forall a b, g a = Some b -> f b = h a) ->
  sublist (List.map f (omap g l)) (List.map h l).
Proof.
  intros Hfg. induction l as [| a l IH]; simpl; [constructor |].
  destruct (g a) as [b |] eqn:E; simpl.
  - rewrite (Hfg a b E). now constructor.
  - now constructor.
Qed.

(** X25: the map shows exactly the nodes that can be located: a node is shown
    when the part of its address before the colon is not empty and the geo
    service knows it, with the identity and status of the node, the
    location of the geo service, and the scores of the last metric
    computed under its pubkey (zeros when there is none); the map nodes
    keep the order of the nodes, and their pubkeys are distinct when those
    of the nodes are. *)
Theorem map_shows_located_nodes (w : World) (mapNodes : list MapNode.t) :
  fst (getMapNodes thr batchResolveGeo w) = Ok mapNodes ->
  exists nodes w1 metrics w2 geoMap,
    getAllPNodes thr w = (Ok nodes, w1)
    /\ getCachedNodeMetrics thr w1 = (Ok metrics, w2)
    /\ fst (batchResolveGeo (List.map addressOf nodes) w2) = Ok geoMap
    /\ sublist (List.map MapNode.pubkey mapNodes) (List.map PNode.pubkey nodes)
    /\ (NoDup (List.map PNode.pubkey nodes) ->
        NoDup (List.map MapNode.pubkey mapNodes))
    /\ (forall mn,
           In mn mapNodes ->
           exists node geo,
             In node nodes
             /\ before_colon (addressOf node) <> ""%string
             /\ geoMap (before_colon (addressOf node)) = Some geo
             /\ shows mn node geo
             /\ (Forall (fun m => NodeMetrics.pubkey m <> PNode.pubkey node)
                   metrics ->
                 MapNode.healthScore mn = 0 /\ MapNode.uptime24h mn = 0
                 /\ MapNode.storageUtilization mn = 0)
             /\ (forall pre m post,
                    metrics = (pre ++ m :: post)%list ->
                    NodeMetrics.pubkey m = PNode.pubkey node ->
                    Forall (fun m' => NodeMetrics.pubkey m' <> PNode.pubkey node)
                      post ->
                    scoredBy mn m))
    /\ (forall node geo,
           In node nodes ->
           before_colon (addressOf node) <> ""%string ->
           geoMap (before_colon (addressOf node)) = Some geo ->
           exists mn, In mn mapNodes /\ MapNode.pubkey mn = PNode.pubkey node).
Proof.
  intros Hr.
  destruct (getMapNodes_returns w mapNodes Hr)
    as (nodes & w1 & metrics & w2 & geoMap & Hn & Hm & Hg & ->).
  exists nodes, w1, metrics, w2, geoMap.
  split; [exact Hn |]. split; [exact Hm |]. split; [exact Hg |].
  assert (Hsub : sublist
                   (List.map MapNode.pubkey (omap (mapNodeOf geoMap metrics) nodes))
                   (List.map PNode.pubkey nodes)).
  { apply omap_sublist. intros node mn E.
    destruct (mapNodeOf_Some _ _ _ _ E) as (geo & _ & _ & Hs & _).
    apply Hs. }
  split; [exact Hsub |]. split; [intros Hnd; eapply sublist_NoDup; eauto |].
  split.
  - intros mn Hin. apply list_elem_of_In, list_elem_of_omap in Hin
      as (node & Hnode & E).
    destruct (mapNodeOf_Some _ _ _ _ E) as (geo & H1 & H2 & H3 & H4 & H5).
    exists node, geo. split; [now apply list_elem_of_In |]. auto.
  - intros node geo Hin Hne Hgeo.
    destruct (mapNodeOf_defined geoMap metrics node geo Hne Hgeo)
      as (mn & E & Hpk).
    exists mn. split; [| exact Hpk].
    apply list_elem_of_In, list_elem_of_omap. exists node.
    split; [now apply list_elem_of_In | exact E].
Qed.

(** X26: the choropleth partitions the map nodes by country code: each code
    that occurs has exactly one entry, under the country name of its first
    node; the entry counts the nodes of its code, its online and offline
    counts add up to that count, the counts of all entries add up to the
    number of map nodes, and the entries are ordered by count, highest
    first. *)
Theorem choropleth_partitions_the_map (w : World) :
  match fst (getCountryChoropleth thr batchResolveGeo w) with
  | Ok c =>
      exists mapNodes,
        fst (getMapNodes thr batchResolveGeo w) = Ok mapNodes
        /\ CountryChoropleth.totalNodes c = length mapNodes
        /\ CountryChoropleth.totalCountries c
           = length (CountryChoropleth.countries c)
        /\ NoDup (List.map CountryStats.countryCode
                    (CountryChoropleth.countries c))
        /\ Forall (statsOver mapNodes) (CountryChoropleth.countries c)
        /\ (forall n,
               In n mapNodes ->
               In (MapNode.countryCode n)
                 (List.map CountryStats.countryCode
                    (CountryChoropleth.countries c)))
        /\ StronglySorted
             (fun a b =>
                (CountryStats.nodeCount b <= CountryStats.nodeCount a)%nat)
             (CountryChoropleth.countries c)
        /\ list_sum (List.map CountryStats.nodeCount
                       (CountryChoropleth.countries c))
           = length mapNodes
  | Throw e => fst (getMapNodes thr batchResolveGeo w) = Throw e
  end.
Proof.
  unfold getCountryChoropleth. rewrite bind_ret_fst.
  destruct (fst (getMapNodes thr batchResolveGeo w)) as [mapNodes | e];
    [| reflexivity].
  exists mapNodes. split; [reflexivity |]. apply choroplethOf_spec.
Qed.

(** X27: the geo summary lists each country and each region of the map nodes
    exactly once, with the number of map nodes in it, the most populated
    first; the counts of the countries, and those of the regions, add up
    to the number of map nodes. *)
Theorem geo_summary_counts_the_map (w : World) :
  match fst (getGeoSummary thr batchResolveGeo w) with
  | Ok s =>
      exists mapNodes,
        fst (getMapNodes thr batchResolveGeo w) = Ok mapNodes
        /\ ((forall k c,
                In (CountryCount.mk k c) (GeoSummary.countries s)
                <-> c = occurrencesBy MapNode.country k mapNodes /\ (0 < c)%nat)
            /\ NoDup (List.map CountryCount.country (GeoSummary.countries s))
            /\ StronglySorted
                 (fun a b => (CountryCount.count b <= CountryCount.count a)%nat)
                 (GeoSummary.countries s)
            /\ list_sum (List.map CountryCount.count (GeoSummary.countries s))
               = length mapNodes)
        /\ ((forall k c,
                In (RegionCount.mk k c) (GeoSummary.regions s)
                <-> c = occurrencesBy MapNode.region k mapNodes /\ (0 < c)%nat)
            /\ NoDup (List.map RegionCount.region (GeoSummary.regions s))
            /\ StronglySorted
                 (fun a b => (RegionCount.count b <= RegionCount.count a)%nat)
                 (GeoSummary.regions s)
            /\ list_sum (List.map RegionCount.count (GeoSummary.regions s))
               = length mapNodes)
  | Throw e => fst (getMapNodes thr batchResolveGeo w) = Throw e
  end.
Proof.
  unfold getGeoSummary. rewrite bind_ret_fst.
  destruct (fst (getMapNodes thr batchResolveGeo w)) as [mapNodes | e];
    [| reflexivity].
  exists mapNodes. split; [reflexivity |]. split.
  - apply (distribution_spec MapNode.country CountryCount.mk
             CountryCount.country CountryCount.count
             (fun _ _ => eq_refl) (fun _ _ => eq_refl) mapNodes).
  - apply (distribution_spec MapNode.region RegionCount.mk
             RegionCount.region RegionCount.count
             (fun _ _ => eq_refl) (fun _ _ => eq_refl) mapNodes).
Qed.

End MapNodes.

Lemma map_shows_located_nodes_witness :
  exists mapNodes nodes,
    fst (getMapNodes 300 knows_one_address two_addresses_world) = Ok mapNodes
    /\ fst (getAllPNodes 300 two_addresses_world) = Ok nodes
    /\ sublist (List.map MapNode.pubkey mapNodes) (List.map PNode.pubkey nodes)
    /\ forall mn, In mn mapNodes -> exists node, In node nodes
                                                 /\ shows mn node paris.
Proof.
  destruct (fst (getMapNodes 300 knows_one_address two_addresses_world))
    as [mapNodes | e] eqn:E; [| vm_compute in E; discriminate E].
  destruct (map_shows_located_nodes 300 knows_one_address two_addresses_world
              mapNodes E)
    as (nodes & w1 & metrics & w2 & geoMap & Hn & _ & Hg & Hsub & _ & Hshown & _).
  exists mapNodes, nodes. split; [reflexivity |].
  split; [now rewrite Hn |]. split; [exact Hsub |].
  intros mn Hin.
  destruct (Hshown mn Hin) as (node & geo & Hnode & _ & Hgeo & Hs & _).
  exists node. split; [exact Hnode |].
  injection Hg as <-.
  destruct (String.eqb _ _) in Hgeo; [| discriminate].
  now injection Hgeo as <-.
Defined.

(** ** The route handlers *)

Section RouteFacts.

Variable thr : Z.
Variable batchResolveGeo : list string -> M (string -> option GeoLocation.t).

Lemma GET_of_status {A} (service : M A) (message : string) (w : World) :
  statusOf (GET_of service message) w
  = Some (if is_ok (fst (service w)) then 200 else 500)%Z.
Proof.
  unfold statusOf, GET_of, try_catch, bind, ret.
  now destruct (service w) as [[a | e] w'].
Qed.

Lemma getAllPNodes_keeps_pods (w : World) :
  cachedPods (snd (getAllPNodes thr w)) = cachedPods w.
Proof.
  destruct (cachedNodes CACHE_KEY w) as [l |] eqn:Ec.
  - rewrite (getAllPNodes_hit thr w l Ec).
    now destruct (enrichNodesWithCachedStats_returns l w) as (l' & -> & _).
  - rewrite (getAllPNodes_miss thr w _ Ec (discoverPNodesViaGossip_eq thr w)).
    match goal with
    | |- context [enrichNodesWithCachedStats ?l ?w'] =>
        destruct (enrichNodesWithCachedStats_returns l w') as (l' & -> & _)
    end.
    unfold cachedPods, with_cache. simpl.
    rewrite get_set_other; [reflexivity | discriminate | discriminate].
Qed.

Lemma getAllPNodes_keeps_prpc (w : World) :
  prpc (snd (getAllPNodes thr w)) = prpc w.
Proof. destruct (getAllPNodes_frame thr w) as (c & ->). reflexivity. Qed.

Lemma getRawPodsForAnalytics_fails_iff (w : World) :
  is_ok (fst (getRawPodsForAnalytics w)) = false <-> no_raw_pods w.
Proof.
  unfold no_raw_pods. destruct (cachedPods w) as [l |] eqn:Ec.
  - assert (E : fst (getRawPodsForAnalytics w) = Ok l).
    { unfold getRawPodsForAnalytics, analyticsCacheService.get, service_get.
      unfold bind at 1. cbn [fst snd]. fold (cachedPods w). now rewrite Ec. }
    rewrite E. simpl. split; [discriminate | intros [H _]; discriminate H].
  - destruct (getRawPodsForAnalytics_cases w Ec) as (w' & -> & _). simpl.
    destruct (primaryResponse (prpc w)); simpl; tauto.
Qed.

Lemma getAnalyticsSummary_fails_iff (w : World) :
  is_ok (fst (getAnalyticsSummary thr w)) = false <-> no_raw_pods w.
Proof.
  pose proof (getAllPNodes_keeps_pods w) as Hpods.
  pose proof (getAllPNodes_keeps_prpc w) as Hprpc.
  destruct (getAllPNodes_ok thr w) as (nodes & Hn).
  unfold getAnalyticsSummary, bind, Date_now, ret.
  destruct (getAllPNodes thr w) as [r w1]. simpl in Hn, Hpods, Hprpc.
  subst r.
  pose proof (getRawPodsForAnalytics_fails_iff w1) as Hraw.
  unfold no_raw_pods in *. rewrite Hpods, Hprpc in Hraw.
  destruct (getRawPodsForAnalytics w1) as [[l | e] w2]; simpl in *; exact Hraw.
Qed.

Lemma getCachedNodeMetrics_fails_iff (w : World) :
  is_ok (fst (getCachedNodeMetrics thr w)) = false
  <-> cachedMetrics w = None /\ no_raw_pods w.
Proof.
  destruct (cachedMetrics w) as [l |] eqn:Ec.
  - rewrite (getCachedNodeMetrics_hit thr w l Ec). simpl.
    split; [discriminate | intros [H _]; discriminate H].
  - rewrite (getCachedNodeMetrics_miss thr w Ec).
    pose proof (getRawPodsForAnalytics_fails_iff w) as Hraw.
    destruct (getRawPodsForAnalytics w) as [[l | e] w1]; simpl in Hraw.
    + destruct (getAllPNodes_ok thr w1) as (nodes & Hn).
      destruct (getAllPNodes thr w1) as [[nodes' | e] w2]; [| discriminate].
      simpl. split; [discriminate | intros [_ H]; now apply Hraw].
    + simpl. tauto.
Qed.

Lemma view_fails_iff {B} (f : list NodeMetrics.t -> B) (w : World) :
  is_ok (fst ((metrics <- getCachedNodeMetrics thr ;; ret (f metrics)) w))
  = is_ok (fst (getCachedNodeMetrics thr w)).
Proof.
  rewrite bind_ret_fst. now destruct (fst (getCachedNodeMetrics thr w)).
Qed.

Lemma status_500_iff (b : bool) :
  Some (if b then 200 else 500)%Z = Some 500%Z <-> b = false.
Proof. destruct b; split; congruence. Qed.

(** X28: the routes that only need the nodes never answer 500, whatever the
    gossip network, the caches and the geo service do: the node list, the
    storage analytics, the versions and the map answer 200 (the map with an
    empty array when its data cannot be had), and the two routes of a single
    node answer 200 or, exactly when the node or its statistics are not
    found, 404. *)
Theorem node_routes_never_answer_500 (w : World) (pubkey : string) :
  statusOf (GET_pnodes thr) w = Some 200%Z
  /\ statusOf (GET_storage thr) w = Some 200%Z
  /\ statusOf (GET_versions thr) w = Some 200%Z
  /\ statusOf (GET_pnodes_map thr batchResolveGeo) w = Some 200%Z
  /\ (is_ok (fst (getMapNodes thr batchResolveGeo w)) = false ->
      exists r, fst (GET_pnodes_map thr batchResolveGeo w) = Ok r
                /\ Http.body r = Http.Json [])
  /\ statusOf (GET_pnode thr pubkey) w
     = Some (match fst (getPNodeByPubkey thr pubkey w) with
             | Ok (Some _) => 200
             | _ => 404
             end)%Z
  /\ statusOf (GET_pnode_stats thr pubkey) w
     = Some (match fst (getNodeStatsByPubkey thr pubkey w) with
             | Ok (Some _) => 200
             | _ => 404
             end)%Z.
Proof.
  destruct (getAllPNodes_ok thr w) as (nodes & Hn).
  split; [| split; [| split; [| split; [| split; [| split]]]]].
  - unfold GET_pnodes. now rewrite GET_of_status, Hn.
  - unfold GET_storage, getStorageAnalytics.
    now rewrite GET_of_status, bind_ret_fst, Hn.
  - unfold GET_versions, getVersionDistribution.
    now rewrite GET_of_status, bind_ret_fst, Hn.
  - unfold statusOf, GET_pnodes_map, try_catch, bind, ret.
    now destruct (getMapNodes thr batchResolveGeo w) as [[l | e] w'].
  - unfold GET_pnodes_map, try_catch, bind, ret.
    destruct (getMapNodes thr batchResolveGeo w) as [[l | e] w'];
      [discriminate |].
    intros _. eexists. split; reflexivity.
  - destruct (getPNodeByPubkey_eq thr w pubkey) as (l & c & _ & Eg).
    unfold statusOf, GET_pnode, try_catch, bind, ret. rewrite Eg. simpl.
    now destruct (List.find _ l).
  - destruct (getNodeStatsByPubkey_cases thr w pubkey) as (r & w' & Es & _).
    unfold statusOf, GET_pnode_stats, try_catch, bind, ret. rewrite Es. simpl.
    now destruct r.
Qed.

(** X29: the analytics routes answer 500 only when the raw pods cannot be had:
    the summary exactly when no pods are cached and both calls of the
    primary endpoint reject, and the four routes built on the node metrics
    exactly when, in addition, no metrics are cached; otherwise they
    answer 200.  The two geographic routes answer 500 exactly when the map
    nodes cannot be had. *)
Theorem analytics_routes_fail_without_pods (w : World) :
  (statusOf (GET_summary thr) w = Some 500%Z <-> no_raw_pods w)
  /\ (forall status,
         status = statusOf (GET_extended_summary thr) w
         \/ status = statusOf (GET_node_metrics thr) w
         \/ status = statusOf (GET_top_nodes thr) w
         \/ status = statusOf (GET_storage_pressure thr) w ->
         (status = Some 500%Z <-> cachedMetrics w = None /\ no_raw_pods w))
  /\ (forall status,
         status = statusOf (GET_summary thr) w
         \/ status = statusOf (GET_extended_summary thr) w
         \/ status = statusOf (GET_node_metrics thr) w
         \/ status = statusOf (GET_top_nodes thr) w
         \/ status = statusOf (GET_storage_pressure thr) w ->
         status = Some 200%Z \/ status = Some 500%Z)
  /\ (forall status,
         status = statusOf (GET_geo_summary thr batchResolveGeo) w
         \/ status = statusOf (GET_country_choropleth thr batchResolveGeo) w ->
         (status = Some 500%Z
          <-> is_ok (fst (getMapNodes thr batchResolveGeo w)) = false)).
Proof.
  assert (Hext : is_ok (fst (getExtendedSummary thr w))
                 = is_ok (fst (getCachedNodeMetrics thr w))).
  { unfold getExtendedSummary, bind, ret.
    destruct (getCachedNodeMetrics thr w) as [[metrics | e] w1];
      [| reflexivity].
    destruct (getAllPNodes_ok thr w1) as (nodes & Hn).
    destruct (getAllPNodes thr w1) as [[nodes' | e] w2]; [| discriminate].
    reflexivity. }
  split; [| split; [| split]].
  - unfold GET_summary. rewrite GET_of_status, status_500_iff.
    apply getAnalyticsSummary_fails_iff.
  - intros status [-> | [-> | [-> | ->]]];
      unfold GET_extended_summary, GET_node_metrics, GET_top_nodes,
        GET_storage_pressure, getNodeMetrics, getTopNodes, getStoragePressure;
      rewrite GET_of_status, status_500_iff, ?Hext, ?view_fails_iff;
      apply getCachedNodeMetrics_fails_iff.
  - intros status [-> | [-> | [-> | [-> | ->]]]];
      unfold GET_summary, GET_extended_summary, GET_node_metrics,
        GET_top_nodes, GET_storage_pressure;
      rewrite GET_of_status;
      match goal with |- context [if ?b then _ else _] => destruct b end; auto.
  - intros status [-> | ->];
      unfold GET_geo_summary, GET_country_choropleth, getGeoSummary,
        getCountryChoropleth;
      rewrite GET_of_status, status_500_iff, bind_ret_fst;
      now destruct (fst (getMapNodes thr batchResolveGeo w)).
Qed.

End RouteFacts.

(** ** From the statistics of a node to the node list *)

Section RamPipeline.

Variable thr : Z.

Lemma enrichNodesWithCachedStats_enrichedIn (nodes : list PNode.t) (w : World) :
  exists enriched,
    enrichNodesWithCachedStats nodes w = (Ok enriched, w)
    /\ Forall2 (enrichedIn w) nodes enriched.
Proof.
  induction nodes as [| node rest IH]; simpl.
  - exists []. split; [reflexivity | constructor].
  - destruct (enrichNodeWithStats_eq node w) as (n' & En & Hn).
    destruct IH as (rest' & Er & Hin).
    exists (n' :: rest'). unfold bind. rewrite En, Er.
    split; [reflexivity | now constructor].
Qed.

Lemma enrichedIn_ram (w : World) (node enriched : PNode.t) (s : NodeStats.t)
    (used total : Q) :
  enrichedIn w node enriched ->
  cachedStats (PNode.pubkey node) w = Some s ->
  NodeStats.ram_used s = Some used -> NodeStats.ram_total s = Some total ->
  PNode.pubkey enriched = PNode.pubkey node
  /\ PNode.ramUsed enriched = Some used /\ PNode.ramTotal enriched = Some total.
Proof.
  unfold enrichedIn. intros H Hc Hu Ht. rewrite Hc, Hu, Ht in H. subst enriched.
  repeat split.
Qed.

Lemma enrichedIn_pubkey (w : World) (node enriched : PNode.t) :
  enrichedIn w node enriched -> PNode.pubkey enriched = PNode.pubkey node.
Proof.
  unfold enrichedIn. intros H.
  destruct (cachedStats (PNode.pubkey node) w) as [s |];
    [destruct (NodeStats.ram_used s), (NodeStats.ram_total s) |];
    now subst enriched.
Qed.

Lemma set_nodes_keeps_stats (w : World) (key : string) (v : CacheValue)
    (ttlMs : Z) (pk : string) :
  key = CACHE_KEY ->
  cachedStats pk
    (with_cache w
       (Cache.set Cache.REDIS_KEY_PREFIX_NODES (cache w) (now w) key v ttlMs))
  = cachedStats pk w.
Proof.
  intros ->. unfold cachedStats, with_cache. simpl.
  rewrite get_set_other; [reflexivity | |].
  - unfold node_stats_key, CACHE_KEY. discriminate.
  - unfold node_stats_key, CACHE_KEY. discriminate.
Qed.

Lemma getAllPNodes_enrichedIn (w : World) :
  exists source w3 enriched,
    getAllPNodes thr w = (Ok enriched, w3)
    /\ Forall2 (enrichedIn w3) source enriched
    /\ forall pk, cachedStats pk w3 = cachedStats pk w.
Proof.
  destruct (cachedNodes CACHE_KEY w) as [l |] eqn:Ec.
  - rewrite (getAllPNodes_hit thr w l Ec).
    destruct (enrichNodesWithCachedStats_enrichedIn l w) as (l' & -> & H).
    exists l, w, l'. auto.
  - rewrite (getAllPNodes_miss thr w _ Ec (discoverPNodesViaGossip_eq thr w)).
    match goal with
    | |- context [enrichNodesWithCachedStats ?l ?w'] =>
        destruct (enrichNodesWithCachedStats_enrichedIn l w') as (l' & -> & H);
        exists l, w', l'
    end.
    split; [reflexivity |]. split; [exact H |].
    intros pk. now apply set_nodes_keeps_stats.
Qed.

(** X30: statistics fetched for a node reach the node list: once the lookup of
    a node's statistics has fetched them from the node, every copy of the
    node list served within the next 120 seconds carries the RAM figures
    of those statistics for that node, whatever the gossip network does
    in between. *)
Theorem fetched_stats_reach_the_node_list (w : World) (pk : string)
    (s : NodeStats.t) (used total : Q) :
  cachedStats pk w = None ->
  fst (getNodeStatsByPubkey thr pk w) = Ok (Some s) ->
  NodeStats.ram_used s = Some used -> NodeStats.ram_total s = Some total ->
  forall t p,
    (t <= now w + 120000)%Z ->
    exists nodes,
      fst (getAllPNodes thr
             (later_world (snd (getNodeStatsByPubkey thr pk w)) t p))
      = Ok nodes
      /\ forall n,
           In n nodes -> PNode.pubkey n = pk ->
           PNode.ramUsed n = Some used /\ PNode.ramTotal n = Some total.
Proof.
  intros Hmiss Hs Hu Ht t p Hlater.
  destruct (getNodeStatsByPubkey_cases thr w pk) as (r & w' & Es & _ & Hc).
  rewrite Es in Hs |- *. simpl in Hs |- *. injection Hs as ->.
  destruct (Hc Hmiss s eq_refl) as (_ & Hcached).
  specialize (Hcached t p Hlater).
  destruct (getAllPNodes_enrichedIn (later_world w' t p))
    as (source & w3 & nodes & -> & Hen & Hframe).
  exists nodes. split; [reflexivity |].
  intros n Hin Hpk. rewrite <- Hframe in Hcached.
  clear - Hen Hin Hpk Hcached Hu Ht.
  induction Hen as [| node n' source nodes Hn Hen IH]; [destruct Hin |].
  destruct Hin as [<- | Hin]; [| now apply IH].
  pose proof (enrichedIn_pubkey _ _ _ Hn) as Hsame.
  rewrite Hpk in Hsame. rewrite Hsame in Hcached.
  destruct (enrichedIn_ram _ _ _ s used total Hn Hcached Hu Ht) as (_ & H1 & H2).
  auto.
Qed.

End RamPipeline.

Lemma fetched_stats_reach_the_node_list_witness :
  exists nodes,
    fst (getAllPNodes 300
           (later_world (snd (getNodeStatsByPubkey 300 "x" stats_world))
              1700000010000 (prpc stats_world)))
    = Ok nodes
    /\ nodes <> []
    /\ forall n,
         In n nodes -> PNode.pubkey n = "x"%string ->
         PNode.ramUsed n = Some 512 /\ PNode.ramTotal n = Some 2048.
Proof.
  destruct (fetched_stats_reach_the_node_list 300 stats_world "x" sample_stats
              512 2048 eq_refl) with (t := 1700000010000%Z)
                                     (p := prpc stats_world)
    as (nodes & Hn & Hram).
  - vm_compute. reflexivity.
  - reflexivity.
  - reflexivity.
  - simpl. lia.
  - exists nodes. split; [exact Hn |]. split; [| exact Hram].
    intros ->. vm_compute in Hn. discriminate Hn.
Defined.
